(** * nradix: a radix tree over IP prefixes (tree.go)

    A shallow embedding of [tree.go]: nodes live in an explicit store, the
    pointers of the Go code are indices into it, and every function threads
    the tree state.  A nil dereference or an index out of range is the
    outcome [Panic]. *)

From Stdlib Require Import ZArith Lia Ascii String.
From stdpp Require Import base list strings gmap.

Local Open Scope Z_scope.

(** ** Outcomes of Go code *)

Inductive outcome (A : Type) : Type :=
| Done (a : A)
| Panic
| OutOfFuel.
Arguments Done {A} a.
Arguments Panic {A}.
Arguments OutOfFuel {A}.

Definition bind {A B} (m : outcome A) (k : A -> outcome B) : outcome B :=
  match m with
  | Done a => k a
  | Panic => Panic
  | OutOfFuel => OutOfFuel
  end.

Notation "x <- m ;; k" := (bind m (fun x => k))
  (at level 100, m at next level, right associativity).

(** ** Errors and values *)

(** [ErrNodeBusy], [ErrNotFound], [ErrBadIP] are the package's error values;
    [ErrParse] stands for an error of [net.ParseCIDR]. *)
Inductive error := ErrNodeBusy | ErrNotFound | ErrBadIP | ErrParse (msg : string).

(** An [interface{}]: nil, an error value boxed in it, or a payload. *)
Inductive any (V : Type) : Type :=
| Nil
| Err (e : error)
| Val (v : V).
Arguments Nil {V}.
Arguments Err {V} e.
Arguments Val {V} v.

Definition is_nil {V} (x : any V) : bool :=
  match x with Nil => true | _ => false end.

(** A pointer to a node: nil, or the index of the node in the store. *)
Abbreviation ptr := (option nat).

Definition ptr_eqb (p q : ptr) : bool :=
  match p, q with
  | None, None => true
  | Some a, Some b => Nat.eqb a b
  | _, _ => false
  end.

Definition is_null (p : ptr) : bool :=
  match p with None => true | Some _ => false end.

Definition is_Some_b {A} (e : option A) : bool :=
  match e with Some _ => true | None => false end.

Definition startbyte : Z := 0x80.

Section Nradix.
Context {V : Type}.

(** ** Nodes and the tree *)

Record node := Node {
  left : ptr;
  right : ptr;
  parent : ptr;
  value : any V
}.

Definition zero_node : node := Node None None None Nil.

(** [tree.alloc] is a slice: [alloc_off] is where its backing array starts
    in the store, [alloc_len] and [alloc_cap] its length and capacity.
    [heap] holds every array that [newnode] has made, one after the other. *)
Record Tree := mkTree {
  root : ptr;
  free : ptr;
  alloc_off : nat;
  alloc_len : nat;
  alloc_cap : nat;
  heap : list node
}.

Definition with_heap (t : Tree) (h : list node) : Tree :=
  mkTree (root t) (free t) (alloc_off t) (alloc_len t) (alloc_cap t) h.
Definition with_free (t : Tree) (p : ptr) : Tree :=
  mkTree (root t) p (alloc_off t) (alloc_len t) (alloc_cap t) (heap t).
Definition with_root (t : Tree) (p : ptr) : Tree :=
  mkTree p (free t) (alloc_off t) (alloc_len t) (alloc_cap t) (heap t).

Definition set_left (n : node) (p : ptr) : node :=
  Node p (right n) (parent n) (value n).
Definition set_right (n : node) (p : ptr) : node :=
  Node (left n) p (parent n) (value n).
Definition set_parent (n : node) (p : ptr) : node :=
  Node (left n) (right n) p (value n).
Definition set_value (n : node) (v : any V) : node :=
  Node (left n) (right n) (parent n) v.

(** [*p] *)
Definition load (h : list node) (p : ptr) : outcome node :=
  match p with
  | None => Panic
  | Some a => match h !! a with Some n => Done n | None => Panic end
  end.

(** [*p = f( *p )] *)
Definition modify (h : list node) (p : ptr) (f : node -> node)
  : outcome (list node) :=
  n <- load h p ;;
  match p with
  | Some a => Done (<[a := f n]> h)
  | None => Panic
  end.

(** [s[i]] on a byte slice *)
Definition index (s : list Z) (i : nat) : outcome Z :=
  match s !! i with Some b => Done b | None => Panic end.

(** ** newnode *)

Definition newnode (t : Tree) : outcome (ptr * Tree) :=
  match free t with
  | Some _ =>
      let p := free t in
      n <- load (heap t) (free t) ;;
      let t := with_free t (right n) in
      h <- modify (heap t) p (fun n => set_right n None) ;;
      h <- modify h p (fun n => set_parent n None) ;;
      h <- modify h p (fun n => set_left n None) ;;
      h <- modify h p (fun n => set_value n Nil) ;;
      Done (p, with_heap t h)
  | None =>
      let ln := alloc_len t in
      if Nat.eqb ln (alloc_cap t) then
        let off := length (heap t) in
        Done (Some off,
              mkTree (root t) (free t) off 1 (ln + 200)
                     (heap t ++ replicate (ln + 200) zero_node))
      else
        Done (Some (alloc_off t + ln)%nat,
              mkTree (root t) (free t) (alloc_off t) (ln + 1) (alloc_cap t)
                     (heap t))
  end.

(** ** NewTree *)

Definition new_Tree : Tree := mkTree None None 0 0 0 [].

Definition NewTree (preallocate : Z) : outcome Tree :=
  let tree := new_Tree in
  pt <- newnode tree ;;
  let tree := with_root (snd pt) (fst pt) in
  if preallocate =? 0 then Done tree
  else Done tree.

(** ** insert *)

Definition child_of (n : node) (k bit : Z) : ptr :=
  if negb (Z.land k bit =? 0) then right n else left n.

Fixpoint insert_descend (fuel : nat) (h : list node) (key mask : list Z)
    (i : nat) (bit : Z) (nd next : ptr) : outcome (nat * Z * ptr * ptr) :=
  match fuel with
  | O => OutOfFuel
  | S fuel =>
      m <- index mask i ;;
      if Z.land bit m =? 0 then Done (i, bit, nd, next)
      else
        k <- index key i ;;
        n <- load h nd ;;
        let next := child_of n k bit in
        if is_null next then Done (i, bit, nd, next)
        else
          let nd := next in
          let bit := Z.shiftr bit 1 in
          if bit =? 0 then
            let i := (i + 1)%nat in
            if Nat.eqb i (length key) then Done (i, bit, nd, next)
            else insert_descend fuel h key mask i startbyte nd next
          else insert_descend fuel h key mask i bit nd next
  end.

Fixpoint insert_extend (fuel : nat) (t : Tree) (key mask : list Z)
    (i : nat) (bit : Z) (nd : ptr) : outcome (ptr * Tree) :=
  match fuel with
  | O => OutOfFuel
  | S fuel =>
      m <- index mask i ;;
      if Z.land bit m =? 0 then Done (nd, t)
      else
        pt <- newnode t ;;
        let '(next, t) := pt in
        h <- modify (heap t) next (fun n => set_parent n nd) ;;
        k <- index key i ;;
        h <- (if negb (Z.land k bit =? 0)
              then modify h nd (fun n => set_right n next)
              else modify h nd (fun n => set_left n next)) ;;
        let t := with_heap t h in
        let nd := next in
        let bit := Z.shiftr bit 1 in
        if bit =? 0 then
          let i := (i + 1)%nat in
          if Nat.eqb i (length key) then Done (nd, t)
          else insert_extend fuel t key mask i startbyte nd
        else insert_extend fuel t key mask i bit nd
  end.

(** Each loop of the file moves one bit forward per iteration, so
    [8 * len(key)] iterations (and one more test) are all it can make. *)
Definition loop_fuel (key : list Z) : nat := S (8 * length key).

Definition insert (t : Tree) (key mask : list Z) (val : any V)
    (overwrite : bool) : outcome (option error * Tree) :=
  if negb (Nat.eqb (length key) (length mask)) then Done (Some ErrBadIP, t)
  else
    st <- insert_descend (loop_fuel key) (heap t) key mask 0 startbyte
                         (root t) (root t) ;;
    let '(i, bit, nd, next) := st in
    if negb (is_null next) then
      n <- load (heap t) nd ;;
      if negb (is_nil (value n)) && negb overwrite
      then Done (Some ErrNodeBusy, t)
      else
        h <- modify (heap t) nd (fun n => set_value n val) ;;
        Done (None, with_heap t h)
    else
      pt <- insert_extend (loop_fuel key) t key mask i bit nd ;;
      let '(nd, t) := pt in
      h <- modify (heap t) nd (fun n => set_value n val) ;;
      Done (None, with_heap t h).

(** ** delete *)

Fixpoint delete_descend (fuel : nat) (h : list node) (key mask : list Z)
    (i : nat) (bit : Z) (nd : ptr) : outcome ptr :=
  match fuel with
  | O => OutOfFuel
  | S fuel =>
      if is_null nd then Done nd
      else
        m <- index mask i ;;
        if Z.land bit m =? 0 then Done nd
        else
          k <- index key i ;;
          n <- load h nd ;;
          let nd := child_of n k bit in
          let bit := Z.shiftr bit 1 in
          if bit =? 0 then
            let i := (i + 1)%nat in
            if Nat.eqb i (length key) then Done nd
            else delete_descend fuel h key mask i startbyte nd
          else delete_descend fuel h key mask i bit nd
  end.

(** The loop of lines 214-233 ("need to trim leaf"). *)
Fixpoint delete_trim (fuel : nat) (t : Tree) (nd : ptr) : outcome Tree :=
  match fuel with
  | O => OutOfFuel
  | S fuel =>
      n <- load (heap t) nd ;;
      pn <- load (heap t) (parent n) ;;
      h <- (if ptr_eqb (right pn) nd
            then modify (heap t) (parent n) (fun n => set_right n None)
            else modify (heap t) (parent n) (fun n => set_left n None)) ;;
      (* reserve this node for future use *)
      h <- modify h nd (fun n => set_right n (free t)) ;;
      let t := with_free (with_heap t h) nd in
      (* move to parent, check if it's free of value and children *)
      n <- load (heap t) nd ;;
      let nd := parent n in
      n <- load (heap t) nd ;;
      if negb (is_null (right n)) || negb (is_null (left n))
         || negb (is_nil (value n))
      then Done t
      else
        (* do not delete root node *)
        if is_null (parent n) then Done t
        else delete_trim fuel t nd
  end.

Definition delete (t : Tree) (key mask : list Z) (wholeRange : bool)
    : outcome (option error * Tree) :=
  if negb (Nat.eqb (length key) (length mask)) then Done (Some ErrBadIP, t)
  else
    nd <- delete_descend (loop_fuel key) (heap t) key mask 0 startbyte
                         (root t) ;;
    if is_null nd then Done (Some ErrNotFound, t)
    else
      n <- load (heap t) nd ;;
      if negb wholeRange
         && (negb (is_null (right n)) || negb (is_null (left n)))
      then
        (* keep it just trim value *)
        if negb (is_nil (value n)) then
          h <- modify (heap t) nd (fun n => set_value n Nil) ;;
          Done (None, with_heap t h)
        else Done (Some ErrNotFound, t)
      else
        t <- delete_trim (loop_fuel key) t nd ;;
        Done (None, t).

(** ** find *)

Fixpoint find_loop (fuel : nat) (h : list node) (key mask : list Z)
    (i : nat) (bit : Z) (nd : ptr) (val : any V) : outcome (any V) :=
  match fuel with
  | O => OutOfFuel
  | S fuel =>
      if is_null nd then Done val
      else
        n <- load h nd ;;
        let val := if negb (is_nil (value n)) then value n else val in
        k <- index key i ;;
        let nd := child_of n k bit in
        m <- index mask i ;;
        if Z.land m bit =? 0 then Done val
        else
          let bit := Z.shiftr bit 1 in
          if bit =? 0 then
            let i := (i + 1)%nat in
            let bit := startbyte in
            if Nat.leb (length key) i then
              (* reached depth of the tree, there should be matching node... *)
              if negb (is_null nd) then
                n <- load h nd ;; Done (value n)
              else Done val
            else find_loop fuel h key mask i bit nd val
          else find_loop fuel h key mask i bit nd val
  end.

Definition find (t : Tree) (key mask : list Z) : outcome (any V) :=
  if negb (Nat.eqb (length key) (length mask)) then Done (Err ErrBadIP)
  else find_loop (loop_fuel key) (heap t) key mask 0 startbyte (root t) Nil.

End Nradix.

Arguments load : simpl never.
Arguments modify : simpl never.
Arguments index : simpl never.
Arguments newnode : simpl never.

(** ** Go's net and strings packages, as far as [parsecidr] uses them *)

(** [net.IP] and [net.IPMask] are byte slices; the nil slice is [[]]. *)
Definition v4InV6Prefix : list Z := [0; 0; 0; 0; 0; 0; 0; 0; 0; 0; 0xff; 0xff].

(** [ip.To16()] *)
Definition To16 (ip : list Z) : list Z :=
  if Nat.eqb (length ip) 4 then v4InV6Prefix ++ ip
  else if Nat.eqb (length ip) 16 then ip
  else [].

(** [net.CIDRMask(ones, bits)] *)
Fixpoint cidr_bytes (l : nat) (n : Z) : list Z :=
  match l with
  | O => []
  | S l =>
      if 8 <=? n then 0xff :: cidr_bytes l (n - 8)
      else Z.lxor 0xff (Z.shiftr 0xff n) :: cidr_bytes l 0
  end.

Definition CIDRMask (ones bits : Z) : list Z :=
  if negb (bits =? 32) && negb (bits =? 128) then []
  else if (ones <? 0) || (bits <? ones) then []
  else cidr_bytes (Z.to_nat (bits / 8)) ones.

(** [mask.Size()], through [simpleMaskLength] *)
Fixpoint count_ones (fuel : nat) (v n : Z) : Z * Z :=
  match fuel with
  | O => (n, v)
  | S fuel =>
      if Z.land v 0x80 =? 0 then (n, v)
      else count_ones fuel (Z.land (Z.shiftl v 1) 0xff) (n + 1)
  end.

Fixpoint simpleMaskLength (mask : list Z) (n : Z) : Z :=
  match mask with
  | [] => n
  | v :: rest =>
      if v =? 0xff then simpleMaskLength rest (n + 8)
      else
        let '(n, v) := count_ones 8 v n in
        if negb (v =? 0) then -1
        else if forallb (Z.eqb 0) rest then n else -1
  end.

Definition Size (m : list Z) : Z * Z :=
  let ones := simpleMaskLength m 0 in
  if ones =? -1 then (0, 0) else (ones, Z.of_nat (length m) * 8).

(** [strings.IndexByte(s, c)] *)
Fixpoint IndexByte_from (s : string) (c : Ascii.ascii) (i : Z) : Z :=
  match s with
  | EmptyString => -1
  | String a s => if Ascii.eqb a c then i else IndexByte_from s c (i + 1)
  end.

Definition IndexByte (s : string) (c : Ascii.ascii) : Z := IndexByte_from s c 0.

(** ** parsecidr and the exported methods *)

Section Methods.
Context {V : Type}.

(** [net.ParseIP] gives the bytes of the address or nil; [net.ParseCIDR]
    gives the address, the network and an error.  Of the network
    [parsecidr] reads the mask only, so [ParseCIDR] gives [ipNet.Mask] in its
    place. *)
Variable ParseIP : string -> list Z.
Variable ParseCIDR : string -> list Z * list Z * option error.

Definition fullMask : list Z := CIDRMask 128 128.

Definition parsecidr (cidr : string) : list Z * list Z * option error :=
  let p := IndexByte cidr "/"%char in
  if p =? -1 then
    let ip := ParseIP cidr in
    (To16 ip, fullMask, None)
  else
    let '(ip, ipNet_Mask, err) := ParseCIDR cidr in
    if is_Some_b err then ([], [], err)
    else
      let prefixLength := fst (Size ipNet_Mask) in
      let prefixLength :=
        if 0 <? IndexByte cidr "."%char then prefixLength + 96 else prefixLength in
      let mask := CIDRMask prefixLength 128 in
      (To16 ip, mask, None).

Definition AddCIDR (tree : Tree) (cidr : string) (val : any V)
    : outcome (option error * Tree) :=
  let '(ip, mask, err) := parsecidr cidr in
  if is_Some_b err then Done (err, tree)
  else insert tree ip mask val false.

Definition SetCIDR (tree : Tree) (cidr : string) (val : any V)
    : outcome (option error * Tree) :=
  let '(ip, mask, err) := parsecidr cidr in
  if is_Some_b err then Done (err, tree)
  else insert tree ip mask val true.

Definition DeleteWholeRangeCIDR (tree : Tree (V:=V)) (cidr : string)
    : outcome (option error * Tree) :=
  let '(ip, mask, err) := parsecidr cidr in
  if is_Some_b err then Done (err, tree)
  else delete tree ip mask true.

Definition DeleteCIDR (tree : Tree (V:=V)) (cidr : string)
    : outcome (option error * Tree) :=
  let '(ip, mask, err) := parsecidr cidr in
  if is_Some_b err then Done (err, tree)
  else delete tree ip mask false.

Definition FindCIDR (tree : Tree (V:=V)) (cidr : string)
    : outcome (any V * option error) :=
  let '(ip, mask, err) := parsecidr cidr in
  if is_Some_b err then Done (Nil, err)
  else
    v <- find tree ip mask ;;
    Done (v, None).

End Methods.

(** * Reading keys and masks bit by bit *)

(** The bits of a byte, most significant first, each read the way the code
    reads it: [b & bit != 0] with [bit] running from [0x80] down to [1]. *)
Definition byte_bits (b : Z) : list bool :=
  map (fun m => negb (Z.land b m =? 0)) [128; 64; 32; 16; 8; 4; 2; 1].

Definition bits (s : list Z) : list bool := flat_map byte_bits s.

(** The key bits the walks of [insert] and [delete] follow: those in front
    of the first zero bit of the mask. *)
Fixpoint prefix_bits (kb mb : list bool) : list bool :=
  match kb, mb with
  | k :: kb, true :: mb => k :: prefix_bits kb mb
  | _, _ => []
  end.

Definition key_prefix (key mask : list Z) : list bool :=
  prefix_bits (bits key) (bits mask).

(** The mask has no zero bit: the walk of [find] can reach the end of the
    key. *)
Definition full_mask (key mask : list Z) : bool :=
  Nat.eqb (length (key_prefix key mask)) (8 * length key).

(** A cursor [(i, bit)] of the loops: byte [i], bit [0x80 >> j] of it;
    [rem] are the bits from there to the end of the slice. *)
Definition cursor (s : list Z) (i : nat) (bit : Z) (rem : list bool) : Prop :=
  exists j : nat, (j < 8)%nat /\ bit = Z.shiftr 128 (Z.of_nat j)
    /\ (i < length s)%nat /\ rem = drop (8 * i + j) (bits s).

(** * The loops, bit list by bit list

    Each loop of the file is a recursion on the bits that remain under its
    cursor.  The functions below are those recursions; the lemmas of the
    second part show that the loops compute them, within the fuel they are
    given. *)

Section Walks.
Context {V : Type}.
Local Abbreviation node := (node (V:=V)).
Local Abbreviation Tree := (Tree (V:=V)).

Definition child (n : node) (b : bool) : ptr :=
  if b then right n else left n.

Definition set_child (n : node) (b : bool) (p : ptr) : node :=
  if b then set_right n p else set_left n p.

(** First loop of [insert]: follow the nodes that exist; the result is the
    last node and the bits that are left. *)
Fixpoint descend_p (h : list node) (nd : ptr) (bs : list bool)
    : outcome (ptr * list bool) :=
  match bs with
  | [] => Done (nd, [])
  | b :: bs' =>
      n <- load h nd ;;
      match child n b with
      | None => Done (nd, bs)
      | Some c => descend_p h (Some c) bs'
      end
  end.

(** Second loop of [insert]: one new node per bit. *)
Fixpoint extend_p (t : Tree) (nd : ptr) (bs : list bool)
    : outcome (ptr * Tree) :=
  match bs with
  | [] => Done (nd, t)
  | b :: bs' =>
      pt <- newnode t ;;
      let '(next, t) := pt in
      h <- modify (heap t) next (fun n => set_parent n nd) ;;
      h <- (if b then modify h nd (fun n => set_right n next)
            else modify h nd (fun n => set_left n next)) ;;
      extend_p (with_heap t h) next bs'
  end.

(** The second loop and the assignment after it (lines 158-176). *)
Definition build (t : Tree) (nd : ptr) (bs : list bool) (val : any V)
    : outcome (option error * Tree) :=
  pt <- extend_p t nd bs ;;
  let '(nd, t) := pt in
  h <- modify (heap t) nd (fun n => set_value n val) ;;
  Done (None, with_heap t h).

(** [insert] from the node [nd], on the bits of the prefix. *)
Definition insert_at (t : Tree) (nd : ptr) (bs : list bool) (val : any V)
    (overwrite : bool) : outcome (option error * Tree) :=
  r <- descend_p (heap t) nd bs ;;
  let '(nd, rest) := r in
  match rest with
  | [] =>
      n <- load (heap t) nd ;;
      if negb (is_nil (value n)) && negb overwrite
      then Done (Some ErrNodeBusy, t)
      else
        h <- modify (heap t) nd (fun n => set_value n val) ;;
        Done (None, with_heap t h)
  | _ :: _ => build t nd rest val
  end.

Definition insert_p (t : Tree) (bs : list bool) (val : any V)
    (overwrite : bool) : outcome (option error * Tree) :=
  insert_at t (root t) bs val overwrite.

(** The loop of [delete]. *)
Fixpoint walk_o (h : list node) (nd : ptr) (bs : list bool) : outcome ptr :=
  match bs with
  | [] => Done nd
  | b :: bs' =>
      if is_null nd then Done nd
      else n <- load h nd ;; walk_o h (child n b) bs'
  end.

(** One turn of the trimming loop of [delete] (lines 215-225): the node is
    unlinked from its parent and put on the free list; the result is the
    new state and the parent. *)
Definition unlink (t : Tree) (nd : ptr) : outcome (Tree * ptr) :=
  n <- load (heap t) nd ;;
  pn <- load (heap t) (parent n) ;;
  h <- (if ptr_eqb (right pn) nd
        then modify (heap t) (parent n) (fun n => set_right n None)
        else modify (heap t) (parent n) (fun n => set_left n None)) ;;
  h <- modify h nd (fun n => set_right n (free t)) ;;
  let t := with_free (with_heap t h) nd in
  n <- load (heap t) nd ;;
  Done (t, parent n).

(** The end of the turn (lines 226-232): stop at a parent that has a child
    or a value, or that is the root; go on with the parent otherwise. *)
Definition check_up (fuel : nat) (t : Tree) (nd : ptr) : outcome Tree :=
  n <- load (heap t) nd ;;
  if negb (is_null (right n)) || negb (is_null (left n))
     || negb (is_nil (value n))
  then Done t
  else if is_null (parent n) then Done t
  else delete_trim fuel t nd.

(** The loop of [find]; [full] says that the mask has no zero bit, so that
    the walk can reach the end of the key (lines 259-265). *)
Fixpoint find_p (h : list node) (nd : ptr) (bs : list bool) (full : bool)
    (val : any V) : outcome (any V) :=
  if is_null nd then Done val
  else
    n <- load h nd ;;
    let val := if negb (is_nil (value n)) then value n else val in
    match bs with
    | [] => Done val
    | b :: bs' =>
        let nd := child n b in
        if full && Nat.eqb (length bs') 0 then
          if negb (is_null nd) then n <- load h nd ;; Done (value n)
          else Done val
        else find_p h nd bs' full val
    end.

End Walks.

(** * The tree that a store holds

    [trie] is the shape and content of a tree of nodes; [repr h T p par S]
    says that the pointer [p] leads, in the store [h], to a tree of nodes
    laid out as [T], whose top node has parent pointer [par], and that [S]
    is the set of the nodes of the tree, each met once. *)

Section Model.
Context {V : Type}.
Local Abbreviation node := (node (V:=V)).
Local Abbreviation Tree := (Tree (V:=V)).

Inductive trie : Type :=
| Leaf
| Br (l : trie) (v : any V) (r : trie).

Fixpoint repr (h : list node) (T : trie) (p par : ptr) (S : gset nat) : Prop :=
  match T with
  | Leaf => (p = None) /\ (S = ∅)
  | Br l v r =>
      exists a n Sl Sr,
        p = Some a /\ h !! a = Some n /\ parent n = par /\ value n = v
        /\ repr h l (left n) (Some a) Sl /\ repr h r (right n) (Some a) Sr
        /\ (a ∉ Sl) /\ (a ∉ Sr) /\ (Sl ## Sr) /\ S = {[a]} ∪ Sl ∪ Sr
  end.

(** The free list: a chain through the [right] fields. *)
Fixpoint flist (h : list node) (p : ptr) (L : list nat) : Prop :=
  match L with
  | [] => p = None
  | a :: L' => p = Some a /\ exists n, h !! a = Some n /\ flist h (right n) L'
  end.

(** The end of the part of the store that [tree.alloc] has handed out. *)
Definition bound (t : Tree) : nat := (alloc_off t + alloc_len t)%nat.

(** The allocator state is sound: the free list is a chain of distinct
    nodes that were handed out, and the cells of the current array that
    were not handed out yet are zero. *)
Record alloc_ok (t : Tree) (L : list nat) : Prop := {
  ao_free : flist (heap t) (free t) L;
  ao_nodup : NoDup L;
  ao_bound : forall a, a ∈ L -> (a < bound t)%nat;
  ao_len : length (heap t) = (alloc_off t + alloc_cap t)%nat;
  ao_cap : (alloc_len t <= alloc_cap t)%nat;
  ao_zero : forall a, (bound t <= a)%nat -> (a < length (heap t))%nat ->
                      heap t !! a = Some zero_node
}.

(** The cells that [newnode] may hand out next: those of the free list and
    those past the end of what was handed out. *)
Definition avail (t : Tree) (L : list nat) (x : nat) : Prop :=
  x ∈ L \/ (bound t <= x)%nat.

(** A step that takes nodes from the allocator only: the tree part [S]
    becomes [S'], the free list [L] becomes [L'], and no cell outside [S]
    and outside what the allocator could hand out is written. *)
Record grows (t t' : Tree) (L L' : list nat) (S S' : gset nat) : Prop := {
  g_root : root t' = root t;
  g_alloc : alloc_ok t' L';
  g_in : forall x, x ∈ S' -> x ∈ S \/ avail t L x;
  g_sep : forall x, x ∈ S' -> ~ avail t' L' x;
  g_avail : forall x, avail t' L' x -> avail t L x;
  g_frame : forall x, x ∉ S -> ~ avail t L x -> heap t' !! x = heap t !! x
}.

(** A step of the trimming loop inside the tree part [S]: the nodes [R]
    of [S] go to the front of the free list, [S'] is what is left of [S],
    and no cell outside [S] is written but the one at [par]. *)
Record shrinks (t t' : Tree) (L R : list nat) (S S' : gset nat) (par : nat)
    : Prop := {
  s_root : root t' = root t;
  s_off : alloc_off t' = alloc_off t;
  s_len : alloc_len t' = alloc_len t;
  s_cap : alloc_cap t' = alloc_cap t;
  s_length : length (heap t') = length (heap t);
  s_free : flist (heap t') (free t') (R ++ L);
  s_nodup : NoDup R;
  s_ne : R <> [];
  s_in : forall x, x ∈ R -> x ∈ S;
  s_sub : forall x, x ∈ S' -> x ∈ S /\ (x ∉ R);
  s_frame : forall x, x ∉ S -> x <> par -> heap t' !! x = heap t !! x
}.

(** A well-formed tree state: the root leads to a tree [T] of nodes [S]
    that were handed out and are not on the free list [L]. *)
Record WF (t : Tree) (T : trie) (S : gset nat) (L : list nat) : Prop := {
  wf_repr : repr (heap t) T (root t) None S;
  wf_root : root t <> None;
  wf_alloc : alloc_ok t L;
  wf_sep : forall a, a ∈ S -> (a ∉ L) /\ (a < bound t)%nat
}.

Definition well_formed (t : Tree) : Prop := exists T S L, WF t T S L.

(** ** Operations on the shape *)

Definition tchild (T : trie) (b : bool) : trie :=
  match T with
  | Leaf => Leaf
  | Br l _ r => if b then r else l
  end.

Definition tvalue (T : trie) : any V :=
  match T with
  | Leaf => Nil
  | Br _ v _ => v
  end.

(** The node whose child on the side [b] is [Td] and whose other child is
    [To]. *)
Definition tnode (b : bool) (Td : trie) (v : any V) (To : trie) : trie :=
  if b then Br To v Td else Br Td v To.

Definition is_leaf (T : trie) : bool :=
  match T with Leaf => true | Br _ _ _ => false end.

Fixpoint tsub (T : trie) (bs : list bool) : trie :=
  match bs with
  | [] => T
  | b :: bs' => tsub (tchild T b) bs'
  end.

(** What [insert] makes of a tree: the path of [bs] completed with empty
    nodes, [val] at its end. *)
Fixpoint tinsert (T : trie) (bs : list bool) (val : any V) : trie :=
  match bs with
  | [] =>
      match T with
      | Leaf => Br Leaf val Leaf
      | Br l _ r => Br l val r
      end
  | b :: bs' =>
      match T with
      | Leaf =>
          if b then Br Leaf Nil (tinsert Leaf bs' val)
          else Br (tinsert Leaf bs' val) Nil Leaf
      | Br l v r =>
          if b then Br l v (tinsert r bs' val)
          else Br (tinsert l bs' val) v r
      end
  end.

(** What the trimming loop of [delete] makes of a tree below the root: the
    subtree at [bs] is gone, and so is every node above it that is left
    with no child and no value. *)
Fixpoint tprune (T : trie) (bs : list bool) {struct bs} : trie :=
  match bs with
  | [] => Leaf
  | b :: bs' =>
      match T with
      | Leaf => Leaf
      | Br l v r =>
          let c := tprune (if b then r else l) bs' in
          let l' := if b then l else c in
          let r' := if b then c else r in
          if is_leaf l' && is_leaf r' && is_nil v then Leaf else Br l' v r'
      end
  end.

(** The same from the root, which stays. *)
Definition tcut (T : trie) (bs : list bool) : trie :=
  match bs, T with
  | b :: bs', Br l v r =>
      if b then Br l v (tprune r bs') else Br (tprune l bs') v r
  | _, _ => T
  end.

(** What [find] returns on a tree. *)
Fixpoint tfind (T : trie) (bs : list bool) (full : bool) (val : any V)
    : any V :=
  match T with
  | Leaf => val
  | Br l v r =>
      let val := if negb (is_nil v) then v else val in
      match bs with
      | [] => val
      | b :: bs' =>
          let c := if b then r else l in
          if full && Nat.eqb (length bs') 0 then
            match c with Leaf => val | Br _ v' _ => v' end
          else tfind c bs' full val
      end
  end.

(** The value of the lowest node that carries one among those on the path
    [bs]; [val] when none does. *)
Fixpoint tbest (T : trie) (bs : list bool) (val : any V) : any V :=
  match T with
  | Leaf => val
  | Br l v r =>
      let val := if negb (is_nil v) then v else val in
      match bs with
      | [] => val
      | b :: bs' => tbest (if b then r else l) bs' val
      end
  end.

(** ** What the claims speak of, read off the store *)

(** The node that the bits [bs] lead to from [p]; nil when the path stops
    before. *)
Fixpoint walk (h : list node) (p : ptr) (bs : list bool) : ptr :=
  match bs with
  | [] => p
  | b :: bs' =>
      match p with
      | None => None
      | Some a =>
          match h !! a with
          | Some n => walk h (child n b) bs'
          | None => None
          end
      end
  end.

Definition node_at (t : Tree) (bs : list bool) : option node :=
  match walk (heap t) (root t) bs with
  | Some a => heap t !! a
  | None => None
  end.

(** The value slot of the node of prefix [bs]; nil when the tree has no
    such node. *)
Definition stored (t : Tree) (bs : list bool) : any V :=
  match node_at t bs with
  | Some n => value n
  | None => Nil
  end.

(** A prefix is registered when its node carries a value. *)
Definition registered (t : Tree) (bs : list bool) : Prop :=
  stored t bs <> Nil.

(** [v] is the value of the longest registered prefix of [bs], or nil when
    no prefix of [bs] is registered. *)
Definition longest_match (t : Tree) (bs : list bool) (v : any V) : Prop :=
  (exists n, (n <= length bs)%nat /\ stored t (take n bs) = v /\ v <> Nil
      /\ forall m, (n < m <= length bs)%nat -> stored t (take m bs) = Nil)
  \/ (v = Nil /\ forall m, (m <= length bs)%nat -> stored t (take m bs) = Nil).

(** The same, computed along the path. *)
Fixpoint best (h : list node) (p : ptr) (bs : list bool) (val : any V)
    : any V :=
  match p with
  | None => val
  | Some a =>
      match h !! a with
      | None => val
      | Some n =>
          let val := if negb (is_nil (value n)) then value n else val in
          match bs with
          | [] => val
          | b :: bs' => best h (child n b) bs' val
          end
      end
  end.

Definition lpm (t : Tree) (bs : list bool) : any V :=
  best (heap t) (root t) bs Nil.

(** The state that [NewTree] returns: the root is the first cell of an
    array of 200. *)
Definition first_tree : Tree :=
  mkTree (Some 0%nat) None 0 1 200 (replicate 200 zero_node).

(** The tree states that the exported operations can produce. *)
Inductive reachable : Tree -> Prop :=
| reach_new p t : NewTree p = Done t -> reachable t
| reach_insert t key mask val ow e t' :
    reachable t -> insert t key mask val ow = Done (e, t') -> reachable t'
| reach_delete t key mask wr e t' :
    reachable t -> delete t key mask wr = Done (e, t') -> reachable t'.

End Model.

(** * Examples

    [ParseIP_lit] and [ParseCIDR_lit] read the literals that the examples
    use, dotted-decimal IPv4 addresses and [::], the way [net.ParseIP] and
    [net.ParseCIDR] do; they refuse every other text. *)

Definition digit (c : Ascii.ascii) : option Z :=
  let n := Z.of_N (N_of_ascii c) in
  if (48 <=? n) && (n <=? 57) then Some (n - 48) else None.

Fixpoint decimal (s : string) (acc : option Z) : option Z :=
  match s with
  | EmptyString => acc
  | String c s =>
      match digit c with
      | None => None
      | Some d =>
          decimal s (Some (match acc with Some a => 10 * a + d | None => d end))
      end
  end.

(** The text before the first [c], and the text after it when [c] occurs. *)
Fixpoint split_at (c : Ascii.ascii) (s : string) : string * option string :=
  match s with
  | EmptyString => (EmptyString, None)
  | String a s' =>
      if Ascii.eqb a c then (EmptyString, Some s')
      else let '(x, y) := split_at c s' in (String a x, y)
  end.

Fixpoint octets (n : nat) (s : string) : option (list Z) :=
  match n with
  | O => None
  | S n' =>
      let '(f, rest) := split_at "."%char s in
      match decimal f None, rest with
      | Some d, None =>
          if Nat.eqb n' 0 && (d <=? 255) then Some [d] else None
      | Some d, Some r =>
          if d <=? 255 then option_map (cons d) (octets n' r) else None
      | None, _ => None
      end
  end.

Definition ParseIP_lit (s : string) : list Z :=
  if String.eqb s "::" then replicate 16 0
  else match octets 4 s with
       | Some o => v4InV6Prefix ++ o
       | None => []
       end.

Definition ParseCIDR_lit (s : string) : list Z * list Z * option error :=
  let '(addr, rest) := split_at "/"%char s in
  let ip := ParseIP_lit addr in
  let bitlen := if String.eqb addr "::" then 128 else 32 in
  match rest with
  | None => ([], [], Some (ErrParse s))
  | Some m =>
      match decimal m None with
      | None => ([], [], Some (ErrParse s))
      | Some n =>
          if Nat.eqb (length ip) 0 || (bitlen <? n)
          then ([], [], Some (ErrParse s))
          else (ip, CIDRMask n bitlen, None)
      end
  end.

(** The state that an operation leaves. *)
Definition state {V : Type} (m : outcome (option error * Tree (V:=V)))
    : Tree (V:=V) :=
  match m with
  | Done (_, t) => t
  | _ => new_Tree
  end.

Definition ip4 (a b c d : Z) : list Z := v4InV6Prefix ++ [a; b; c; d].

Definition Add (t : Tree (V:=string)) (cidr : string) (val : any string) :=
  AddCIDR ParseIP_lit ParseCIDR_lit t cidr val.
Definition Find (t : Tree (V:=string)) (cidr : string) :=
  FindCIDR ParseIP_lit ParseCIDR_lit t cidr.
Definition Delete (t : Tree (V:=string)) (cidr : string) :=
  DeleteCIDR ParseIP_lit ParseCIDR_lit t cidr.
Definition DeleteWholeRange (t : Tree (V:=string)) (cidr : string) :=
  DeleteWholeRangeCIDR ParseIP_lit ParseCIDR_lit t cidr.

(** [10.0.0.0/8 -> A] *)
Definition tree_A : Tree := state (Add first_tree "10.0.0.0/8" (Val "A"%string)).
(** [10.0.0.0/8 -> A], [10.1.0.0/16 -> B] *)
Definition tree_AB : Tree := state (Add tree_A "10.1.0.0/16" (Val "B"%string)).
(** ..., [10.2.0.0/16 -> C] *)
Definition tree_AB_C2 : Tree :=
  state (Add tree_AB "10.2.0.0/16" (Val "C"%string)).
(** ..., [10.1.2.0/24 -> C] *)
Definition tree_AB_C24 : Tree :=
  state (Add tree_AB "10.1.2.0/24" (Val "C"%string)).
(** [10.0.0.0/8 -> A], then [10.1.2.3] inserted with a nil value *)
Definition tree_A_nil : Tree := state (Add tree_A "10.1.2.3" Nil).
(** [10.0.0.0/8 -> A], [10.1.0.0/16 -> B], then [10.1.2.3] with nil *)
Definition tree_AB_nil : Tree := state (Add tree_AB "10.1.2.3" Nil).
(** [10.0.0.0/8] inserted with a nil value in the empty tree *)
Definition tree_nil : Tree := state (Add first_tree "10.0.0.0/8" Nil).

(** * Trees of values *)

Section Built.
Context {V : Type}.
Local Abbreviation Tree := (Tree (V:=V)).
Local Abbreviation trie := (trie (V:=V)).

(** Below the root, a node without children carries a value: what the
    trimming loop of [delete] (lines 226-232) leaves of a branch. *)
Fixpoint valued_below (T : trie) : bool :=
  match T with
  | Leaf => true
  | Br l v r =>
      (negb (is_leaf l && is_leaf r) || negb (is_nil v))
      && valued_below l && valued_below r
  end.

Definition valued (T : trie) : bool :=
  valued_below (tchild T false) && valued_below (tchild T true).

(** The number of nodes on the longest path from the root. *)
Fixpoint depth (T : trie) : nat :=
  match T with
  | Leaf => O
  | Br l _ r => S (Nat.max (depth l) (depth r))
  end.

(** The states that the operations produce when every key that is
    inserted has [w] bytes and every payload is a value. *)
Inductive built (w : nat) : Tree -> Prop :=
| built_new p t : NewTree p = Done t -> built w t
| built_insert t key mask val ow e t' :
    built w t -> length key = w -> val <> Nil ->
    insert t key mask val ow = Done (e, t') -> built w t'
| built_delete t key mask wr e t' :
    built w t -> delete t key mask wr = Done (e, t') -> built w t'.

End Built.

(** * The byte parsers of the benchmarks

    [loadip4] and [parsecidr4] read dotted-decimal text from a byte slice
    into [uint32] values.  A byte and a [uint32] are integers with their
    wrap-around written out. *)

Definition uint8 (z : Z) : Z := z mod 256.
Definition uint32 (z : Z) : Z := z mod 4294967296.

(** [x << s] on [uint32]: a shift by the width or more leaves no bit. *)
Definition shl32 (x s : Z) : Z :=
  if 32 <=? s then 0 else uint32 (Z.shiftl x s).

(** [bytes.IndexByte(s, c)] *)
Fixpoint IndexByte_bytes_from (s : list Z) (c : Z) (i : Z) : Z :=
  match s with
  | [] => -1
  | a :: s => if a =? c then i else IndexByte_bytes_from s c (i + 1)
  end.

Definition IndexByte_bytes (s : list Z) (c : Z) : Z :=
  IndexByte_bytes_from s c 0.

(** The loop of [loadip4] over the bytes that are left, with the address
    [ip], the octet [oct] and the count of dots [num] so far, and the end
    of the function after the loop. *)
Fixpoint loadip4_loop (ipstr : list Z) (ip oct num : Z)
    : Z * option error :=
  match ipstr with
  | [] =>
      if negb (num =? 3) then (0, Some ErrBadIP)
      else if uint32 (0xffffffff - ip) <? oct then (0, Some ErrBadIP)
      else (uint32 (shl32 ip 8 + oct), None)
  | b :: rest =>
      if b =? 46 then
        let num := uint8 (num + 1) in
        if uint32 (0xffffffff - ip) <? oct then (0, Some ErrBadIP)
        else loadip4_loop rest (uint32 (shl32 ip 8 + oct)) 0 num
      else if (48 <=? b) && (b <=? 57) then
        let oct := uint32 (uint32 (oct * 10) + uint32 (uint8 (b - 48))) in
        if 255 <? oct then (0, Some ErrBadIP)
        else loadip4_loop rest ip oct num
      else (0, Some ErrBadIP)
  end.

Definition loadip4 (ipstr : list Z) : Z * option error :=
  loadip4_loop ipstr 0 0 0.

(** The loop of [parsecidr4] over the bytes after the slash; [None] when
    it returns [ErrBadIP]. *)
Fixpoint parsecidr4_mask (s : list Z) (mask : Z) : option Z :=
  match s with
  | [] => Some mask
  | c :: s =>
      if (c <? 48) || (57 <? c) then None
      else parsecidr4_mask s
             (uint32 (uint32 (mask * 10) + uint32 (uint8 (c - 48))))
  end.

Definition parsecidr4 (cidr : list Z) : Z * Z * option error :=
  let p := IndexByte_bytes cidr 47 in
  if 0 <? p then
    match parsecidr4_mask (drop (Z.to_nat (p + 1)) cidr) 0 with
    | None => (0, 0, Some ErrBadIP)
    | Some mask =>
        let mask := shl32 0xffffffff (uint32 (32 - mask)) in
        let cidr := take (Z.to_nat p) cidr in
        let '(ip, err) := loadip4 cidr in
        if is_Some_b err then (0, 0, err) else (ip, mask, None)
    end
  else
    let mask := 0xffffffff in
    let '(ip, err) := loadip4 cidr in
    if is_Some_b err then (0, 0, err) else (ip, mask, None).

(** The number that a run of decimal digits denotes, after [acc]. *)
Definition digits_value (ds : list Z) (acc : Z) : Z :=
  fold_left (fun acc d => acc * 10 + (d - 48)) ds acc.

Definition is_digit (c : Z) : Prop := 48 <= c <= 57.

(** The [parsecidr] of the benchmarks: the one of the package, but for
    the test that adds 96 to the prefix length, which looks at the length
    of the address that [net.ParseCIDR] returned. *)
Module bench.
Section Parse.
Variable ParseIP : string -> list Z.
Variable ParseCIDR : string -> list Z * list Z * option error.

Definition parsecidr (cidr : string) : list Z * list Z * option error :=
  let p := IndexByte cidr "/"%char in
  if p =? -1 then
    let ip := ParseIP cidr in
    (To16 ip, fullMask, None)
  else
    let '(ip, ipNet_Mask, err) := ParseCIDR cidr in
    if is_Some_b err then ([], [], err)
    else
      let prefixLength := fst (Size ipNet_Mask) in
      let prefixLength :=
        if Nat.eqb (length ip) 4 then prefixLength + 96 else prefixLength in
      let mask := CIDRMask prefixLength 128 in
      (To16 ip, mask, None).

End Parse.
End bench.

(** * The loops compute the bit-list recursions *)

Lemma byte_bits_length b : length (byte_bits b) = 8%nat.
Proof. reflexivity. Qed.

Lemma bits_cons b s : bits (b :: s) = byte_bits b ++ bits s.
Proof. reflexivity. Qed.

Lemma bits_length s : length (bits s) = (8 * length s)%nat.
Proof.
  induction s as [|b s IH]; [reflexivity|].
  rewrite bits_cons, length_app, IH, byte_bits_length, length_cons. lia.
Qed.

Lemma byte_bits_lookup b (j : nat) :
  (j < 8)%nat ->
  byte_bits b !! j = Some (negb (Z.land b (Z.shiftr 128 (Z.of_nat j)) =? 0)).
Proof.
  intros Hj. do 8 (destruct j as [|j]; [reflexivity|]). lia.
Qed.

Lemma bits_lookup s (i j : nat) b :
  s !! i = Some b -> (j < 8)%nat ->
  bits s !! (8 * i + j)%nat
  = Some (negb (Z.land b (Z.shiftr 128 (Z.of_nat j)) =? 0)).
Proof.
  revert i. induction s as [|c s IH]; intros i Hi Hj; [discriminate|].
  rewrite bits_cons. destruct i as [|i].
  - simpl in Hi. injection Hi as ->.
    rewrite lookup_app_l by (rewrite byte_bits_length; lia).
    replace (8 * 0 + j)%nat with j by lia. by apply byte_bits_lookup.
  - simpl in Hi. rewrite lookup_app_r by (rewrite byte_bits_length; lia).
    rewrite byte_bits_length.
    replace (8 * S i + j - 8)%nat with (8 * i + j)%nat by lia. by apply IH.
Qed.

Lemma cursor_start s : s <> [] -> cursor s 0 startbyte (bits s).
Proof.
  intros Hs. exists 0%nat. repeat split; try lia.
  destruct s; [done | simpl; lia].
Qed.

Lemma cursor_step s i bit rem :
  cursor s i bit rem ->
  exists b rem',
    index s i = Done b
    /\ rem = negb (Z.land b bit =? 0) :: rem'
    /\ bit <> 0
    /\ (if Z.shiftr bit 1 =? 0
        then if Nat.eqb (i + 1) (length s) then rem' = []
             else cursor s (i + 1) startbyte rem'
        else cursor s i (Z.shiftr bit 1) rem').
Proof.
  intros (j & Hj & -> & Hi & ->).
  destruct (lookup_lt_is_Some_2 s i Hi) as [b Hb].
  exists b, (drop (S (8 * i + j)) (bits s)).
  split; [unfold index; by rewrite Hb|].
  split; [by apply drop_S, bits_lookup|].
  split; [do 8 (destruct j as [|j]; [done|]); lia|].
  destruct (decide (j = 7%nat)) as [->|Hne].
  - change (Z.shiftr (Z.shiftr 128 (Z.of_nat 7)) 1 =? 0) with true. cbv iota.
    destruct (Nat.eqb_spec (i + 1) (length s)) as [He|He].
    + apply drop_ge. rewrite bits_length. lia.
    + exists 0%nat. repeat split; try lia. f_equal. lia.
  - assert (Z.shiftr (Z.shiftr 128 (Z.of_nat j)) 1
            = Z.shiftr 128 (Z.of_nat (S j))) as ->.
    { do 7 (destruct j as [|j]; [reflexivity|]). lia. }
    assert ((Z.shiftr 128 (Z.of_nat (S j)) =? 0) = false) as ->.
    { do 7 (destruct j as [|j]; [reflexivity|]). lia. }
    exists (S j). repeat split; try lia. f_equal. lia.
Qed.

Lemma prefix_bits_length kb mb :
  (length (prefix_bits kb mb) <= length kb)%nat.
Proof.
  revert mb. induction kb as [|k kb IH]; intros [|[] mb]; simpl; try lia.
  specialize (IH mb). lia.
Qed.

Section WalkLemmas.
Context {V : Type}.
Local Abbreviation node := (node (V:=V)).
Local Abbreviation Tree := (Tree (V:=V)).

Lemma child_of_child (n : node) k bit :
  child_of n k bit = child n (negb (Z.land k bit =? 0)).
Proof. reflexivity. Qed.

Lemma prefix_bits_cons k kr m mr :
  prefix_bits (k :: kr) (m :: mr) = if m then k :: prefix_bits kr mr else [].
Proof. by destruct m. Qed.

Lemma cursor_nonempty s i bit rem : cursor s i bit rem -> rem <> [].
Proof. intros H. by destruct (cursor_step _ _ _ _ H) as (? & ? & _ & -> & _). Qed.

Lemma insert_extend_spec fuel (t : Tree) key mask i bit nd kr mr :
  length key = length mask ->
  cursor key i bit kr -> cursor mask i bit mr ->
  (length kr <= fuel)%nat ->
  insert_extend fuel t key mask i bit nd = extend_p t nd (prefix_bits kr mr).
Proof.
  intros Hlen. revert t i bit nd kr mr.
  induction fuel as [|fuel IH]; intros t i bit nd kr mr Hk Hm Hf.
  { apply cursor_nonempty in Hk. destruct kr; [done|simpl in Hf; lia]. }
  destruct (cursor_step _ _ _ _ Hk) as (kb & kr' & Hik & -> & Hbit & Hk').
  destruct (cursor_step _ _ _ _ Hm) as (mb & mr' & Him & -> & _ & Hm').
  rewrite prefix_bits_cons. simpl insert_extend. rewrite Him. simpl bind.
  rewrite (Z.land_comm bit mb). destruct (Z.land mb bit =? 0); [done|].
  simpl negb. cbv iota. simpl extend_p.
  destruct (newnode t) as [[next t']| |]; simpl bind; [|done..].
  destruct (modify (heap t') next _) as [h1| |]; simpl bind; [|done..].
  rewrite Hik. simpl bind.
  destruct (Z.land kb bit =? 0); simpl negb; cbv iota;
    (match goal with |- context [modify h1 nd ?f] =>
       destruct (modify h1 nd f) as [h2| |] end; simpl bind; [|done..]);
    rewrite <- Hlen in Hm';
    (destruct (Z.shiftr bit 1 =? 0);
     [destruct (Nat.eqb (i + 1) (length key));
      [by subst| apply IH; [done..|simpl in Hf; lia]]
     | apply IH; [done..|simpl in Hf; lia]]).
Qed.

Lemma delete_descend_spec fuel (h : list node) key mask i bit nd kr mr :
  length key = length mask ->
  cursor key i bit kr -> cursor mask i bit mr ->
  (length kr <= fuel)%nat ->
  delete_descend fuel h key mask i bit nd = walk_o h nd (prefix_bits kr mr).
Proof.
  intros Hlen. revert i bit nd kr mr.
  induction fuel as [|fuel IH]; intros i bit nd kr mr Hk Hm Hf.
  { apply cursor_nonempty in Hk. destruct kr; [done|simpl in Hf; lia]. }
  destruct (cursor_step _ _ _ _ Hk) as (kb & kr' & Hik & -> & Hbit & Hk').
  destruct (cursor_step _ _ _ _ Hm) as (mb & mr' & Him & -> & _ & Hm').
  rewrite prefix_bits_cons. simpl delete_descend.
  destruct nd as [a|]; simpl is_null; cbv iota.
  2:{ destruct (negb (Z.land mb bit =? 0)); reflexivity. }
  rewrite Him. simpl bind.
  rewrite (Z.land_comm bit mb). destruct (Z.land mb bit =? 0); [done|].
  simpl negb. cbv iota. simpl walk_o. rewrite Hik. simpl bind.
  destruct (load h (Some a)) as [n| |]; simpl bind; [|done..].
  rewrite child_of_child. rewrite <- Hlen in Hm'.
  destruct (Z.shiftr bit 1 =? 0).
  - destruct (Nat.eqb (i + 1) (length key)).
    + by subst.
    + apply IH; [done..|simpl in Hf; lia].
  - apply IH; [done..|simpl in Hf; lia].
Qed.

Lemma full_test_false (p kr : list bool) :
  kr <> [] ->
  (length p =? length kr)%nat && (length p =? 0)%nat = false.
Proof.
  intros Hkr. destruct kr; [done|].
  destruct p; simpl; [done|by rewrite andb_false_r].
Qed.

Lemma find_loop_spec fuel (h : list node) key mask i bit nd val kr mr :
  length key = length mask ->
  cursor key i bit kr -> cursor mask i bit mr ->
  (length kr <= fuel)%nat ->
  find_loop fuel h key mask i bit nd val
  = find_p h nd (prefix_bits kr mr)
           (Nat.eqb (length (prefix_bits kr mr)) (length kr)) val.
Proof.
  intros Hlen. revert i bit nd val kr mr.
  induction fuel as [|fuel IH]; intros i bit nd val kr mr Hk Hm Hf.
  { apply cursor_nonempty in Hk. destruct kr; [done|simpl in Hf; lia]. }
  destruct (cursor_step _ _ _ _ Hk) as (kb & kr' & Hik & -> & Hbit & Hk').
  destruct (cursor_step _ _ _ _ Hm) as (mb & mr' & Him & -> & _ & Hm').
  rewrite prefix_bits_cons. simpl find_loop.
  destruct nd as [a|]; simpl is_null; cbv iota.
  2:{ destruct (negb (Z.land mb bit =? 0)); reflexivity. }
  destruct (negb (Z.land mb bit =? 0)) eqn:Hmb.
  - simpl find_p.
    destruct (load h (Some a)) as [n| |]; simpl bind; [|done..].
    rewrite Hik, Him. simpl bind. apply negb_true_iff in Hmb. rewrite Hmb.
    rewrite child_of_child. rewrite <- Hlen in Hm'.
    destruct (Z.shiftr bit 1 =? 0).
    + destruct (Nat.eqb_spec (i + 1) (length key)) as [He|He].
      * subst kr' mr'. simpl.
        replace (length key <=? i + 1)%nat with true
          by (symmetry; apply Nat.leb_le; lia). done.
      * replace (length key <=? i + 1)%nat with false.
        2:{ symmetry. apply Nat.leb_gt. destruct Hk' as (? & ? & ? & ? & ?). lia. }
        rewrite (IH _ _ _ _ kr' mr'); [|done..|simpl in Hf; lia].
        apply cursor_nonempty in Hk'.
        by rewrite (full_test_false _ _ Hk').
    + rewrite (IH _ _ _ _ kr' mr'); [|done..|simpl in Hf; lia].
      apply cursor_nonempty in Hk'.
      by rewrite (full_test_false _ _ Hk').
  - simpl find_p. destruct (load h (Some a)) as [n| |]; simpl bind; [|done..].
    rewrite Hik, Him. simpl bind. apply negb_false_iff in Hmb. by rewrite Hmb.
Qed.


Lemma cursor_length s i bit rem :
  cursor s i bit rem -> (length rem <= 8 * length s)%nat.
Proof.
  intros (j & _ & _ & _ & ->). rewrite length_drop, bits_length. lia.
Qed.

Lemma insert_descend_spec {A} fuel (h : list node) key mask i bit a kr mr
    (K : nat * Z * ptr * ptr -> outcome A)
    (K' : ptr * list bool -> outcome A) :
  length key = length mask ->
  cursor key i bit kr -> cursor mask i bit mr ->
  (length kr <= fuel)%nat ->
  (forall i' bit' c, K (i', bit', Some c, Some c) = K' (Some c, [])) ->
  (forall i' bit' nd' kr' mr',
      cursor key i' bit' kr' -> cursor mask i' bit' mr' ->
      prefix_bits kr' mr' <> [] ->
      K (i', bit', nd', None) = K' (nd', prefix_bits kr' mr')) ->
  bind (insert_descend fuel h key mask i bit (Some a) (Some a)) K
  = bind (descend_p h (Some a) (prefix_bits kr mr)) K'.
Proof.
  intros Hlen Hk Hm Hf HK1 HK2. revert i bit a kr mr Hk Hm Hf.
  induction fuel as [|fuel IH]; intros i bit a kr mr Hk Hm Hf.
  { apply cursor_nonempty in Hk. destruct kr; [done|simpl in Hf; lia]. }
  pose proof Hk as Hk0. pose proof Hm as Hm0.
  destruct (cursor_step _ _ _ _ Hk) as (kb & kr' & Hik & -> & Hbit & Hk').
  destruct (cursor_step _ _ _ _ Hm) as (mb & mr' & Him & -> & _ & Hm').
  pose proof (HK2 _ _ (Some a) _ _ Hk0 Hm0) as HK2'.
  rewrite prefix_bits_cons in *. simpl insert_descend. rewrite Him. simpl bind.
  rewrite (Z.land_comm bit mb). destruct (Z.land mb bit =? 0).
  { simpl. apply HK1. }
  simpl negb in *. cbv iota in *. simpl descend_p. rewrite Hik. simpl bind.
  destruct (load h (Some a)) as [n| |]; simpl bind; [|done..].
  rewrite child_of_child. destruct (child n _) as [c|]; simpl is_null; cbv iota.
  2:{ simpl bind. by apply HK2'. }
  rewrite <- Hlen in Hm'.
  destruct (Z.shiftr bit 1 =? 0).
  - destruct (Nat.eqb (i + 1) (length key)).
    + subst. simpl. apply HK1.
    + apply IH; [done..|simpl in Hf; lia].
  - apply IH; [done..|simpl in Hf; lia].
Qed.

Lemma insert_insert_p (t : Tree) key mask val overwrite :
  length key = length mask -> key <> [] -> root t <> None ->
  insert t key mask val overwrite
  = insert_p t (key_prefix key mask) val overwrite.
Proof.
  intros Hlen Hkey Hroot. unfold insert, insert_p, insert_at, build.
  rewrite Hlen, Nat.eqb_refl. simpl negb. cbv iota.
  destruct (root t) as [a|] eqn:Hr; [|done].
  assert (mask <> []) as Hmask by (destruct key, mask; done).
  apply insert_descend_spec; auto using cursor_start.
  - unfold loop_fuel. rewrite bits_length. lia.
  - intros i' bit' nd' kr' mr' Hk Hm Hne.
    simpl is_null. cbv iota.
    rewrite (insert_extend_spec _ _ _ _ _ _ _ kr' mr'); [|done..|].
    + by destruct (prefix_bits kr' mr').
    + apply cursor_length in Hk. unfold loop_fuel. lia.
Qed.

Lemma delete_descend_prefix (t : Tree) key mask :
  length key = length mask -> key <> [] ->
  delete_descend (loop_fuel key) (heap t) key mask 0 startbyte (root t)
  = walk_o (heap t) (root t) (key_prefix key mask).
Proof.
  intros Hlen Hkey.
  assert (mask <> []) as Hmask by (destruct key, mask; done).
  apply delete_descend_spec; auto using cursor_start.
  unfold loop_fuel. rewrite bits_length. lia.
Qed.


Lemma find_find_p (t : Tree) key mask :
  length key = length mask -> key <> [] ->
  find t key mask
  = find_p (heap t) (root t) (key_prefix key mask) (full_mask key mask) Nil.
Proof.
  intros Hlen Hkey. unfold find. rewrite Hlen, Nat.eqb_refl. simpl negb. cbv iota.
  assert (mask <> []) as Hmask by (destruct key, mask; done).
  rewrite (find_loop_spec _ _ _ _ _ _ _ _ (bits key) (bits mask));
    auto using cursor_start.
  - unfold full_mask. by rewrite bits_length.
  - unfold loop_fuel. rewrite bits_length. lia.
Qed.
End WalkLemmas.

(** * Stores and the trees they hold *)

Section HeapLemmas.
Context {V : Type}.
Local Abbreviation node := (node (V:=V)).
Local Abbreviation Tree := (Tree (V:=V)).
Local Abbreviation trie := (trie (V:=V)).
Implicit Types (h : list node) (t : Tree) (T : trie) (S : gset nat)
  (L : list nat) (p par : ptr) (n : node) (a : nat).

Local Open Scope nat_scope.

Lemma load_Some h a n : h !! a = Some n -> load h (Some a) = Done n.
Proof. intros H. unfold load. by rewrite H. Qed.

Lemma load_Done h p n :
  load h p = Done n -> exists a, p = Some a /\ h !! a = Some n.
Proof.
  unfold load. destruct p as [a|]; [|done].
  destruct (h !! a) eqn:E; [|done]. intros [= ->]. eauto.
Qed.

Lemma modify_Some h a n f :
  h !! a = Some n -> modify h (Some a) f = Done (<[a := f n]> h).
Proof. intros H. unfold modify. by rewrite (load_Some _ _ _ H). Qed.

Lemma lookup_update_eq h a n n' :
  h !! a = Some n -> <[a := n']> h !! a = Some n'.
Proof. intros H. apply list_lookup_insert_eq. by eapply lookup_lt_Some. Qed.

Lemma lookup_update_ne h a x n' :
  x <> a -> <[a := n']> h !! x = h !! x.
Proof. intros H. by apply list_lookup_insert_ne. Qed.

(** ** Framing: a tree does not see the cells outside it *)

Lemma repr_frame h h' T p par S :
  repr h T p par S ->
  (forall x, x ∈ S -> h' !! x = h !! x) ->
  repr h' T p par S.
Proof.
  revert p par S. induction T as [|l IHl v r IHr]; intros p par S; simpl; [done|].
  intros (a & n & Sl & Sr & -> & Ha & Hp & Hv & Hl & Hr & Hal & Har & Hd & ->) Hf.
  exists a, n, Sl, Sr. repeat split; try done.
  - rewrite Hf; [done|set_solver].
  - apply IHl; [done|]. intros x Hx. apply Hf. set_solver.
  - apply IHr; [done|]. intros x Hx. apply Hf. set_solver.
Qed.

Lemma repr_update h T p par S a n' :
  repr h T p par S -> a ∉ S -> repr (<[a := n']> h) T p par S.
Proof.
  intros H Ha. eapply repr_frame; [done|].
  intros x Hx. apply lookup_update_ne. set_solver.
Qed.

Lemma flist_frame h h' p L :
  flist h p L ->
  (forall x, x ∈ L -> h' !! x = h !! x) ->
  flist h' p L.
Proof.
  revert p. induction L as [|a L IH]; intros p; simpl; [done|].
  intros (-> & n & Ha & Hl) Hf. split; [done|]. exists n. split.
  - rewrite Hf; [done|set_solver].
  - apply IH; [done|]. intros x Hx. apply Hf. set_solver.
Qed.

Lemma flist_update h p L a n' :
  flist h p L -> a ∉ L -> flist (<[a := n']> h) p L.
Proof.
  intros H Ha. eapply flist_frame; [done|].
  intros x Hx. apply lookup_update_ne. set_solver.
Qed.

Lemma repr_Leaf_inv h p par S : repr h Leaf p par S -> p = None /\ S = ∅.
Proof. done. Qed.

Lemma repr_None h T par S : repr h T None par S -> T = Leaf /\ S = ∅.
Proof.
  destruct T as [|l v r]; simpl; [by intros [_ ->]|].
  by intros (a & n & Sl & Sr & ? & _).
Qed.

Lemma repr_Some h T a par S :
  repr h T (Some a) par S ->
  exists l r n Sl Sr,
    T = Br l (value n) r /\ h !! a = Some n /\ parent n = par
    /\ repr h l (left n) (Some a) Sl /\ repr h r (right n) (Some a) Sr
    /\ (a ∉ Sl) /\ (a ∉ Sr) /\ (Sl ## Sr) /\ S = {[a]} ∪ Sl ∪ Sr.
Proof.
  destruct T as [|l v r]; simpl; [by intros [? _]|].
  intros (a' & n & Sl & Sr & [= <-] & Ha & Hp & <- & Hl & Hr & ? & ? & ? & ->).
  exists l, r, n, Sl, Sr. done.
Qed.

Lemma repr_lookup h T p par S x :
  repr h T p par S -> x ∈ S -> is_Some (h !! x).
Proof.
  revert p par S. induction T as [|l IHl v r IHr]; intros p par S; simpl.
  - intros [_ ->]. set_solver.
  - intros (a & n & Sl & Sr & -> & Ha & _ & _ & Hl & Hr & _ & _ & _ & ->) Hx.
    apply elem_of_union in Hx as [Hx|Hx]; [apply elem_of_union in Hx as [Hx|Hx]|].
    + apply elem_of_singleton in Hx as ->. eauto.
    + eauto.
    + eauto.
Qed.

Lemma repr_child h n (b : bool) (l r : trie) a (Sl Sr : gset nat) :
  repr h l (left n) (Some a) Sl -> repr h r (right n) (Some a) Sr ->
  repr h (if b then r else l) (child n b) (Some a) (if b then Sr else Sl).
Proof. by destruct b. Qed.

(** ** Reading a tree *)

Lemma walk_repr h T p par S bs :
  repr h T p par S ->
  exists par' S', repr h (tsub T bs) (walk h p bs) par' S' /\ S' ⊆ S.
Proof.
  revert T p par S. induction bs as [|b bs IH]; intros T p par S H; simpl.
  { eauto. }
  destruct p as [a|].
  - apply repr_Some in H
      as (l & r & n & Sl & Sr & -> & Ha & _ & Hl & Hr & _ & _ & _ & ->).
    rewrite Ha. simpl tchild.
    destruct (IH _ _ _ _ (repr_child _ _ b _ _ _ _ _ Hl Hr))
      as (par' & S' & H' & Hsub).
    exists par', S'. split; [done|]. destruct b; set_solver.
  - apply repr_None in H as [-> ->]. exists par, ∅. split; [|done].
    assert (tsub (V:=V) (tchild Leaf b) bs = Leaf) as ->; [|done].
    clear. simpl. induction bs; simpl; auto.
Qed.

Lemma walk_o_repr h T p par S bs :
  repr h T p par S -> walk_o h p bs = Done (walk h p bs).
Proof.
  revert T p par S. induction bs as [|b bs IH]; intros T p par S H; simpl; [done|].
  destruct p as [a|]; simpl; [|done].
  apply repr_Some in H
    as (l & r & n & Sl & Sr & -> & Ha & _ & Hl & Hr & _ & _ & _ & ->).
  rewrite (load_Some _ _ _ Ha), Ha. simpl.
  eapply IH, (repr_child _ _ b); eauto.
Qed.

Lemma find_p_repr h T p par S bs full val :
  repr h T p par S -> find_p h p bs full val = Done (tfind T bs full val).
Proof.
  revert T p par S val. induction bs as [|b bs IH]; intros T p par S val H.
  - destruct p as [a|]; simpl.
    + apply repr_Some in H
        as (l & r & n & Sl & Sr & -> & Ha & _ & Hl & Hr & _ & _ & _ & ->).
      by rewrite (load_Some _ _ _ Ha).
    + by apply repr_None in H as [-> ->].
  - destruct p as [a|]; simpl.
    + apply repr_Some in H
        as (l & r & n & Sl & Sr & -> & Ha & _ & Hl & Hr & _ & _ & _ & ->).
      rewrite (load_Some _ _ _ Ha). simpl.
      pose proof (repr_child _ _ b _ _ _ _ _ Hl Hr) as Hc.
      destruct (full && (length bs =? 0)).
      * destruct (child n b) as [c|] eqn:Ec; simpl.
        -- apply repr_Some in Hc as (l' & r' & n' & ? & ? & -> & Hc & _).
           by rewrite (load_Some _ _ _ Hc).
        -- by apply repr_None in Hc as [-> _].
      * eapply IH, Hc.
    + by apply repr_None in H as [-> ->].
Qed.

Lemma best_repr h T p par S bs val :
  repr h T p par S -> best h p bs val = tbest T bs val.
Proof.
  revert T p par S val. induction bs as [|b bs IH]; intros T p par S val H.
  - destruct p as [a|]; simpl.
    + apply repr_Some in H
        as (l & r & n & Sl & Sr & -> & Ha & _ & Hl & Hr & _ & _ & _ & ->).
      by rewrite Ha.
    + by apply repr_None in H as [-> ->].
  - destruct p as [a|]; simpl.
    + apply repr_Some in H
        as (l & r & n & Sl & Sr & -> & Ha & _ & Hl & Hr & _ & _ & _ & ->).
      rewrite Ha. simpl. eapply IH, (repr_child _ _ b); eauto.
    + by apply repr_None in H as [-> ->].
Qed.

Lemma stored_repr t T S bs :
  repr (heap t) T (root t) None S -> stored t bs = tvalue (tsub T bs).
Proof.
  intros H. unfold stored, node_at.
  destruct (walk_repr _ _ _ _ _ bs H) as (par' & S' & H' & _).
  destruct (walk (heap t) (root t) bs) as [a|].
  - apply repr_Some in H' as (l & r & n & ? & ? & -> & -> & _). done.
  - by apply repr_None in H' as [-> _].
Qed.

End HeapLemmas.

(** * The allocator *)

Section AllocLemmas.
Context {V : Type}.
Local Abbreviation node := (node (V:=V)).
Local Abbreviation Tree := (Tree (V:=V)).
Local Abbreviation trie := (trie (V:=V)).
Implicit Types (h : list node) (t : Tree) (T : trie) (S : gset nat)
  (L : list nat) (p par : ptr) (n : node) (a x : nat).

Local Open Scope nat_scope.

Lemma modify_spec h a n f :
  h !! a = Some n ->
  exists h', modify h (Some a) f = Done h' /\ h' !! a = Some (f n)
    /\ (forall x, x <> a -> h' !! x = h !! x) /\ length h' = length h.
Proof.
  intros H. exists (<[a := f n]> h). split; [by apply modify_Some|].
  split; [by eapply lookup_update_eq|]. split.
  - intros x Hx. by apply lookup_update_ne.
  - apply length_insert.
Qed.

Lemma alloc_ok_frame t t' L :
  alloc_ok t L ->
  free t' = free t -> alloc_off t' = alloc_off t ->
  alloc_len t' = alloc_len t -> alloc_cap t' = alloc_cap t ->
  length (heap t') = length (heap t) ->
  (forall x, avail t L x -> heap t' !! x = heap t !! x) ->
  alloc_ok t' L.
Proof.
  intros [Hf Hn Hb Hl Hc Hz] E1 E2 E3 E4 E5 Hfr.
  assert (bound t' = bound t) as Eb by (unfold bound; congruence).
  split.
  - rewrite E1. eapply flist_frame; [done|]. intros x Hx. apply Hfr. by left.
  - done.
  - intros a Ha. rewrite Eb. auto.
  - congruence.
  - congruence.
  - intros a H1 H2. rewrite Eb in H1. rewrite E5 in H2.
    rewrite Hfr; [auto|]. by right.
Qed.

Lemma newnode_spec t L :
  alloc_ok t L ->
  exists a t' L',
    newnode t = Done (Some a, t')
    /\ heap t' !! a = Some zero_node
    /\ root t' = root t
    /\ alloc_ok t' L'
    /\ avail t L a
    /\ a < bound t'
    /\ bound t <= bound t'
    /\ (forall x, avail t' L' x -> avail t L x /\ x <> a)
    /\ (forall x, ~ avail t L x -> heap t' !! x = heap t !! x)
    /\ (match free t with
        | Some p => p = a /\ L = a :: L' /\ alloc_off t' = alloc_off t
                    /\ alloc_len t' = alloc_len t /\ alloc_cap t' = alloc_cap t
                    /\ length (heap t') = length (heap t)
        | None => L = [] /\ L' = []
        end).
Proof.
  intros [Hf Hn Hb Hl Hc Hz]. unfold newnode.
  destruct (free t) as [a|] eqn:Efree.
  - (* a node of the free list *)
    destruct L as [|a' L']; simpl in Hf; [done|].
    destruct Hf as ([= <-] & n & Ha & Hf).
    apply NoDup_cons in Hn as [Hna Hn].
    rewrite (load_Some _ _ _ Ha). simpl bind.
    destruct (modify_spec _ _ _ (fun n => set_right n None) Ha)
      as (h1 & -> & Ha1 & Hfr1 & Hl1). simpl bind.
    destruct (modify_spec _ _ _ (fun n => set_parent n None) Ha1)
      as (h2 & -> & Ha2 & Hfr2 & Hl2). simpl bind.
    destruct (modify_spec _ _ _ (fun n => set_left n None) Ha2)
      as (h3 & -> & Ha3 & Hfr3 & Hl3). simpl bind.
    destruct (modify_spec _ _ _ (fun n => set_value n Nil) Ha3)
      as (h4 & -> & Ha4 & Hfr4 & Hl4). simpl bind.
    assert (forall x, x <> a -> h4 !! x = heap t !! x) as Hfr.
    { intros x Hx. rewrite Hfr4, Hfr3, Hfr2, Hfr1; done. }
    exists a, (with_heap (with_free t (right n)) h4), L'.
    split; [done|]. split; [exact Ha4|]. split; [done|].
    assert (a < bound t) as Hab by (apply Hb; set_solver).
    split; [|split; [left; set_solver|split; [exact Hab|split; [done|split; [|split]]]]].
    + split; simpl.
      * eapply flist_frame; [done|]. intros x Hx. apply Hfr. set_solver.
      * done.
      * intros x Hx. apply Hb. set_solver.
      * lia.
      * done.
      * intros x H1 H2. rewrite Hfr; [|unfold bound in *; simpl in *; lia].
        apply Hz; [done|lia].
    + intros x [Hx|Hx].
      * split; [left; set_solver|]. set_solver.
      * split; [by right|]. unfold bound in *. simpl in *. lia.
    + intros x Hx. apply Hfr. intros ->. apply Hx. left. set_solver.
    + simpl. repeat split; try done. lia.
  - (* a cell of the current array, or of a new one *)
    destruct L as [|a' L']; simpl in Hf; [|by destruct Hf].
    cbv zeta. destruct (Nat.eqb_spec (alloc_len t) (alloc_cap t)) as [E|E].
    + exists (length (heap t)), (mkTree (root t) None (length (heap t)) 1
               (alloc_len t + 200)
               (heap t ++ replicate (alloc_len t + 200) zero_node)), [].
      assert (bound t <= length (heap t)) as Hbl by (unfold bound; lia).
      split; [done|]. split.
      { simpl. rewrite lookup_app_r by lia. rewrite Nat.sub_diag.
        apply lookup_replicate. split; [done|lia]. }
      split; [done|]. split.
      { split; simpl.
        - done.
        - apply NoDup_nil_2.
        - intros ? H. set_solver.
        - rewrite length_app, length_replicate. lia.
        - lia.
        - unfold bound. simpl. intros x H1 H2.
          rewrite length_app, length_replicate in H2.
          rewrite lookup_app_r by lia. apply lookup_replicate.
          split; [done|lia]. }
      unfold avail, bound in *. simpl.
      split; [right; lia|]. split; [lia|]. split; [lia|]. split; [|split].
      * intros x [Hx|Hx]; [set_solver|]. split; [right|]; lia.
      * intros x Hx. apply lookup_app_l.
        destruct (decide (x < length (heap t))); [done|].
        exfalso. apply Hx. right. lia.
      * done.
    + exists (alloc_off t + alloc_len t),
             (mkTree (root t) None (alloc_off t) (alloc_len t + 1)
                     (alloc_cap t) (heap t)), [].
      split; [done|]. split.
      { simpl. apply Hz; [done|lia]. }
      split; [done|]. split.
      { split; simpl.
        - done.
        - apply NoDup_nil_2.
        - intros ? H. set_solver.
        - done.
        - lia.
        - unfold bound. simpl. intros x H1 H2. apply Hz; [unfold bound|]; lia. }
      unfold avail, bound in *. simpl.
      split; [right; lia|]. split; [lia|]. split; [lia|]. split; [|split].
      * intros x [Hx|Hx]; [set_solver|]. split; [right|]; lia.
      * done.
      * done.
Qed.

End AllocLemmas.

(** * insert keeps the tree well formed *)

Section InsertLemmas.
Context {V : Type}.
Local Abbreviation node := (node (V:=V)).
Local Abbreviation Tree := (Tree (V:=V)).
Local Abbreviation trie := (trie (V:=V)).
Implicit Types (h : list node) (t : Tree) (T : trie) (S : gset nat)
  (L : list nat) (p par : ptr) (n : node) (a x c q : nat) (b : bool)
  (bs : list bool) (val : any V).

Local Open Scope nat_scope.

Lemma build_nil t c n val :
  heap t !! c = Some n ->
  build t (Some c) [] val
  = Done (None, with_heap t (<[c := set_value n val]> (heap t))).
Proof. intros H. unfold build. simpl. by rewrite (modify_Some _ _ _ _ H). Qed.

Lemma build_cons t nd b bs val :
  build t nd (b :: bs) val
  = (pt <- newnode t ;;
     let '(next, t) := pt in
     h <- modify (heap t) next (fun n => set_parent n nd) ;;
     h <- modify h nd (fun n => set_child n b next) ;;
     build (with_heap t h) next bs val).
Proof.
  unfold build. simpl extend_p.
  destruct (newnode t) as [[next t']| |]; simpl; [|done..].
  destruct (modify (heap t') next _) as [h1| |]; simpl; [|done..].
  by destruct b; simpl; destruct (modify h1 nd _).
Qed.

Lemma avail_with_heap t h L x : avail (with_heap t h) L x <-> avail t L x.
Proof. done. Qed.

(** The statement about [build] from a fresh node, for the bits [bs]. *)
Definition chain_ok bs val : Prop :=
  forall t q par L,
    alloc_ok t L ->
    heap t !! q = Some (Node None None par Nil) ->
    ~ avail t L q ->
    exists t' Sq L',
      build t (Some q) bs val = Done (None, t')
      /\ repr (heap t') (tinsert Leaf bs val) (Some q) par Sq
      /\ grows t t' L L' {[q]} Sq.

(** Hanging a new path under the node [c]. *)
Lemma attach_step bs val t c n b L :
  chain_ok bs val ->
  alloc_ok t L ->
  heap t !! c = Some n ->
  ~ avail t L c ->
  exists t' q Sq L',
    build t (Some c) (b :: bs) val = Done (None, t')
    /\ heap t' !! c = Some (set_child n b (Some q))
    /\ repr (heap t') (tinsert Leaf bs val) (Some q) (Some c) Sq
    /\ (c ∉ Sq)
    /\ (forall x, x ∈ Sq -> avail t L x)
    /\ grows t t' L L' {[c]} ({[c]} ∪ Sq).
Proof.
  intros IH Hok Hc Hnc. rewrite build_cons.
  destruct (newnode_spec _ _ Hok)
    as (q & t1 & L1 & -> & Hq & Hroot1 & Hok1 & Hqa & Hqb & Hbb & Hav1 & Hfr1 & _).
  simpl bind.
  assert (q <> c) as Hqc by (intros ->; done).
  assert (heap t1 !! c = Some n) as Hc1 by (rewrite Hfr1; done).
  rewrite (modify_Some _ _ _ _ Hq). simpl bind.
  rewrite (modify_Some _ c n).
  2:{ rewrite lookup_update_ne; done. }
  simpl bind.
  set (h3 := <[c := set_child n b (Some q)]>
               (<[q := set_parent zero_node (Some c)]> (heap t1))).
  assert (forall x, x <> c -> x <> q -> h3 !! x = heap t1 !! x) as Hfr3.
  { intros x H1 H2. unfold h3. rewrite !lookup_update_ne; done. }
  assert (h3 !! c = Some (set_child n b (Some q))) as Hc3.
  { unfold h3. eapply lookup_update_eq. rewrite lookup_update_ne; done. }
  assert (h3 !! q = Some (Node None None (Some c) Nil)) as Hq3.
  { unfold h3. rewrite lookup_update_ne by done. by eapply lookup_update_eq. }
  assert (~ avail t1 L1 q) as Hnq1 by (intros H; by apply Hav1 in H as [_ ?]).
  assert (~ avail t1 L1 c) as Hnc1 by (intros H; by apply Hav1 in H as [? _]).
  assert (alloc_ok (with_heap t1 h3) L1) as Hok3.
  { eapply alloc_ok_frame; [exact Hok1|done..| |].
    - simpl. unfold h3. by rewrite !length_insert.
    - intros x Hx. simpl. apply Hfr3; intros ->; done. }
  destruct (IH (with_heap t1 h3) q (Some c) L1 Hok3 Hq3 Hnq1)
    as (t' & Sq & L' & Hb & Hrepr & [Gr Ga Gi Gs Gv Gf]).
  exists t', q, Sq, L'. split; [done|].
  assert (forall x, x ∈ Sq -> x = q \/ avail t1 L1 x) as Gi'.
  { intros x Hx. destruct (Gi x Hx) as [H|H]; [left; set_solver|by right]. }
  assert (c ∉ Sq) as HcSq.
  { intros H. destruct (Gi' _ H) as [->|H']; done. }
  split; [|split; [done|split; [done|split]]].
  - rewrite Gf; [done|set_solver|done].
  - intros x Hx. destruct (Gi' _ Hx) as [->|H]; [done|]. by apply Hav1 in H as [? _].
  - split.
    + by rewrite Gr.
    + done.
    + intros x Hx. apply elem_of_union in Hx as [Hx|Hx]; [by left|right].
      destruct (Gi' _ Hx) as [->|H]; [done|]. by apply Hav1 in H as [? _].
    + intros x Hx. apply elem_of_union in Hx as [Hx|Hx]; [|by apply Gs].
      apply elem_of_singleton in Hx as ->. intros H. by apply Gv in H.
    + intros x Hx. apply Gv in Hx. by apply Hav1 in Hx as [? _].
    + intros x Hx Hna.
      assert (x <> c) by set_solver.
      assert (x <> q) by (intros ->; done).
      rewrite Gf; [|set_solver|].
      * simpl. rewrite Hfr3 by done. by apply Hfr1.
      * intros H'. by apply Hav1 in H' as [? _].
Qed.

Lemma chain_spec bs val : chain_ok bs val.
Proof.
  induction bs as [|b bs IH]; intros t q par L Hok Hq Hnq.
  - rewrite (build_nil _ _ _ _ Hq).
    exists (with_heap t (<[q := set_value (Node None None par Nil) val]> (heap t))),
           ({[q]} ∪ ∅ ∪ ∅), L.
    split; [done|]. split.
    + simpl. exists q, (Node None None par val), ∅, ∅.
      split; [done|]. split; [by eapply lookup_update_eq|].
      repeat split; try done; set_solver.
    + split; simpl.
      * done.
      * eapply alloc_ok_frame; [exact Hok|done..| |].
        -- simpl. apply length_insert.
        -- intros x Hx. simpl. apply lookup_update_ne. by intros ->.
      * intros x Hx. left. set_solver.
      * intros x Hx. assert (x = q) as -> by set_solver. done.
      * done.
      * intros x Hx _. apply lookup_update_ne. set_solver.
  - destruct (attach_step bs val t q _ b L IH Hok Hq Hnq)
      as (t' & c & Sc & L' & Hb & Hq' & Hrepr & HqS & _ & Gr).
    exists t', ({[q]} ∪ (if b then ∅ else Sc) ∪ (if b then Sc else ∅)), L'.
    split; [done|]. split.
    + destruct b; simpl.
      * exists q, (Node None (Some c) par Nil), ∅, Sc.
        repeat split; try done; set_solver.
      * exists q, (Node (Some c) None par Nil), Sc, ∅.
        repeat split; try done; set_solver.
    + replace ({[q]} ∪ (if b then ∅ else Sc) ∪ (if b then Sc else ∅))
        with ({[q]} ∪ Sc); [done|]. destruct b; set_solver.
Qed.

Lemma attach_spec bs val t c n b L :
  alloc_ok t L ->
  heap t !! c = Some n ->
  ~ avail t L c ->
  exists t' q Sq L',
    build t (Some c) (b :: bs) val = Done (None, t')
    /\ heap t' !! c = Some (set_child n b (Some q))
    /\ repr (heap t') (tinsert Leaf bs val) (Some q) (Some c) Sq
    /\ (c ∉ Sq)
    /\ (forall x, x ∈ Sq -> avail t L x)
    /\ grows t t' L L' {[c]} ({[c]} ∪ Sq).
Proof. apply attach_step, chain_spec. Qed.

Lemma tsub_Leaf bs : tsub (V:=V) Leaf bs = Leaf.
Proof. induction bs; simpl; auto. Qed.

Lemma insert_at_child t c n d b bs val ow :
  heap t !! c = Some n -> child n b = Some d ->
  insert_at t (Some c) (b :: bs) val ow = insert_at t (Some d) bs val ow.
Proof.
  intros Hc Hd. unfold insert_at. simpl descend_p.
  rewrite (load_Some _ _ _ Hc). simpl bind. by rewrite Hd.
Qed.

Lemma insert_at_nochild t c n b bs val ow :
  heap t !! c = Some n -> child n b = None ->
  insert_at t (Some c) (b :: bs) val ow = build t (Some c) (b :: bs) val.
Proof.
  intros Hc Hd. unfold insert_at. simpl descend_p.
  rewrite (load_Some _ _ _ Hc). simpl bind. by rewrite Hd.
Qed.

Lemma insert_at_spec bs : forall t c par Tc Sc L val ow,
  repr (heap t) Tc (Some c) par Sc ->
  alloc_ok t L ->
  (forall x, x ∈ Sc -> ~ avail t L x) ->
  (ow = false /\ tvalue (tsub Tc bs) <> Nil
   /\ insert_at t (Some c) bs val ow = Done (Some ErrNodeBusy, t))
  \/ ((ow = true \/ tvalue (tsub Tc bs) = Nil)
      /\ exists t' Sc' L',
           insert_at t (Some c) bs val ow = Done (None, t')
           /\ repr (heap t') (tinsert Tc bs val) (Some c) par Sc'
           /\ grows t t' L L' Sc Sc').
Proof.
  induction bs as [|b bs IH]; intros t c par Tc Sc L val ow Hrepr Hok Hsep.
  - apply repr_Some in Hrepr
      as (l & r & n & Sl & Sr & -> & Hc & Hp & Hl & Hr & Hcl & Hcr & Hd & ->).
    unfold insert_at. simpl descend_p. simpl bind.
    rewrite (load_Some _ _ _ Hc). simpl bind. simpl tsub. simpl tvalue.
    destruct (is_nil (value n)) eqn:Hv; destruct ow; simpl negb; simpl andb;
      cbv iota.
    1,2,3: right; split;
      [first [by left | right; by destruct (value n)]|].
    1,2,3: rewrite (modify_Some _ _ _ _ Hc); simpl bind;
      exists (with_heap t (<[c := set_value n val]> (heap t))),
             ({[c]} ∪ Sl ∪ Sr), L;
      (split; [done|]); split;
      [ simpl; exists c, (set_value n val), Sl, Sr;
        split; [done|]; split; [by eapply lookup_update_eq|];
        repeat split; try done; by apply repr_update
      | split; simpl;
        [ done
        | eapply alloc_ok_frame; [exact Hok|done..|simpl; apply length_insert|];
          intros x Hx; simpl; apply lookup_update_ne; intros ->;
          apply (Hsep c); [set_solver|done]
        | by left
        | intros x Hx; by apply Hsep
        | done
        | intros x Hx _; apply lookup_update_ne; set_solver ] ].
    left. split; [done|]. split; [by destruct (value n)|done].
  - apply repr_Some in Hrepr
      as (l & r & n & Sl & Sr & -> & Hc & Hp & Hl & Hr & Hcl & Hcr & Hd & ->).
    pose proof (repr_child _ _ b _ _ _ _ _ Hl Hr) as Hch.
    assert (~ avail t L c) as Hnc by (apply Hsep; set_solver).
    destruct (child n b) as [d|] eqn:Ed.
    + (* the child exists: go down *)
      rewrite (insert_at_child _ _ _ _ _ _ _ _ Hc Ed). simpl tsub.
      destruct (IH t d (Some c) _ _ L val ow Hch Hok) as [Hbusy|(Hw & t' & Sd' & L' & Hi & Hr' & G)].
      { intros x Hx. apply Hsep. destruct b; set_solver. }
      { by left. }
      right. split; [done|]. destruct G as [Gr Ga Gi Gs Gv Gf].
      assert (forall x, x ∈ {[c]} ∪ Sl ∪ Sr -> x ∉ (if b then Sr else Sl) ->
                        heap t' !! x = heap t !! x) as Hfr.
      { intros x Hx Hx'. apply Gf; [done|by apply Hsep]. }
      assert (forall x, x ∈ Sd' -> x ∈ {[c]} ∪ Sl ∪ Sr -> x ∈ (if b then Sr else Sl))
        as Hin.
      { intros x Hx Hx'. destruct (Gi x Hx) as [?|Hav]; [done|].
        by apply Hsep in Hav. }
      exists t', ({[c]} ∪ (if b then Sl else Sd') ∪ (if b then Sd' else Sr)), L'.
      split; [done|]. split.
      * assert (heap t' !! c = Some n) as Hc'.
        { rewrite Hfr; [done|set_solver|destruct b; set_solver]. }
        destruct b; simpl in *.
        -- exists c, n, Sl, Sd'. rewrite Ed. split; [done|]. split; [done|].
           split; [done|]. split; [done|]. split.
           { eapply repr_frame; [exact Hl|]. intros x Hx. apply Hfr; set_solver. }
           split; [done|]. split; [done|]. split; [|split; [|done]].
           ++ intros Hx. apply Hin in Hx; set_solver.
           ++ intros x Hx1 Hx2. apply Hin in Hx2; set_solver.
        -- exists c, n, Sd', Sr. rewrite Ed. split; [done|]. split; [done|].
           split; [done|]. split; [done|]. split; [done|]. split.
           { eapply repr_frame; [exact Hr|]. intros x Hx. apply Hfr; set_solver. }
           split; [|split; [done|split; [|done]]].
           ++ intros Hx. apply Hin in Hx; set_solver.
           ++ intros x Hx1 Hx2. apply Hin in Hx1; set_solver.
      * split; try done.
        -- intros x Hx. destruct (decide (x ∈ Sd')) as [Hd'|Hd'].
           ++ destruct (Gi x Hd') as [?|?]; [left; destruct b; set_solver|by right].
           ++ left. destruct b; set_solver.
        -- intros x Hx. destruct (decide (x ∈ Sd')) as [Hd'|Hd']; [by apply Gs|].
           intros Hav. apply Gv in Hav. revert Hav. apply Hsep.
           destruct b; set_solver.
        -- intros x Hx. apply Gf. destruct b; set_solver.
    + (* no child: build the rest of the path *)
      apply repr_None in Hch as [Hleaf HS].
      rewrite (insert_at_nochild _ _ _ _ _ _ _ Hc Ed). right. split.
      { right. simpl. destruct b; rewrite Hleaf; by rewrite tsub_Leaf. }
      destruct (attach_spec bs val t c n b L Hok Hc Hnc)
        as (t' & q & Sq & L' & Hb & Hc' & Hq & HcSq & HSq & [Gr Ga Gi Gs Gv Gf]).
      assert (forall x, x ∈ {[c]} ∪ Sl ∪ Sr -> x <> c ->
                        heap t' !! x = heap t !! x) as Hfr.
      { intros x Hx Hx'. apply Gf; [set_solver|by apply Hsep]. }
      assert (forall x, x ∈ Sq -> x ∉ {[c]} ∪ Sl ∪ Sr) as Hin.
      { intros x Hx Hx'. apply HSq in Hx. by apply Hsep in Hx'. }
      exists t', ({[c]} ∪ (if b then Sl else Sq) ∪ (if b then Sq else Sr)), L'.
      split; [done|]. split.
      * destruct b; simpl in *; subst.
        -- exists c, (set_right n (Some q)), Sl, Sq.
           split; [done|]. split; [done|]. split; [done|]. split; [done|].
           split.
           { eapply repr_frame; [exact Hl|]. intros x Hx. apply Hfr; set_solver. }
           split; [done|]. split; [done|]. split; [done|]. split; [|done].
           intros x Hx1 Hx2. apply Hin in Hx2. set_solver.
        -- exists c, (set_left n (Some q)), Sq, Sr.
           split; [done|]. split; [done|]. split; [done|]. split; [done|].
           split; [done|]. split.
           { eapply repr_frame; [exact Hr|]. intros x Hx. apply Hfr; set_solver. }
           split; [done|]. split; [done|]. split; [|done].
           intros x Hx1 Hx2. apply Hin in Hx1. set_solver.
      * split; try done.
        -- intros x Hx. destruct (decide (x ∈ Sq)) as [Hd'|Hd'].
           ++ right. by apply HSq.
           ++ left. destruct b; set_solver.
        -- intros x Hx. destruct (decide (x ∈ {[c]} ∪ Sq)) as [Hd'|Hd'];
             [by apply Gs|].
           intros Hav. apply Gv in Hav. revert Hav. apply Hsep.
           destruct b; set_solver.
        -- intros x Hx. apply Gf. set_solver.
Qed.

(** [insert] on a well-formed tree: the conflict leaves the state as it
    is; otherwise the tree becomes [tinsert T bs val]. *)
Lemma insert_p_WF t T S L bs val ow :
  WF t T S L ->
  (ow = false /\ tvalue (tsub T bs) <> Nil
   /\ insert_p t bs val ow = Done (Some ErrNodeBusy, t))
  \/ ((ow = true \/ tvalue (tsub T bs) = Nil)
      /\ exists t' S' L',
           insert_p t bs val ow = Done (None, t')
           /\ WF t' (tinsert T bs val) S' L'
           /\ grows t t' L L' S S').
Proof.
  intros [Hrepr Hroot Hok Hsep]. unfold insert_p.
  destruct (root t) as [c|] eqn:Er; [|done].
  destruct (insert_at_spec bs t c None T S L val ow Hrepr Hok)
    as [?|(Hw & t' & S' & L' & Hi & Hr' & G)]; [|by left|].
  { intros x Hx [H|H]; apply Hsep in Hx as [? ?]; [done|lia]. }
  right. split; [done|]. exists t', S', L'. split; [done|]. split; [|done].
  destruct G as [Gr Ga Gi Gs Gv Gf]. split.
  - by rewrite Gr, Er.
  - by rewrite Gr, Er.
  - done.
  - intros a Ha. apply Gs in Ha. unfold avail in Ha.
    split; [tauto|]. destruct (decide (a < bound t')); [done|]. exfalso.
    apply Ha. right. lia.
Qed.

End InsertLemmas.

(** * delete keeps the tree well formed *)

Section DeleteLemmas.
Context {V : Type}.
Local Abbreviation node := (node (V:=V)).
Local Abbreviation Tree := (Tree (V:=V)).
Local Abbreviation trie := (trie (V:=V)).
Implicit Types (h : list node) (t : Tree) (T Td To Tc : trie)
  (S Sd So Sc : gset nat)
  (L R : list nat) (p : ptr) (n : node) (a x c q par : nat) (b : bool)
  (bs : list bool) (val v : any V).

Local Open Scope nat_scope.

Lemma delete_trim_S fuel t nd :
  delete_trim (S fuel) t nd
  = (r <- unlink t nd ;; check_up fuel (fst r) (snd r)).
Proof.
  simpl. unfold unlink.
  destruct (load (heap t) nd) as [n| |]; simpl; [|done..].
  destruct (load (heap t) (parent n)) as [pn| |]; simpl; [|done..].
  destruct (if ptr_eqb (right pn) nd then _ else _) as [h1| |]; simpl; [|done..].
  destruct (modify h1 nd _) as [h2| |]; simpl; [|done..].
  destruct (load h2 nd) as [n2| |]; simpl; [|done..].
  done.
Qed.

Local Arguments delete_trim : simpl never.

Lemma ptr_eqb_eq (p q : ptr) : ptr_eqb p q = true <-> p = q.
Proof.
  destruct p as [a|], q as [b|]; simpl; try (split; congruence).
  rewrite Nat.eqb_eq. split; congruence.
Qed.

Lemma unlink_spec t c nc par pn b :
  heap t !! c = Some nc -> parent nc = Some par ->
  heap t !! par = Some pn -> child pn b = Some c ->
  child pn (negb b) <> Some c -> c <> par ->
  unlink t (Some c)
  = Done (with_free
            (with_heap t (<[c := set_right nc (free t)]>
                            (<[par := set_child pn b None]> (heap t))))
            (Some c),
          Some par).
Proof.
  intros Hc Hp Hpar Hch Hoth Hne. unfold unlink.
  rewrite (load_Some _ _ _ Hc). simpl bind. rewrite Hp.
  rewrite (load_Some _ _ _ Hpar). simpl bind.
  assert ((if ptr_eqb (right pn) (Some c)
           then modify (heap t) (Some par) (fun n => set_right n None)
           else modify (heap t) (Some par) (fun n => set_left n None))
          = Done (<[par := set_child pn b None]> (heap t))) as ->.
  { destruct b; simpl in *.
    - rewrite Hch. simpl. rewrite Nat.eqb_refl.
      by apply (modify_Some _ _ _ (fun n => set_right n None)).
    - destruct (ptr_eqb (right pn) (Some c)) eqn:E.
      + by apply ptr_eqb_eq in E.
      + by apply (modify_Some _ _ _ (fun n => set_left n None)). }
  simpl bind. rewrite (modify_Some _ c nc) by (by rewrite lookup_update_ne).
  simpl bind. simpl heap. rewrite (load_Some _ c (set_right nc (free t))).
  2:{ eapply lookup_update_eq. by rewrite lookup_update_ne. }
  simpl. by rewrite Hp.
Qed.

Lemma walk_None h bs : walk h None bs = None.
Proof. by destruct bs. Qed.

Lemma repr_is_leaf h T p (pp : ptr) S :
  repr h T p pp S -> is_leaf T = is_null p.
Proof.
  destruct p as [a|]; intros H.
  - by apply repr_Some in H as (? & ? & ? & ? & ? & -> & _).
  - by apply repr_None in H as [-> _].
Qed.

Lemma repr_root_in h T a (pp : ptr) S : repr h T (Some a) pp S -> a ∈ S.
Proof.
  intros H. apply repr_Some in H as (? & ? & ? & ? & ? & _ & _ & _ & _ & _ & _ & _ & _ & ->).
  set_solver.
Qed.

(** A node seen from the side [b] of the path. *)
Lemma repr_side b h T c (pp : ptr) S :
  repr h T (Some c) pp S ->
  exists nc Td To Sd So,
    T = tnode b Td (value nc) To
    /\ h !! c = Some nc /\ parent nc = pp
    /\ repr h Td (child nc b) (Some c) Sd
    /\ repr h To (child nc (negb b)) (Some c) So
    /\ (c ∉ Sd) /\ (c ∉ So) /\ (Sd ## So) /\ S = {[c]} ∪ Sd ∪ So.
Proof.
  intros H. apply repr_Some in H
    as (l & r & n & Sl & Sr & -> & Hc & Hp & Hl & Hr & Hcl & Hcr & Hd & ->).
  destruct b.
  - exists n, r, l, Sr, Sl. repeat split; try done. set_solver.
  - exists n, l, r, Sl, Sr. repeat split; done.
Qed.

Lemma repr_tnode b h c nc (pp : ptr) Td To (Sd So : gset nat) :
  h !! c = Some nc -> parent nc = pp ->
  repr h Td (child nc b) (Some c) Sd ->
  repr h To (child nc (negb b)) (Some c) So ->
  c ∉ Sd -> c ∉ So -> Sd ## So ->
  repr h (tnode b Td (value nc) To) (Some c) pp ({[c]} ∪ Sd ∪ So).
Proof.
  intros Hc Hp Hd Ho H1 H2 H3. destruct b; simpl in *.
  - exists c, nc, So, Sd. repeat split; try done. set_solver.
  - exists c, nc, Sd, So. repeat split; done.
Qed.

Lemma tprune_tnode b Td v To bs :
  tprune (tnode b Td v To) (b :: bs)
  = if is_leaf (tprune Td bs) && is_leaf To && is_nil v then Leaf
    else tnode b (tprune Td bs) v To.
Proof.
  destruct b; simpl; [|done].
  by rewrite (andb_comm (is_leaf To)).
Qed.

Lemma tnode_not_leaf b Td v To : tnode b Td v To <> Leaf.
Proof. by destruct b. Qed.

Lemma child_set_child n b p : child (set_child n b p) b = p.
Proof. by destruct b. Qed.

Lemma child_set_child_other n b p :
  child (set_child n b p) (negb b) = child n (negb b).
Proof. by destruct b. Qed.

Lemma value_set_child n b p : value (set_child n b p) = value n.
Proof. by destruct b. Qed.

Lemma parent_set_child n b p : parent (set_child n b p) = parent n.
Proof. by destruct b. Qed.

Lemma right_left_child n b :
  negb (is_null (right n)) || negb (is_null (left n))
  = negb (is_null (child n b)) || negb (is_null (child n (negb b))).
Proof. destruct b; simpl; [done|apply orb_comm]. Qed.

(** The trimming loop, started at the node [a] that [bs] leads to from the
    node [c] below [par].  Either it stops inside the tree of [c], which
    becomes [tprune Tc bs]; or it recycles [c] itself, after which [par] has
    lost this child and the loop tests [par]. *)
Lemma trim_sub bs : forall t c par b0 pn Tc Sc L a f,
  repr (heap t) Tc (Some c) (Some par) Sc ->
  walk (heap t) (Some c) bs = Some a ->
  heap t !! par = Some pn -> child pn b0 = Some c ->
  child pn (negb b0) <> Some c ->
  par ∉ Sc ->
  flist (heap t) (free t) L -> (forall x, x ∈ Sc -> x ∉ L) -> par ∉ L ->
  (tprune Tc bs <> Leaf /\ exists t' Sc' R,
      delete_trim (length bs + 1 + f) t (Some a) = Done t'
      /\ repr (heap t') (tprune Tc bs) (Some c) (Some par) Sc'
      /\ heap t' !! par = Some pn
      /\ shrinks t t' L R Sc Sc' par)
  \/ (tprune Tc bs = Leaf /\ exists t' R,
      delete_trim (length bs + 1 + f) t (Some a) = check_up f t' (Some par)
      /\ heap t' !! par = Some (set_child pn b0 None)
      /\ shrinks t t' L R Sc ∅ par).
Proof.
  induction bs as [|b bs IH];
    intros t c par b0 pn Tc Sc L a f Hrepr Hwalk Hpar Hch Hoth HparS Hfl Hsep HparL.
  - (* the node to unlink is [c] *)
    simpl in Hwalk. injection Hwalk as <-. right. split; [done|].
    pose proof (repr_root_in _ _ _ _ _ Hrepr) as HcS.
    assert (c <> par) as Hne by (intros ->; done).
    apply repr_Some in Hrepr as (l & r & nc & Sl & Sr & -> & Hc & Hp & _).
    change (length [] + 1 + f) with (S f). rewrite delete_trim_S.
    rewrite (unlink_spec _ _ _ _ _ _ Hc Hp Hpar Hch Hoth Hne). simpl bind.
    eexists _, [c]. split; [done|]. simpl. split.
    { rewrite lookup_update_ne by done. by eapply lookup_update_eq. }
    split; simpl; try done.
    + by rewrite !length_insert.
    + split; [done|]. exists (set_right nc (free t)). split.
      * eapply lookup_update_eq. by rewrite lookup_update_ne.
      * simpl. eapply flist_frame; [done|]. intros x Hx.
        rewrite !lookup_update_ne; [done|by intros ->|].
        intros ->. by apply (Hsep c).
    + apply NoDup_singleton.
    + intros x Hx. apply list_elem_of_singleton in Hx as ->. done.
    + intros x Hx HxS. rewrite !lookup_update_ne; [done|done|].
      by intros ->.
  - (* the path goes on below [c] *)
    pose proof (repr_root_in _ _ _ _ _ Hrepr) as HcS.
    assert (c <> par) as Hne by (intros ->; done).
    apply (repr_side b) in Hrepr
      as (nc & Td & To & Sd & So & -> & Hc & Hp & Hd & Ho & HcSd & HcSo & Hdis & ->).
    simpl in Hwalk. rewrite Hc in Hwalk.
    destruct (child nc b) as [d|] eqn:Ed; [|by rewrite walk_None in Hwalk].
    pose proof (repr_root_in _ _ _ _ _ Hd) as HdS.
    assert (child nc (negb b) <> Some d) as Hoth'.
    { intros E. rewrite E in Ho. apply repr_root_in in Ho. set_solver. }
    rewrite tprune_tnode.
    replace (length (b :: bs) + 1 + f) with (length bs + 1 + S f)
      by (simpl; lia).
    destruct (IH t d c b nc Td Sd L a (S f) Hd Hwalk Hc Ed Hoth' HcSd Hfl)
      as [(Hnl & t' & Sd' & R & Htrim & Hrepr' & Hc' & Sh)
         |(Hl & t' & R & Htrim & Hc' & Sh)].
    { intros x Hx. apply Hsep. set_solver. }
    { apply Hsep. set_solver. }
    + (* the loop stopped below [c] *)
      left. destruct (tprune Td bs) as [|l' v' r'] eqn:Etp; [done|].
      simpl is_leaf. simpl andb. cbv iota.
      split; [apply tnode_not_leaf|].
      destruct Sh as [S1 S2 S3 S4 S5 S6 S7 S8 S9 S10 S11].
      exists t', ({[c]} ∪ Sd' ∪ So), R. split; [done|]. split.
      { apply repr_tnode; try done.
        - by rewrite Ed.
        - eapply repr_frame; [exact Ho|]. intros x Hx. apply S11; set_solver.
        - intros Hx. apply S10 in Hx. set_solver.
        - intros x Hx1 Hx2. apply S10 in Hx1. set_solver. }
      split.
      { rewrite S11; [done|set_solver|done]. }
      split; try done.
      * intros x Hx. apply S9 in Hx. set_solver.
      * intros x Hx. split; [|].
        -- destruct (decide (x ∈ Sd')) as [H'|H']; [apply S10 in H'|]; set_solver.
        -- intros HxR. pose proof (S9 _ HxR) as HxSd.
           destruct (decide (x ∈ Sd')) as [H'|H']; [by apply S10 in H' as [_ ?]|].
           set_solver.
      * intros x Hx Hxp. apply S11; [set_solver|]. set_solver.
    + (* [d] was recycled: the loop tests [c] *)
      rewrite Hl. simpl is_leaf. simpl andb.
      destruct Sh as [S1 S2 S3 S4 S5 S6 S7 S8 S9 S10 S11].
      assert (heap t' !! par = Some pn) as Hpar'.
      { rewrite S11; [done|set_solver|done]. }
      assert (repr (heap t') To (child nc (negb b)) (Some c) So) as Ho'.
      { eapply repr_frame; [exact Ho|]. intros x Hx. apply S11; set_solver. }
      rewrite Htrim. unfold check_up. rewrite (load_Some _ _ _ Hc'). simpl bind.
      rewrite (right_left_child _ b), child_set_child, child_set_child_other,
        value_set_child, parent_set_child, Hp.
      simpl is_null. simpl negb. simpl orb.
      rewrite <- (repr_is_leaf _ _ _ _ _ Ho).
      destruct (is_leaf To && is_nil (value nc)) eqn:Etest.
      * (* [c] has nothing left: it is recycled too *)
        right. split; [done|].
        apply andb_true_iff in Etest as [E1 E2]. rewrite E1, E2. simpl.
        rewrite delete_trim_S.
        rewrite (unlink_spec t' c _ par pn b0 Hc'); try done.
        2:{ by rewrite parent_set_child. }
        simpl bind. eexists _, (c :: R). split; [done|]. simpl. split.
        { rewrite lookup_update_ne by done. by eapply lookup_update_eq. }
        split; simpl; try done.
        -- by rewrite !length_insert.
        -- split; [done|]. eexists. split.
           ++ eapply lookup_update_eq. by rewrite lookup_update_ne.
           ++ simpl. eapply flist_frame; [done|]. intros x Hx.
              rewrite !lookup_update_ne; [done| |].
              ** intros ->. apply elem_of_app in Hx as [Hx|Hx].
                 --- apply S9 in Hx. set_solver.
                 --- done.
              ** intros ->. apply elem_of_app in Hx as [Hx|Hx].
                 --- apply S9 in Hx. set_solver.
                 --- apply (Hsep c); [set_solver|done].
        -- apply NoDup_cons. split; [|done]. intros Hx. apply S9 in Hx. set_solver.
        -- intros x Hx. apply elem_of_cons in Hx as [->|Hx]; [set_solver|].
           apply S9 in Hx. set_solver.
        -- intros x Hx HxS. rewrite !lookup_update_ne; [|done|set_solver].
           apply S11; set_solver.
      * (* [c] stays *)
        left. split; [apply tnode_not_leaf|].
        assert (negb (is_leaf To) || negb (is_nil (value nc)) = true) as ->.
        { apply andb_false_iff in Etest as [->| ->]; [done|apply orb_true_r]. }
        exists t', ({[c]} ∪ ∅ ∪ So), R. split; [done|]. split.
        { rewrite <- (value_set_child nc b None).
          apply repr_tnode; try done.
          - by rewrite parent_set_child.
          - by rewrite child_set_child.
          - by rewrite child_set_child_other. }
        split; [done|]. split; try done.
        -- intros x Hx. apply S9 in Hx. set_solver.
        -- intros x Hx. split; [set_solver|]. intros HxR. apply S9 in HxR.
           set_solver.
        -- intros x Hx Hxp. apply S11; set_solver.
Qed.

Lemma tcut_tnode b Td v To bs :
  tcut (tnode b Td v To) (b :: bs) = tnode b (tprune Td bs) v To.
Proof. by destruct b. Qed.

(** The trimming loop on a well-formed tree, from a node below the root. *)
Lemma trim_root t T S L b bs a f :
  WF t T S L ->
  walk (heap t) (root t) (b :: bs) = Some a ->
  exists t' S' R,
    delete_trim (length (b :: bs) + f) t (Some a) = Done t'
    /\ WF t' (tcut T (b :: bs)) S' (R ++ L)
    /\ root t' = root t
    /\ R <> [] /\ (forall x, x ∈ R -> x ∈ S /\ (x ∉ S')).
Proof.
  intros [Hrepr Hroot [Hfl Hnd Hbd Hlen Hcap Hzero] Hsep] Hwalk.
  destruct (root t) as [r|] eqn:Er; [|done].
  pose proof (repr_root_in _ _ _ _ _ Hrepr) as HrS.
  apply (repr_side b) in Hrepr
    as (nr & Td & To & Sd & So & -> & Hr & Hp & Hd & Ho & HrSd & HrSo & Hdis & ->).
  simpl in Hwalk. rewrite Hr in Hwalk.
  destruct (child nr b) as [d|] eqn:Ed; [|by rewrite walk_None in Hwalk].
  pose proof (repr_root_in _ _ _ _ _ Hd) as HdS.
  assert (child nr (negb b) <> Some d) as Hoth.
  { intros E. rewrite E in Ho. apply repr_root_in in Ho. set_solver. }
  rewrite tcut_tnode.
  replace (length (b :: bs) + f) with (length bs + 1 + f) by (simpl; lia).
  assert (exists t' Sd' R,
    delete_trim (length bs + 1 + f) t (Some a) = Done t'
    /\ repr (heap t') (tnode b (tprune Td bs) (value nr) To) (Some r) None
             ({[r]} ∪ Sd' ∪ So)
    /\ shrinks t t' L R Sd Sd' r) as (t' & Sd' & R & Htrim & Hrepr' & Sh).
  { destruct (trim_sub bs t d r b nr Td Sd L a f Hd Hwalk Hr Ed Hoth HrSd Hfl)
      as [(Hnl & t' & Sd' & R & Htrim & Hrepr' & Hr' & Sh)
         |(Hl & t' & R & Htrim & Hr' & Sh)].
    { intros x Hx. apply Hsep. set_solver. }
    { apply Hsep. set_solver. }
    - exists t', Sd', R. split; [done|]. split; [|done].
      destruct Sh as [S1 S2 S3 S4 S5 S6 S7 S8 S9 S10 S11].
      apply repr_tnode; try done.
      + by rewrite Ed.
      + eapply repr_frame; [exact Ho|]. intros x Hx. apply S11; set_solver.
      + intros Hx. apply S10 in Hx. set_solver.
      + intros x Hx1 Hx2. apply S10 in Hx1. set_solver.
    - exists t', ∅, R. split; [|split; [|done]].
      + rewrite Htrim. unfold check_up. rewrite (load_Some _ _ _ Hr').
        simpl bind. rewrite parent_set_child, Hp. simpl is_null.
        by destruct (_ || _).
      + destruct Sh as [S1 S2 S3 S4 S5 S6 S7 S8 S9 S10 S11].
        rewrite Hl. rewrite <- (value_set_child nr b None).
        apply repr_tnode; try done.
        * by rewrite parent_set_child.
        * by rewrite child_set_child.
        * rewrite child_set_child_other.
          eapply repr_frame; [exact Ho|]. intros x Hx. apply S11; set_solver. }
  destruct Sh as [S1 S2 S3 S4 S5 S6 S7 S8 S9 S10 S11].
  assert (bound t' = bound t) as Eb by (unfold bound; congruence).
  exists t', ({[r]} ∪ Sd' ∪ So), R. split; [done|].
  split; [|split; [congruence|split; [done|]]].
  - split.
    + by rewrite S1, Er.
    + by rewrite S1, Er.
    + split.
      * done.
      * apply NoDup_app. split; [done|]. split; [|done].
        intros x Hx. apply S9 in Hx. apply Hsep. set_solver.
      * intros x Hx. rewrite Eb. apply elem_of_app in Hx as [Hx|Hx]; [|by apply Hbd].
        apply S9 in Hx. apply Hsep. set_solver.
      * congruence.
      * congruence.
      * intros x H1 H2. rewrite Eb in H1. rewrite S5 in H2.
        rewrite S11; [by apply Hzero| |].
        -- intros Hx. assert (x < bound t); [apply Hsep; set_solver|lia].
        -- intros ->. assert (r < bound t); [apply Hsep; set_solver|lia].
    + intros x Hx. rewrite Eb.
      assert (x ∈ {[r]} ∪ Sd ∪ So /\ (x ∉ R)) as [HxS HxR].
      { destruct (decide (x ∈ Sd')) as [H'|H'].
        - apply S10 in H' as [? ?]. split; [set_solver|done].
        - split; [set_solver|]. intros HxR. apply S9 in HxR. set_solver. }
      destruct (Hsep x HxS) as [? ?]. split; [|done].
      intros H'. apply elem_of_app in H' as [?|?]; done.
  - intros x Hx. pose proof (S9 _ Hx) as HxSd. split; [set_solver|].
    intros H'. destruct (decide (x ∈ Sd')) as [H''|H''].
    + by apply S10 in H'' as [_ ?].
    + set_solver.
Qed.

(** Writing the value slot of the node at the end of a path. *)
Lemma set_value_repr bs : forall h T p (pp : ptr) S a n val,
  repr h T p pp S ->
  walk h p bs = Some a -> h !! a = Some n ->
  repr (<[a := set_value n val]> h) (tinsert T bs val) p pp S.
Proof.
  induction bs as [|b bs IH]; intros h T p pp S a n val Hrepr Hwalk Ha.
  - simpl in Hwalk. subst p.
    apply repr_Some in Hrepr
      as (l & r & n' & Sl & Sr & -> & Ha' & Hp & Hl & Hr & Hal & Har & Hd & ->).
    assert (n' = n) as -> by congruence. simpl.
    exists a, (set_value n val), Sl, Sr. split; [done|].
    split; [by eapply lookup_update_eq|].
    repeat split; try done; by apply repr_update.
  - destruct p as [c|]; [|by rewrite walk_None in Hwalk].
    apply repr_Some in Hrepr
      as (l & r & nc & Sl & Sr & -> & Hc & Hp & Hl & Hr & Hcl & Hcr & Hd & ->).
    simpl in Hwalk. rewrite Hc in Hwalk.
    pose proof (repr_child _ _ b _ _ _ _ _ Hl Hr) as Hch.
    destruct (walk_repr _ _ _ _ _ bs Hch) as (pp' & S' & Hsub & Hincl).
    rewrite Hwalk in Hsub. apply repr_root_in in Hsub.
    assert (a <> c) as Hne by (intros ->; destruct b; set_solver).
    pose proof (IH _ _ _ _ _ _ _ val Hch Hwalk Ha) as IH'.
    destruct b; simpl in *.
    + exists c, nc, Sl, Sr. split; [done|].
      split; [by rewrite lookup_update_ne|].
      repeat split; try done. apply repr_update; [done|]. set_solver.
    + exists c, nc, Sl, Sr. split; [done|].
      split; [by rewrite lookup_update_ne|].
      repeat split; try done. apply repr_update; [done|]. set_solver.
Qed.

Lemma set_value_WF t T S L bs a n val :
  WF t T S L ->
  walk (heap t) (root t) bs = Some a -> heap t !! a = Some n ->
  WF (with_heap t (<[a := set_value n val]> (heap t))) (tinsert T bs val) S L.
Proof.
  intros [Hrepr Hroot Hok Hsep] Hwalk Ha.
  destruct (walk_repr _ _ _ _ _ bs Hrepr) as (pp' & S' & Hsub & Hincl).
  rewrite Hwalk in Hsub. apply repr_root_in in Hsub.
  destruct (Hsep a) as [HaL Hab]; [set_solver|].
  split; simpl; try done.
  - by eapply set_value_repr.
  - eapply alloc_ok_frame; [exact Hok|done..|simpl; apply length_insert|].
    intros x [Hx|Hx]; simpl; apply lookup_update_ne; [by intros ->|lia].
Qed.

End DeleteLemmas.

(** * The operations on well-formed trees *)

Section OpLemmas.
Context {V : Type}.
Local Abbreviation node := (node (V:=V)).
Local Abbreviation Tree := (Tree (V:=V)).
Local Abbreviation trie := (trie (V:=V)).
Implicit Types (h : list node) (t : Tree) (T Td To Tc : trie)
  (S Sd So Sc : gset nat)
  (L R : list nat) (p : ptr) (n : node) (a x c q par : nat) (b : bool)
  (bs : list bool) (val v : any V) (key mask : list Z).

Local Open Scope nat_scope.

Local Arguments delete_trim : simpl never.
Local Arguments loop_fuel : simpl never.

Lemma prefix_length key mask : length (key_prefix key mask) <= 8 * length key.
Proof.
  unfold key_prefix. rewrite <- bits_length. apply prefix_bits_length.
Qed.

Lemma length_mismatch key mask :
  length key <> length mask ->
  negb (Nat.eqb (length key) (length mask)) = true.
Proof. intros H. apply negb_true_iff. by apply Nat.eqb_neq. Qed.

Lemma length_match key mask :
  length key = length mask ->
  negb (Nat.eqb (length key) (length mask)) = false.
Proof. intros H. apply negb_false_iff. by apply Nat.eqb_eq. Qed.

(** ** NewTree *)

Lemma NewTree_eq preallocate : NewTree (V:=V) preallocate = Done first_tree.
Proof. unfold NewTree. by destruct (preallocate =? 0)%Z. Qed.

Lemma first_tree_WF :
  WF (V:=V) first_tree (Br Leaf Nil Leaf) ({[0]} ∪ ∅ ∪ ∅) [].
Proof.
  assert (forall a, a < 200 ->
            replicate 200 (zero_node (V:=V)) !! a = Some zero_node) as Hz.
  { intros a Ha. apply lookup_replicate. split; [done|lia]. }
  split.
  - exists 0, zero_node, ∅, ∅. unfold first_tree. cbn [heap root].
    rewrite Hz by lia. repeat split; try done; set_solver.
  - done.
  - split; unfold bound, first_tree;
      cbn [heap free alloc_off alloc_len alloc_cap].
    + done.
    + apply NoDup_nil_2.
    + intros a Ha. set_solver.
    + by rewrite length_replicate.
    + lia.
    + intros a H1 H2. rewrite length_replicate in H2. by apply Hz.
  - intros a Ha. assert (a = 0) as -> by set_solver. split; [set_solver|].
    unfold bound, first_tree. cbn [alloc_off alloc_len]. lia.
Qed.

(** ** insert *)

Lemma insert_WF t T S L key mask val ow :
  WF t T S L -> length key = length mask -> key <> [] ->
  let P := key_prefix key mask in
  (ow = false /\ tvalue (tsub T P) <> Nil
   /\ insert t key mask val ow = Done (Some ErrNodeBusy, t))
  \/ ((ow = true \/ tvalue (tsub T P) = Nil)
      /\ exists t' S' L',
           insert t key mask val ow = Done (None, t')
           /\ WF t' (tinsert T P val) S' L'
           /\ grows t t' L L' S S').
Proof.
  intros HWF Hlen Hkey P.
  rewrite (insert_insert_p _ _ _ _ _ Hlen Hkey (wf_root _ _ _ _ HWF)).
  by apply insert_p_WF.
Qed.

Lemma insert_empty_key t val ow : insert t [] [] val ow = Panic.
Proof. done. Qed.

(** ** delete *)

Lemma delete_empty_key t wr : root t <> None -> delete t [] [] wr = Panic.
Proof. intros H. unfold delete. simpl. by destruct (root t). Qed.

Lemma delete_WF t T S L key mask wr :
  WF t T S L -> length key = length mask -> key <> [] ->
  let P := key_prefix key mask in
  match tsub T P with
  | Leaf => delete t key mask wr = Done (Some ErrNotFound, t)
  | Br l v r =>
      if negb wr && (negb (is_leaf r) || negb (is_leaf l)) then
        if is_nil v then delete t key mask wr = Done (Some ErrNotFound, t)
        else
          exists t',
            delete t key mask wr = Done (None, t')
            /\ WF t' (tinsert T P Nil) S L
            /\ root t' = root t /\ free t' = free t
      else
        match P with
        | [] => delete t key mask wr = Panic
        | _ :: _ =>
            exists t' S' R,
              delete t key mask wr = Done (None, t')
              /\ WF t' (tcut T P) S' (R ++ L)
              /\ root t' = root t
              /\ R <> [] /\ (forall x, x ∈ R -> x ∈ S /\ (x ∉ S'))
        end
  end.
Proof.
  intros HWF Hlen Hkey P. unfold delete.
  rewrite (length_match _ _ Hlen). cbv iota.
  rewrite (delete_descend_prefix _ _ _ Hlen Hkey). fold P.
  pose proof (wf_repr _ _ _ _ HWF) as Hrepr.
  rewrite (walk_o_repr _ _ _ _ _ P Hrepr). simpl bind.
  destruct (walk_repr _ _ _ _ _ P Hrepr) as (pp & S' & Hsub & Hincl).
  destruct (walk (heap t) (root t) P) as [a|] eqn:Hwalk.
  2:{ apply repr_None in Hsub as [-> _]. done. }
  apply repr_Some in Hsub
    as (l & r & n & Sl & Sr & -> & Ha & Hp & Hl & Hr & _).
  simpl is_null. cbv iota. rewrite (load_Some _ _ _ Ha). simpl bind.
  rewrite (repr_is_leaf _ _ _ _ _ Hl), (repr_is_leaf _ _ _ _ _ Hr).
  destruct (negb wr && _) eqn:Etest.
  - destruct (is_nil (value n)) eqn:Ev; simpl negb; cbv iota; [done|].
    rewrite (modify_Some _ _ _ _ Ha). simpl bind.
    eexists. split; [done|]. split; [|done]. by apply set_value_WF.
  - destruct P as [|b bs] eqn:EP.
    + (* the node is the root: [node.parent] is nil *)
      simpl in Hwalk. unfold loop_fuel. rewrite delete_trim_S. unfold unlink.
      rewrite (load_Some _ _ _ Ha). simpl bind.
      rewrite Hwalk in Hrepr.
      apply repr_Some in Hrepr as (? & ? & n' & ? & ? & _ & Ha' & Hp' & _).
      assert (n' = n) as -> by congruence. by rewrite Hp'.
    + pose proof (prefix_length key mask) as Hle. fold P in Hle. rewrite EP in Hle.
      destruct (trim_root t T S L b bs a
                  (loop_fuel key - length (b :: bs)) HWF Hwalk)
        as (t' & S'' & R & Htrim & HWF' & Hroot' & HR & HRS).
      replace (length (b :: bs) + (loop_fuel key - length (b :: bs)))
        with (loop_fuel key) in Htrim by (unfold loop_fuel; lia).
      rewrite Htrim. simpl bind. by exists t', S'', R.
Qed.

(** ** find *)

Lemma find_WF t T S L key mask :
  WF t T S L -> length key = length mask -> key <> [] ->
  find t key mask
  = Done (tfind T (key_prefix key mask) (full_mask key mask) Nil).
Proof.
  intros HWF Hlen Hkey. rewrite (find_find_p _ _ _ Hlen Hkey).
  eapply find_p_repr, wf_repr, HWF.
Qed.

Lemma find_mismatch t key mask :
  length key <> length mask -> find t key mask = Done (Err ErrBadIP).
Proof. intros H. unfold find. by rewrite (length_mismatch _ _ H). Qed.

(** ** Every state that the operations produce is well formed *)

Lemma reachable_well_formed t : reachable t -> well_formed t.
Proof.
  induction 1 as [p t Hnew|t key mask val ow e t' _ IH Hins
                 |t key mask wr e t' _ IH Hdel].
  - rewrite NewTree_eq in Hnew. injection Hnew as <-.
    eexists _, _, _. apply first_tree_WF.
  - destruct IH as (T & S & L & HWF).
    destruct (decide (length key = length mask)) as [Hlen|Hlen].
    2:{ unfold insert in Hins. rewrite (length_mismatch _ _ Hlen) in Hins.
        injection Hins as <- <-. by exists T, S, L. }
    destruct key as [|k key].
    { destruct mask; [|done]. by rewrite insert_empty_key in Hins. }
    destruct (insert_WF t T S L (k :: key) mask val ow HWF Hlen)
      as [(_ & _ & E)|(_ & t'' & S' & L' & E & HWF' & _)]; [done| |].
    + rewrite E in Hins. injection Hins as <- <-. by exists T, S, L.
    + rewrite E in Hins. injection Hins as <- <-. by eexists _, _, _.
  - destruct IH as (T & S & L & HWF).
    destruct (decide (length key = length mask)) as [Hlen|Hlen].
    2:{ unfold delete in Hdel. rewrite (length_mismatch _ _ Hlen) in Hdel.
        injection Hdel as <- <-. by exists T, S, L. }
    destruct key as [|k key].
    { destruct mask; [|done].
      rewrite delete_empty_key in Hdel; [done|]. apply (wf_root _ _ _ _ HWF). }
    pose proof (delete_WF t T S L (k :: key) mask wr HWF Hlen) as Hd.
    cbv zeta in Hd.
    destruct (tsub T (key_prefix (k :: key) mask)) as [|l v r].
    { rewrite Hd in Hdel by done. injection Hdel as <- <-. by exists T, S, L. }
    destruct (negb wr && _).
    + destruct (is_nil v).
      * rewrite Hd in Hdel by done. injection Hdel as <- <-. by exists T, S, L.
      * destruct Hd as (t'' & E & HWF' & _); [done|].
        rewrite E in Hdel. injection Hdel as <- <-. by eexists _, _, _.
    + destruct (key_prefix (k :: key) mask).
      * rewrite Hd in Hdel by done. done.
      * destruct Hd as (t'' & S' & R & E & HWF' & _); [done|].
        rewrite E in Hdel. injection Hdel as <- <-. by eexists _, _, _.
Qed.

End OpLemmas.

(** * Lookups on the shapes that the operations leave *)

Section ShapeLemmas.
Context {V : Type}.
Local Abbreviation trie := (trie (V:=V)).
Implicit Types (T Td To Tc l r : trie) (b : bool) (bs P Q q : list bool)
  (val v : any V) (full : bool).

Local Open Scope nat_scope.

Lemma is_nil_true v : is_nil v = true <-> v = Nil.
Proof. by destruct v. Qed.

Lemma is_nil_false v : is_nil v = false <-> v <> Nil.
Proof. by destruct v. Qed.

Lemma tsub_not_leaf T bs : tsub T bs <> Leaf -> T <> Leaf.
Proof. intros H ->. by rewrite tsub_Leaf in H. Qed.

Lemma tsub_app T bs1 bs2 : tsub T (bs1 ++ bs2) = tsub (tsub T bs1) bs2.
Proof. revert T. induction bs1 as [|b bs1 IH]; intros T; simpl; auto. Qed.

Lemma trie_side b T :
  T <> Leaf -> exists Td v To, T = tnode b Td v To /\ tchild T b = Td.
Proof.
  destruct T as [|l v r]; [done|]. intros _.
  destruct b; [by exists r, v, l|by exists l, v, r].
Qed.

Lemma tfind_tnode b Td v To q full val :
  tfind (tnode b Td v To) (b :: q) full val
  = (let val := if negb (is_nil v) then v else val in
     if full && Nat.eqb (length q) 0 then
       match Td with Leaf => val | Br _ v' _ => v' end
     else tfind Td q full val).
Proof. by destruct b. Qed.

Lemma tbest_tnode b Td v To q val :
  tbest (tnode b Td v To) (b :: q) val
  = tbest Td q (if negb (is_nil v) then v else val).
Proof. by destruct b. Qed.

Lemma tinsert_tnode b Td v To bs val :
  tinsert (tnode b Td v To) (b :: bs) val = tnode b (tinsert Td bs val) v To.
Proof. by destruct b. Qed.

Lemma tsub_tnode b Td v To bs : tsub (tnode b Td v To) (b :: bs) = tsub Td bs.
Proof. by destruct b. Qed.

(** ** insert *)

Lemma tsub_tinsert_same T bs val : tvalue (tsub (tinsert T bs val) bs) = val.
Proof.
  revert T. induction bs as [|b bs IH]; intros T.
  - by destruct T.
  - destruct T as [|l v r], b; simpl; apply IH.
Qed.

Lemma tsub_tinsert_not_leaf T bs val : tsub (tinsert T bs val) bs <> Leaf.
Proof.
  revert T. induction bs as [|b bs IH]; intros T.
  - by destruct T.
  - destruct T as [|l v r], b; simpl; apply IH.
Qed.

Lemma tsub_tinsert_ne T P val bs :
  bs <> P -> tsub T P <> Leaf ->
  tvalue (tsub (tinsert T P val) bs) = tvalue (tsub T bs).
Proof.
  revert T bs. induction P as [|b P IH]; intros T bs Hne Hsub.
  - destruct T as [|l v r]; [done|]. destruct bs as [|b' bs]; [done|]. done.
  - pose proof (tsub_not_leaf _ _ Hsub) as HT.
    destruct T as [|l v r]; [done|].
    destruct bs as [|b' bs]; [by destruct b|].
    destruct b, b'; simpl in *; try done; apply IH; congruence.
Qed.

(** A node without value put on a path that is shorter than the key does
    not change any lookup. *)
Lemma tfind_tinsert_nil P : forall T q full val,
  tvalue (tsub T P) = Nil ->
  (full = true -> length P < length q) ->
  tfind (tinsert T P Nil) q full val = tfind T q full val.
Proof.
  induction P as [|b P IH]; intros T q full val Hv Hlen.
  - destruct T as [|l v r]; simpl in *.
    + destruct q as [|b' q]; [done|].
      by destruct (full && _), b'.
    + by rewrite Hv.
  - assert (forall b' q', q = b' :: q' -> full && (length q' =? 0) = false)
      as Hspecial.
    { intros b' q' ->. destruct full; [|done]. simpl in *.
      specialize (Hlen eq_refl). apply Nat.eqb_neq. lia. }
    assert (forall Tc q', full = true -> length P < S (length q') -> True)
      as _ by done.
    destruct q as [|b' q].
    { destruct T as [|l v r], b; done. }
    specialize (Hspecial _ _ eq_refl).
    assert (full = true -> length P < length q) as Hlen'.
    { intros H. specialize (Hlen H). simpl in Hlen. lia. }
    destruct T as [|l v r].
    + destruct b, b'; simpl; rewrite Hspecial;
        first [ by destruct q
              | rewrite IH; [by destruct q| by rewrite tsub_Leaf | done] ].
    + destruct b, b'; simpl in *; rewrite Hspecial; try done; by apply IH.
Qed.

(** ** The value at a lower node hides what was remembered above it *)

Lemma tfind_overwritten Q : forall T q full val1 val2,
  Q `prefix_of` q -> tvalue (tsub T Q) <> Nil ->
  tfind T q full val1 = tfind T q full val2.
Proof.
  induction Q as [|b Q IH]; intros T q full val1 val2 [k ->] Hv.
  - destruct T as [|l v r]; [done|]. simpl in Hv.
    apply is_nil_false in Hv. simpl. by rewrite Hv.
  - pose proof (tsub_not_leaf _ (b :: Q) (fun H => Hv (f_equal tvalue H))) as HT.
    destruct (trie_side b T HT) as (Td & v & To & -> & _).
    rewrite tsub_tnode in Hv. simpl app. rewrite !tfind_tnode. cbv zeta.
    destruct (full && _) eqn:E.
    + apply andb_true_iff in E as [_ E]. apply Nat.eqb_eq in E.
      destruct Q; [|done]. simpl in Hv. by destruct Td.
    + apply IH; [by exists k|done].
Qed.

(** Writing the value of [P] does not change the lookups that pass a
    registered prefix below [P]. *)
Lemma tfind_tinsert_under P : forall T Q q full val v',
  tsub T P <> Leaf ->
  P `prefix_of` Q -> Q <> P -> Q `prefix_of` q -> tvalue (tsub T Q) <> Nil ->
  tfind (tinsert T P v') q full val = tfind T q full val.
Proof.
  induction P as [|b P IH]; intros T Q q full val v' Hsub [e ->] Hne [k ->] Hv.
  - destruct T as [|l v r]; [done|]. simpl app in *.
    destruct e as [|b e]; [done|]. simpl in Hv. simpl.
    destruct (full && _) eqn:E.
    + apply andb_true_iff in E as [_ E]. apply Nat.eqb_eq in E.
      destruct e; [|done]. simpl in Hv. by destruct (if b then r else l).
    + apply (tfind_overwritten e); [by exists k|done].
  - pose proof (tsub_not_leaf _ _ Hsub) as HT.
    destruct (trie_side b T HT) as (Td & v & To & -> & _).
    rewrite tsub_tnode in Hsub. simpl app in *. rewrite tsub_tnode in Hv.
    rewrite tinsert_tnode, !tfind_tnode. cbv zeta.
    destruct (full && _) eqn:E.
    + apply andb_true_iff in E as [_ E]. apply Nat.eqb_eq in E.
      rewrite !length_app in E. destruct P, e; simpl in E; try lia.
      by rewrite app_nil_r in Hne.
    + apply (IH _ (P ++ e)); try done.
      * by exists e.
      * intros H. apply Hne. by rewrite H.
      * by exists k.
Qed.

(** No registered prefix on the path: no match. *)
Lemma tfind_all_nil q : forall T full,
  (forall n, n <= length q -> tvalue (tsub T (take n q)) = Nil) ->
  tfind T q full Nil = Nil.
Proof.
  induction q as [|b q IH]; intros T full Hall.
  - destruct T as [|l v r]; [done|]. simpl. specialize (Hall 0 (le_n _)).
    simpl in Hall. by rewrite Hall.
  - destruct T as [|l v r]; [done|].
    pose proof (Hall 0 (Nat.le_0_l _)) as H0. simpl in H0. subst v. simpl.
    destruct (full && _) eqn:E.
    + apply andb_true_iff in E as [_ E]. apply Nat.eqb_eq in E.
      destruct q; [|done]. specialize (Hall 1 (le_n _)). simpl in Hall.
      destruct b; [by destruct r|by destruct l].
    + apply IH. intros n Hn. apply (Hall (S n)). simpl. lia.
Qed.

(** ** find and the longest registered prefix *)

Lemma tfind_tbest bs : forall T full val,
  (full = true -> tvalue (tsub T bs) = Nil -> tsub T bs = Leaf) ->
  tfind T bs full val = tbest T bs val.
Proof.
  induction bs as [|b bs IH]; intros T full val Hq.
  - by destruct T.
  - destruct T as [|l v r]; [done|]. simpl.
    destruct (full && _) eqn:E.
    + apply andb_true_iff in E as [-> E]. apply Nat.eqb_eq in E.
      destruct bs; [|done]. simpl in Hq. specialize (Hq eq_refl).
      destruct b.
      * destruct r as [|? v' ?]; [done|]. simpl in *.
        destruct (is_nil v') eqn:Ev; [|done].
        apply is_nil_true in Ev. by specialize (Hq Ev).
      * destruct l as [|? v' ?]; [done|]. simpl in *.
        destruct (is_nil v') eqn:Ev; [|done].
        apply is_nil_true in Ev. by specialize (Hq Ev).
    + apply IH. by destruct b.
Qed.

Lemma tbest_longest bs : forall T val,
  (exists n, n <= length bs
      /\ tvalue (tsub T (take n bs)) = tbest T bs val
      /\ tbest T bs val <> Nil
      /\ forall m, n < m <= length bs -> tvalue (tsub T (take m bs)) = Nil)
  \/ (tbest T bs val = val
      /\ forall m, m <= length bs -> tvalue (tsub T (take m bs)) = Nil).
Proof.
  induction bs as [|b bs IH]; intros T val.
  - destruct T as [|l v r]; simpl.
    + right. split; [done|]. by intros [|m] _.
    + destruct (is_nil v) eqn:Ev; simpl.
      * right. split; [done|]. intros [|m] _; by apply is_nil_true.
      * left. exists 0. split; [done|]. split; [done|].
        split; [by apply is_nil_false|]. intros m Hm. lia.
  - destruct T as [|l v r].
    + right. split; [done|]. intros m _. by rewrite tsub_Leaf.
    + simpl tbest.
      destruct (IH (if b then r else l) (if negb (is_nil v) then v else val))
        as [(n & Hn & Hv & Hne & Hall)|(Hv & Hall)].
      * left. exists (Datatypes.S n). split; [simpl; lia|]. split; [done|].
        split; [done|]. intros [|m] Hm; [lia|]. apply (Hall m). simpl in Hm. lia.
      * destruct (is_nil v) eqn:Ev; simpl negb in *; cbv iota in *.
        -- right. split; [done|]. intros [|m] Hm.
           ++ by apply is_nil_true.
           ++ apply (Hall m). simpl in Hm. lia.
        -- left. exists 0. split; [lia|]. split; [by rewrite Hv|].
           split; [rewrite Hv; by apply is_nil_false|].
           intros [|m] Hm; [lia|]. apply (Hall m). simpl in Hm. lia.
Qed.

(** A node without value at the end of the key: the result is nil. *)
Lemma tfind_end_nil bs : forall T val,
  bs <> [] -> tsub T bs <> Leaf -> tvalue (tsub T bs) = Nil ->
  tfind T bs true val = Nil.
Proof.
  induction bs as [|b bs IH]; intros T val Hne Hnode Hv; [done|].
  pose proof (tsub_not_leaf _ _ Hnode) as HT.
  destruct (trie_side b T HT) as (Td & v & To & -> & _).
  rewrite tsub_tnode in Hv, Hnode. rewrite tfind_tnode. cbv zeta.
  destruct bs as [|b2 bs].
  - simpl in *. by destruct Td.
  - simpl length. simpl Nat.eqb. simpl andb. cbv iota. by apply IH.
Qed.

(** ** The trimming loop *)

Lemma tsub_tprune bs : forall T, tsub (tprune T bs) bs = Leaf.
Proof.
  induction bs as [|b bs IH]; intros T; [done|].
  destruct T as [|l v r]; [apply tsub_Leaf|].
  simpl tprune. destruct (_ && _); [apply tsub_Leaf|].
  destruct b; simpl; apply IH.
Qed.

Lemma tsub_tcut T P : P <> [] -> T <> Leaf -> tsub (tcut T P) P = Leaf.
Proof.
  destruct P as [|b P]; [done|]. destruct T as [|l v r]; [done|]. intros _ _.
  destruct b; simpl; apply tsub_tprune.
Qed.

(** The nodes that the loop recycles carry no value. *)
Lemma tprune_leaf_tbest bs : forall T val,
  bs <> [] -> tsub T bs <> Leaf -> tprune T bs = Leaf ->
  tbest T (removelast bs) val = val.
Proof.
  induction bs as [|b bs IH]; intros T val Hne Hsub Hpr; [done|].
  pose proof (tsub_not_leaf _ _ Hsub) as HT.
  destruct (trie_side b T HT) as (Td & v & To & -> & _).
  rewrite tsub_tnode in Hsub. rewrite tprune_tnode in Hpr.
  destruct (_ && _) eqn:E in Hpr; [|by destruct b].
  apply andb_true_iff in E as [E Ev]. apply andb_true_iff in E as [E _].
  destruct bs as [|b2 bs].
  - simpl. destruct b; simpl; by rewrite Ev.
  - change (removelast (b :: b2 :: bs)) with (b :: removelast (b2 :: bs)).
    rewrite tbest_tnode, Ev. simpl negb. cbv iota.
    apply IH; [done|done|]. by destruct (tprune Td (b2 :: bs)).
Qed.

Lemma tfind_tprune bs : forall T q full val,
  bs `prefix_of` q -> tsub T bs <> Leaf ->
  tfind (tprune T bs) q full val
  = match bs with [] => val | _ :: _ => tbest T (removelast bs) val end.
Proof.
  induction bs as [|b bs IH]; intros T q full val [k ->] Hsub; [done|].
  pose proof (tsub_not_leaf _ _ Hsub) as HT.
  destruct (trie_side b T HT) as (Td & v & To & -> & _).
  rewrite tsub_tnode in Hsub. rewrite tprune_tnode.
  destruct (_ && _) eqn:E.
  - simpl tfind. symmetry. apply tprune_leaf_tbest; [done|by rewrite tsub_tnode|].
    by rewrite tprune_tnode, E.
  - simpl app. rewrite tfind_tnode. cbv zeta.
    destruct (full && _) eqn:E2.
    + apply andb_true_iff in E2 as [_ E2]. apply Nat.eqb_eq in E2.
      rewrite length_app in E2. destruct bs; [|simpl in E2; lia].
      simpl. by destruct b.
    + rewrite (IH Td (bs ++ k)); [|by exists k|done].
      destruct bs as [|b2 bs]; [by destruct b|].
      change (removelast (b :: b2 :: bs)) with (b :: removelast (b2 :: bs)).
      by rewrite tbest_tnode.
Qed.

(** After the trimming loop, what a lookup under [P] finds is what the
    nodes above [P] held. *)
Lemma tfind_tcut T P q full val :
  P <> [] -> P `prefix_of` q -> tsub T P <> Leaf ->
  tfind (tcut T P) q full val = tbest T (removelast P) val.
Proof.
  destruct P as [|b P]; [done|]. intros _ [k ->] Hsub.
  pose proof (tsub_not_leaf _ _ Hsub) as HT.
  destruct (trie_side b T HT) as (Td & v & To & -> & _).
  rewrite tsub_tnode in Hsub. rewrite tcut_tnode. simpl app.
  rewrite tfind_tnode. cbv zeta.
  destruct (full && _) eqn:E2.
  - apply andb_true_iff in E2 as [_ E2]. apply Nat.eqb_eq in E2.
    rewrite length_app in E2. destruct P; [|simpl in E2; lia].
    simpl. by destruct b.
  - rewrite (tfind_tprune P Td (P ++ k)); [|by exists k|done].
    destruct P as [|b2 P]; [by destruct b|].
    change (removelast (b :: b2 :: P)) with (b :: removelast (b2 :: P)).
    by rewrite tbest_tnode.
Qed.

(** ** What an insert leaves of the other nodes *)

Lemma tsub_tinsert_other P : forall T bs val,
  bs <> P -> tvalue (tsub (tinsert T P val) bs) = tvalue (tsub T bs).
Proof.
  induction P as [|b P IH]; intros T bs val Hne.
  - destruct bs as [|b' bs]; [done|].
    destruct T as [|l v r]; [|done]. destruct b'; simpl; by rewrite !tsub_Leaf.
  - destruct bs as [|b' bs].
    { by destruct T as [|l v r], b. }
    destruct T as [|l v r].
    + destruct b, b'; simpl; rewrite ?tsub_Leaf; try done;
        (rewrite IH; [by rewrite tsub_Leaf|congruence]).
    + destruct b, b'; simpl; try done; apply IH; congruence.
Qed.

Lemma tsub_tinsert_node T P val l v r :
  tsub T P = Br l v r -> tsub (tinsert T P val) P = Br l val r.
Proof.
  revert T. induction P as [|b P IH]; intros T H.
  - simpl in *. by subst.
  - destruct T as [|l' v' r']; [by rewrite tsub_Leaf in H|].
    destruct b; simpl in *; by apply IH.
Qed.

Lemma tsub_tinsert_leaf T P val :
  tsub T P = Leaf -> tsub (tinsert T P val) P = Br Leaf val Leaf.
Proof.
  revert T. induction P as [|b P IH]; intros T H.
  - simpl in H. by subst.
  - destruct T as [|l v r].
    + destruct b; simpl; apply IH; apply tsub_Leaf.
    + destruct b; simpl in *; by apply IH.
Qed.

End ShapeLemmas.

(** * What the operations do, on the states they can reach *)

Section Claims.
Context {V : Type}.
Local Abbreviation node := (node (V:=V)).
Local Abbreviation Tree := (Tree (V:=V)).
Local Abbreviation trie := (trie (V:=V)).
Implicit Types (h : list node) (t : Tree) (T : trie) (S : gset nat)
  (L R : list nat) (p : ptr) (n : node) (a x : nat) (b : bool)
  (bs P Q : list bool) (val v : any V) (key mask : list Z).

Local Open Scope nat_scope.

(** ** The store and the shape agree *)

Lemma stored_WF t T S L bs : WF t T S L -> stored t bs = tvalue (tsub T bs).
Proof. intros H. eapply stored_repr, wf_repr, H. Qed.

Lemma walk_WF t T S L bs :
  WF t T S L -> (walk (heap t) (root t) bs = None <-> tsub T bs = Leaf).
Proof.
  intros H. destruct (walk_repr _ _ _ _ _ bs (wf_repr _ _ _ _ H))
    as (pp & S' & Hsub & _).
  destruct (walk (heap t) (root t) bs) as [a|].
  - apply repr_Some in Hsub as (? & ? & ? & ? & ? & -> & _). done.
  - by apply repr_None in Hsub as [-> _].
Qed.

Lemma node_at_WF t T S L bs :
  WF t T S L -> (node_at t bs = None <-> tsub T bs = Leaf).
Proof.
  intros H. rewrite <- (walk_WF _ _ _ _ bs H). unfold node_at.
  destruct (walk_repr _ _ _ _ _ bs (wf_repr _ _ _ _ H))
    as (pp & S' & Hsub & _).
  destruct (walk (heap t) (root t) bs) as [a|]; [|done].
  apply repr_Some in Hsub as (? & ? & ? & ? & ? & _ & -> & _). done.
Qed.

Lemma lpm_WF t T S L bs : WF t T S L -> lpm t bs = tbest T bs Nil.
Proof. intros H. eapply best_repr, wf_repr, H. Qed.

Lemma walk_in t T S L bs a :
  WF t T S L -> walk (heap t) (root t) bs = Some a -> a ∈ S.
Proof.
  intros H Hw. destruct (walk_repr _ _ _ _ _ bs (wf_repr _ _ _ _ H))
    as (pp & S' & Hsub & Hincl).
  rewrite Hw in Hsub. apply repr_root_in in Hsub. set_solver.
Qed.

Lemma repr_reach h T : forall p (pp : ptr) S x,
  repr h T p pp S -> x ∈ S -> exists bs, walk h p bs = Some x.
Proof.
  induction T as [|l IHl v r IHr]; intros p pp S x; simpl.
  - intros [_ ->] Hx. set_solver.
  - intros (a & n & Sl & Sr & -> & Ha & _ & _ & Hl & Hr & _ & _ & _ & ->) Hx.
    apply elem_of_union in Hx as [Hx|Hx]; [apply elem_of_union in Hx as [Hx|Hx]|].
    + apply elem_of_singleton in Hx as ->. by exists [].
    + destruct (IHl _ _ _ _ Hl Hx) as [bs Hbs]. exists (false :: bs).
      simpl. by rewrite Ha.
    + destruct (IHr _ _ _ _ Hr Hx) as [bs Hbs]. exists (true :: bs).
      simpl. by rewrite Ha.
Qed.

(** [lpm] computes the longest registered prefix. *)
Lemma longest_match_lpm t bs :
  well_formed t -> longest_match t bs (lpm t bs).
Proof.
  intros (T & S & L & H). unfold longest_match.
  rewrite (lpm_WF _ _ _ _ _ H).
  destruct (tbest_longest bs T Nil) as [(n & Hn & Hv & Hne & Hall)|(Hv & Hall)].
  - left. exists n. split; [done|]. rewrite (stored_WF _ _ _ _ _ H).
    split; [done|]. split; [done|]. intros m Hm.
    rewrite (stored_WF _ _ _ _ _ H). by apply Hall.
  - right. split; [done|]. intros m Hm.
    rewrite (stored_WF _ _ _ _ _ H). by apply Hall.
Qed.

(** ** Reachable states *)

Lemma reachable_inv t :
  reachable t -> root t = Some 0 /\ well_formed t.
Proof.
  induction 1 as [p t Hnew|t key mask val ow e t' _ IH Hins
                 |t key mask wr e t' _ IH Hdel].
  - rewrite NewTree_eq in Hnew. injection Hnew as <-.
    split; [done|]. eexists _, _, _. apply first_tree_WF.
  - destruct IH as (Hr & T & S & L & HWF).
    destruct (decide (length key = length mask)) as [Hlen|Hlen].
    2:{ unfold insert in Hins. rewrite (length_mismatch _ _ Hlen) in Hins.
        injection Hins as <- <-. split; [done|]. by exists T, S, L. }
    destruct key as [|k key].
    { destruct mask; [|done]. by rewrite insert_empty_key in Hins. }
    destruct (insert_WF t T S L (k :: key) mask val ow HWF Hlen)
      as [(_ & _ & E)|(_ & t'' & S' & L' & E & HWF' & G)]; [done| |].
    + rewrite E in Hins. injection Hins as <- <-.
      split; [done|]. by exists T, S, L.
    + rewrite E in Hins. injection Hins as <- <-.
      split; [by rewrite (g_root _ _ _ _ _ _ G)|]. by eexists _, _, _.
  - destruct IH as (Hr & T & S & L & HWF).
    destruct (decide (length key = length mask)) as [Hlen|Hlen].
    2:{ unfold delete in Hdel. rewrite (length_mismatch _ _ Hlen) in Hdel.
        injection Hdel as <- <-. split; [done|]. by exists T, S, L. }
    destruct key as [|k key].
    { destruct mask; [|done].
      rewrite delete_empty_key in Hdel; [done|]. apply (wf_root _ _ _ _ HWF). }
    pose proof (delete_WF t T S L (k :: key) mask wr HWF Hlen) as Hd.
    cbv zeta in Hd.
    destruct (tsub T (key_prefix (k :: key) mask)) as [|l v r].
    { rewrite Hd in Hdel by done. injection Hdel as <- <-.
      split; [done|]. by exists T, S, L. }
    destruct (negb wr && _).
    + destruct (is_nil v).
      * rewrite Hd in Hdel by done. injection Hdel as <- <-.
        split; [done|]. by exists T, S, L.
      * destruct Hd as (t'' & E & HWF' & Hr' & _); [done|].
        rewrite E in Hdel. injection Hdel as <- <-.
        split; [congruence|]. by eexists _, _, _.
    + destruct (key_prefix (k :: key) mask).
      * rewrite Hd in Hdel by done. done.
      * destruct Hd as (t'' & S' & R & E & HWF' & Hr' & _); [done|].
        rewrite E in Hdel. injection Hdel as <- <-.
        split; [congruence|]. by eexists _, _, _.
Qed.

(** X22. In every state that the operations produce, the root is the
    node that [NewTree] made, it has no parent, and it is not on the free
    list. *)
Theorem root_invariant t :
  reachable t ->
  root t = Some 0
  /\ (exists n, heap t !! 0 = Some n /\ parent n = None)
  /\ (exists L, flist (heap t) (free t) L /\ 0 ∉ L).
Proof.
  intros Hreach. destruct (reachable_inv _ Hreach) as (Hr & T & S & L & H).
  split; [done|]. pose proof (wf_repr _ _ _ _ H) as Hrepr. rewrite Hr in Hrepr.
  pose proof (repr_root_in _ _ _ _ _ Hrepr) as Hin.
  apply repr_Some in Hrepr as (? & ? & n & ? & ? & _ & Hn & Hp & _).
  split; [by exists n|]. exists L. split; [apply H|]. by apply (wf_sep _ _ _ _ H).
Qed.

(** ** find *)

(** On a well-formed tree, [find] returns the value of the longest
    registered prefix that the walk covers, provided that the node at the
    end of the key, when the walk can reach it, carries a value. *)
Theorem find_longest_match t key mask :
  well_formed t -> length key = length mask -> key <> [] ->
  (full_mask key mask = true -> stored t (key_prefix key mask) = Nil ->
   node_at t (key_prefix key mask) = None) ->
  exists v, find t key mask = Done v
            /\ longest_match t (key_prefix key mask) v.
Proof.
  intros HWF Hlen Hkey Hend. pose proof HWF as (T & S & L & H).
  exists (lpm t (key_prefix key mask)). split; [|by apply longest_match_lpm].
  rewrite (find_WF _ _ _ _ _ _ H Hlen Hkey), (lpm_WF _ _ _ _ _ H).
  f_equal. apply tfind_tbest. intros Hf Hv.
  apply (node_at_WF _ _ _ _ _ H), Hend; [done|].
  by rewrite (stored_WF _ _ _ _ _ H).
Qed.

(** When the node at the end of the key has no value, [find] returns nil
    whatever the shorter prefixes hold (line 262). *)
Theorem find_end_node_without_value t key mask :
  well_formed t -> length key = length mask -> key <> [] ->
  full_mask key mask = true ->
  node_at t (key_prefix key mask) <> None ->
  stored t (key_prefix key mask) = Nil ->
  find t key mask = Done Nil.
Proof.
  intros (T & S & L & H) Hlen Hkey Hfull Hnode Hv.
  rewrite (find_WF _ _ _ _ _ _ H Hlen Hkey), Hfull. f_equal.
  rewrite (stored_WF _ _ _ _ _ H) in Hv.
  rewrite (node_at_WF _ _ _ _ _ H) in Hnode.
  assert (key_prefix key mask <> []) as Hne.
  { unfold full_mask in Hfull. apply Nat.eqb_eq in Hfull.
    destruct (key_prefix key mask); [|done]. destruct key; [done|].
    simpl in Hfull. lia. }
  by apply tfind_end_nil.
Qed.

(** ** NewTree *)

(** C9. For every integer [p], [NewTree p] is [NewTree 0]: the tree whose
    root is the only cell handed out of the first array of 200, with an
    empty free list.  The hint has no effect. *)
Theorem NewTree_preallocate_unused (preallocate : Z) :
  NewTree (V:=V) preallocate = NewTree 0
  /\ NewTree (V:=V) preallocate = Done first_tree
  /\ alloc_len (first_tree (V:=V)) = 1
  /\ free (first_tree (V:=V)) = None.
Proof. by rewrite !NewTree_eq. Qed.

(** ** insert *)

(** C4. On a well-formed tree and a prefix that is registered, [AddCIDR]
    returns [ErrNodeBusy] and leaves the state as it is, and [SetCIDR]
    succeeds and leaves its value in the node of the prefix. *)
Theorem conflict_policy (ParseIP : string -> list Z)
    (ParseCIDR : string -> list Z * list Z * option error)
    t cidr key mask val :
  well_formed t ->
  parsecidr ParseIP ParseCIDR cidr = (key, mask, None) ->
  length key = length mask -> key <> [] ->
  registered t (key_prefix key mask) ->
  AddCIDR ParseIP ParseCIDR t cidr val = Done (Some ErrNodeBusy, t)
  /\ exists t',
       SetCIDR ParseIP ParseCIDR t cidr val = Done (None, t')
       /\ stored t' (key_prefix key mask) = val
       /\ well_formed t'.
Proof.
  intros (T & S & L & H) Hparse Hlen Hkey Hreg.
  unfold registered in Hreg. rewrite (stored_WF _ _ _ _ _ H) in Hreg.
  unfold AddCIDR, SetCIDR. rewrite Hparse. simpl. split.
  - destruct (insert_WF t T S L key mask val false H Hlen Hkey)
      as [(_ & _ & E)|([?|?] & _)]; done.
  - destruct (insert_WF t T S L key mask val true H Hlen Hkey)
      as [(? & _)|(_ & t' & S' & L' & E & H' & _)]; [done|].
    exists t'. split; [done|]. split; [|by eexists _, _, _].
    rewrite (stored_WF _ _ _ _ _ H'). apply tsub_tinsert_same.
Qed.

(** Where the node of the prefix is not the node at the end of a lookup
    key, a nil payload is not seen.  On a well-formed tree, inserting nil
    at a prefix that carries no value, or over a registered prefix with
    overwrite, succeeds; it leaves the prefix without value and every
    other prefix with the value it had; when the prefix carried no value,
    every lookup with a key longer than the prefix returns what it
    returned before; and an [insert] without overwrite on the same prefix
    succeeds afterwards. *)
Theorem nil_payload_below_key_width t key mask ow :
  well_formed t -> length key = length mask -> key <> [] ->
  ow = true \/ stored t (key_prefix key mask) = Nil ->
  exists t',
    insert t key mask Nil ow = Done (None, t')
    /\ well_formed t'
    /\ stored t' (key_prefix key mask) = Nil
    /\ (forall bs, bs <> key_prefix key mask -> stored t' bs = stored t bs)
    /\ (stored t (key_prefix key mask) = Nil ->
        forall key' mask',
          length key' = length mask' -> key' <> [] ->
          length (key_prefix key mask) < 8 * length key' ->
          find t' key' mask' = find t key' mask')
    /\ (forall val, exists t'',
          insert t' key mask val false = Done (None, t'')).
Proof.
  intros (T & S & L & H) Hlen Hkey Hcase.
  rewrite (stored_WF _ _ _ _ _ H) in Hcase.
  destruct (insert_WF t T S L key mask Nil ow H Hlen Hkey)
    as [(Hov & Hbusy & _)|(_ & t' & S' & L' & E & H' & _)].
  { destruct Hcase; congruence. }
  exists t'. split; [done|]. split; [by eexists _, _, _|].
  split; [|split; [|split]].
  - rewrite (stored_WF _ _ _ _ _ H'). apply tsub_tinsert_same.
  - intros bs Hbs. rewrite (stored_WF _ _ _ _ _ H'), (stored_WF _ _ _ _ _ H).
    by apply tsub_tinsert_other.
  - intros Hv key' mask' Hlen' Hkey' Hshort.
    rewrite (stored_WF _ _ _ _ _ H) in Hv.
    rewrite (find_WF _ _ _ _ _ _ H' Hlen' Hkey'),
      (find_WF _ _ _ _ _ _ H Hlen' Hkey').
    f_equal. apply tfind_tinsert_nil; [done|].
    unfold full_mask. intros Hfull. apply Nat.eqb_eq in Hfull. lia.
  - intros val.
    destruct (insert_WF t' _ S' L' key mask val false H' Hlen Hkey)
      as [(_ & Hbusy & _)|(_ & t'' & _ & _ & E' & _)].
    + by rewrite tsub_tinsert_same in Hbusy.
    + by exists t''.
Qed.

(** C10. The claim fails on the code at a prefix of the full key width.
    On a well-formed tree that has no node for a host address, inserting
    the address with a nil payload succeeds and leaves every prefix, the
    address included, with the value slot it had, so that the same
    prefixes are registered before and after.  Yet the two states are told
    apart at the interface: before the insert the lookup of the address
    returns the value of the longest registered prefix that covers it and
    the exact delete returns [ErrNotFound]; after it the lookup returns
    nil (line 262 copies the value slot of the node at the end of the key
    without the test of line 246) and the exact delete succeeds (the test
    of line 206 is only made for a node that has a child). *)
Theorem nil_payload_seen_at_key_width t key mask :
  well_formed t -> length key = length mask -> key <> [] ->
  full_mask key mask = true ->
  node_at t (key_prefix key mask) = None ->
  exists t' t'',
    insert t key mask Nil false = Done (None, t')
    /\ well_formed t'
    /\ (forall bs, stored t' bs = stored t bs)
    /\ (exists v, find t key mask = Done v
                  /\ longest_match t (key_prefix key mask) v)
    /\ find t' key mask = Done Nil
    /\ delete t key mask false = Done (Some ErrNotFound, t)
    /\ delete t' key mask false = Done (None, t'').
Proof.
  intros HWF Hlen Hkey Hfull Hnode. pose proof HWF as (T & S & L & H).
  assert (tsub T (key_prefix key mask) = Leaf) as HP.
  { by apply (node_at_WF _ _ _ _ _ H). }
  assert (key_prefix key mask <> []) as Hne.
  { unfold full_mask in Hfull. apply Nat.eqb_eq in Hfull.
    destruct (key_prefix key mask); [|done].
    destruct key; [done|]. simpl in Hfull. lia. }
  destruct (insert_WF t T S L key mask Nil false H Hlen Hkey)
    as [(_ & Hbusy & _)|(_ & t' & S' & L' & E & H' & _)].
  { by rewrite HP in Hbusy. }
  assert (exists t'', delete t' key mask false = Done (None, t''))
    as [t'' E''].
  { pose proof (delete_WF t' _ S' L' key mask false H' Hlen Hkey) as Hd'.
    cbv zeta in Hd'. rewrite (tsub_tinsert_leaf _ _ _ HP) in Hd'.
    simpl in Hd'. destruct (key_prefix key mask) as [|b P']; [done|].
    destruct Hd' as (t'' & S'' & R & E'' & _). by exists t''. }
  exists t', t''. split; [done|]. split; [by eexists _, _, _|].
  split; [|split; [|split; [|split]]].
  - intros bs. rewrite (stored_WF _ _ _ _ _ H'), (stored_WF _ _ _ _ _ H).
    destruct (decide (bs = key_prefix key mask)) as [->|Hbs].
    + by rewrite tsub_tinsert_same, HP.
    + by apply tsub_tinsert_other.
  - by apply find_longest_match.
  - apply find_end_node_without_value; try done.
    + by eexists _, _, _.
    + intros Hx. apply (node_at_WF _ _ _ _ _ H') in Hx.
      by apply tsub_tinsert_not_leaf in Hx.
    + rewrite (stored_WF _ _ _ _ _ H'). apply tsub_tinsert_same.
  - pose proof (delete_WF t T S L key mask false H Hlen Hkey) as Hd.
    cbv zeta in Hd. by rewrite HP in Hd.
  - done.
Qed.

(** ** delete *)

(** A [delete] whose walk ends at the root and that does not stop at the
    test of line 204 dereferences [node.parent], which is nil. *)
Theorem delete_at_root_panics t key mask wr :
  well_formed t -> length key = length mask -> key <> [] ->
  key_prefix key mask = [] ->
  wr = true
  \/ (exists n, node_at t [] = Some n /\ left n = None /\ right n = None) ->
  delete t key mask wr = Panic.
Proof.
  intros (T & S & L & H) Hlen Hkey HP Hcase.
  pose proof (delete_WF t T S L key mask wr H Hlen Hkey) as Hd.
  cbv zeta in Hd. rewrite HP in Hd. simpl in Hd.
  pose proof (wf_repr _ _ _ _ H) as Hrepr.
  destruct (root t) as [a|] eqn:Er; [|by apply (wf_root _ _ _ _ H) in Er].
  apply repr_Some in Hrepr as (l & r & n & Sl & Sr & -> & Ha & _ & Hl & Hr & _).
  assert (negb wr && (negb (is_leaf r) || negb (is_leaf l)) = false) as E.
  { destruct Hcase as [->|(n' & Hn' & Hl' & Hr')]; [done|].
    unfold node_at in Hn'. simpl in Hn'. rewrite Er, Ha in Hn'.
    injection Hn' as <-.
    rewrite (repr_is_leaf _ _ _ _ _ Hl), (repr_is_leaf _ _ _ _ _ Hr), Hl', Hr'.
    apply andb_false_r. }
  by rewrite E in Hd.
Qed.

(** C5, as amended. On a well-formed tree where [P] and a longer prefix
    [Q] under it are registered, the exact delete of [P] succeeds and
    clears the value of [P] only; afterwards a lookup whose walk passes [Q]
    returns what it returned before, and a lookup that no registered prefix
    other than [P] covered returns nil. *)
Theorem exact_delete_keeps_descendants t key mask Q :
  well_formed t -> length key = length mask -> key <> [] ->
  registered t (key_prefix key mask) -> registered t Q ->
  key_prefix key mask `prefix_of` Q -> Q <> key_prefix key mask ->
  exists t',
    delete t key mask false = Done (None, t')
    /\ well_formed t'
    /\ stored t' (key_prefix key mask) = Nil
    /\ (forall bs, bs <> key_prefix key mask -> stored t' bs = stored t bs)
    /\ (forall key' mask',
          length key' = length mask' -> key' <> [] ->
          Q `prefix_of` key_prefix key' mask' ->
          find t' key' mask' = find t key' mask')
    /\ (forall key' mask',
          length key' = length mask' -> key' <> [] ->
          (forall bs, bs `prefix_of` key_prefix key' mask' ->
                      registered t bs -> bs = key_prefix key mask) ->
          find t' key' mask' = Done Nil).
Proof.
  intros (T & S & L & H) Hlen Hkey HregP HregQ Hpre Hne.
  set (P := key_prefix key mask) in *.
  unfold registered in HregP, HregQ.
  rewrite (stored_WF _ _ _ _ _ H) in HregP.
  rewrite (stored_WF _ _ _ _ _ H) in HregQ.
  pose proof (delete_WF t T S L key mask false H Hlen Hkey) as Hd.
  cbv zeta in Hd. fold P in Hd.
  assert (tsub T P <> Leaf) as HsubP.
  { intros E. by rewrite E in HregP. }
  destruct (tsub T P) as [|l v r] eqn:EP; [done|]. simpl in HregP.
  assert (negb (is_leaf r) || negb (is_leaf l) = true) as Etest.
  { destruct Hpre as [e ->]. rewrite tsub_app, EP in HregQ.
    destruct e as [|b e]; [by rewrite app_nil_r in Hne|].
    simpl in HregQ. destruct b.
    - destruct r; [by rewrite tsub_Leaf in HregQ|done].
    - destruct l; [by rewrite tsub_Leaf in HregQ|]. apply orb_true_r. }
  rewrite Etest in Hd. simpl negb in Hd. simpl andb in Hd. cbv iota in Hd.
  apply is_nil_false in HregP. rewrite HregP in Hd.
  destruct Hd as (t' & E & H' & _).
  exists t'. split; [done|]. split; [by eexists _, _, _|].
  split; [|split; [|split]].
  - rewrite (stored_WF _ _ _ _ _ H'). apply tsub_tinsert_same.
  - intros bs Hbs. rewrite (stored_WF _ _ _ _ _ H'), (stored_WF _ _ _ _ _ H).
    apply tsub_tinsert_ne; [done|]. by rewrite EP.
  - intros key' mask' Hlen' Hkey' HQ.
    rewrite (find_WF _ _ _ _ _ _ H' Hlen' Hkey'),
      (find_WF _ _ _ _ _ _ H Hlen' Hkey').
    f_equal. apply (tfind_tinsert_under P _ Q); try done. by rewrite EP.
  - intros key' mask' Hlen' Hkey' Honly.
    rewrite (find_WF _ _ _ _ _ _ H' Hlen' Hkey'). f_equal.
    apply tfind_all_nil. intros n Hn.
    destruct (decide (take n (key_prefix key' mask') = P)) as [->|Hn'].
    { apply tsub_tinsert_same. }
    rewrite tsub_tinsert_ne; [|done|by rewrite EP].
    destruct (is_nil (tvalue (tsub T (take n (key_prefix key' mask'))))) eqn:Ev.
    { by apply is_nil_true. }
    exfalso. apply Hn', Honly.
    + exists (drop n (key_prefix key' mask')). by rewrite take_drop.
    + unfold registered. rewrite (stored_WF _ _ _ _ _ H).
      by apply is_nil_false.
Qed.

(** C6, as amended. On a well-formed tree that has a node for the prefix
    [P] of one bit or more, the whole-range delete of [P] succeeds; the
    node of [P] and everything under it are out of the tree, whatever
    values were there; and a lookup under [P] returns the value of the
    longest prefix, registered before the delete, that is shorter than
    [P]. *)
Theorem whole_range_delete t key mask :
  well_formed t -> length key = length mask -> key <> [] ->
  key_prefix key mask <> [] ->
  node_at t (key_prefix key mask) <> None ->
  exists t',
    delete t key mask true = Done (None, t')
    /\ well_formed t'
    /\ (forall bs, key_prefix key mask `prefix_of` bs -> node_at t' bs = None)
    /\ (forall key' mask',
          length key' = length mask' -> key' <> [] ->
          key_prefix key mask `prefix_of` key_prefix key' mask' ->
          exists v, find t' key' mask' = Done v
                    /\ longest_match t (removelast (key_prefix key mask)) v).
Proof.
  intros HWF Hlen Hkey HP Hnode. pose proof HWF as (T & S & L & H).
  set (P := key_prefix key mask) in *.
  rewrite (node_at_WF _ _ _ _ _ H) in Hnode.
  pose proof (delete_WF t T S L key mask true H Hlen Hkey) as Hd.
  cbv zeta in Hd. fold P in Hd.
  pose proof (tsub_not_leaf _ _ Hnode) as HT.
  destruct (tsub T P) as [|l v r] eqn:EP; [done|].
  simpl in Hd. destruct P as [|b P'] eqn:EP'; [done|].
  destruct Hd as (t' & S' & R & E & H' & _).
  exists t'. split; [done|]. split; [by eexists _, _, _|]. split.
  - intros bs [e ->]. apply (node_at_WF _ _ _ _ _ H').
    rewrite tsub_app, tsub_tcut by done. apply tsub_Leaf.
  - intros key' mask' Hlen' Hkey' Hunder.
    exists (lpm t (removelast (b :: P'))).
    split; [|by apply longest_match_lpm].
    rewrite (find_WF _ _ _ _ _ _ H' Hlen' Hkey'), (lpm_WF _ _ _ _ _ H).
    f_equal. apply tfind_tcut; [done|done|]. by rewrite EP.
Qed.

(** ** The allocator *)

(** C8. On a well-formed tree, [newnode] returns a node whose links and
    value are cleared, from the free list when it is not empty (the arrays
    are then left as they are), from the current or a new array otherwise;
    and after a [delete] that took the node of its prefix out of the tree,
    the head of the free list is a node that was in the tree, and it is the
    node that the next [newnode] returns. *)
Theorem allocator_contract t :
  well_formed t ->
  (exists a t',
     newnode t = Done (Some a, t')
     /\ heap t' !! a = Some zero_node
     /\ (free t <> None ->
         free t = Some a /\ alloc_off t' = alloc_off t
         /\ alloc_len t' = alloc_len t /\ alloc_cap t' = alloc_cap t
         /\ length (heap t') = length (heap t)))
  /\ (forall key mask wr t1,
        delete t key mask wr = Done (None, t1) ->
        node_at t1 (key_prefix key mask) = None ->
        exists a bs t2,
          walk (heap t) (root t) bs = Some a
          /\ (forall bs', walk (heap t1) (root t1) bs' <> Some a)
          /\ free t1 = Some a
          /\ newnode t1 = Done (Some a, t2)
          /\ heap t2 !! a = Some zero_node).
Proof.
  intros (T & S & L & H). split.
  - destruct (newnode_spec _ _ (wf_alloc _ _ _ _ H))
      as (a & t' & L' & E & Hz & _ & _ & _ & _ & _ & _ & _ & Hfree).
    exists a, t'. split; [done|]. split; [done|]. intros Hne.
    destruct (free t) as [p|]; [|done].
    destruct Hfree as (-> & _ & ? & ? & ? & ?). done.
  - intros key mask wr t1 Hdel Hgone.
    destruct (decide (length key = length mask)) as [Hlen|Hlen].
    2:{ unfold delete in Hdel. by rewrite (length_mismatch _ _ Hlen) in Hdel. }
    destruct key as [|k key].
    { destruct mask; [|done].
      rewrite delete_empty_key in Hdel; [done|]. apply (wf_root _ _ _ _ H). }
    pose proof (delete_WF t T S L (k :: key) mask wr H Hlen) as Hd.
    cbv zeta in Hd.
    destruct (tsub T (key_prefix (k :: key) mask)) as [|l v r].
    { by rewrite Hd in Hdel. }
    destruct (negb wr && _).
    + destruct (is_nil v); [by rewrite Hd in Hdel|].
      destruct Hd as (t' & E & H' & _); [done|].
      rewrite E in Hdel. injection Hdel as <-.
      apply (node_at_WF _ _ _ _ _ H') in Hgone.
      by apply tsub_tinsert_not_leaf in Hgone.
    + destruct (key_prefix (k :: key) mask) as [|b bs].
      { by rewrite Hd in Hdel. }
      destruct Hd as (t' & S' & R & E & H' & _ & HR & HRS); [done|].
      rewrite E in Hdel. injection Hdel as <-.
      destruct R as [|a R]; [done|].
      destruct (HRS a) as [HaS HaS']; [set_solver|].
      destruct (repr_reach _ _ _ _ _ a (wf_repr _ _ _ _ H) HaS) as [bs0 Hbs0].
      pose proof (ao_free _ _ (wf_alloc _ _ _ _ H')) as Hfl.
      simpl in Hfl. destruct Hfl as (Hfree & _).
      destruct (newnode_spec _ _ (wf_alloc _ _ _ _ H'))
        as (a' & t2 & L' & E2 & Hz & _ & _ & _ & _ & _ & _ & _ & Hf2).
      rewrite Hfree in Hf2. destruct Hf2 as (-> & _).
      exists a', bs0, t2. split; [done|]. split; [|done].
      intros bs' Hbs'. apply HaS'. by eapply walk_in.
Qed.

(** ** FindCIDR *)

(** When the address and the mask that [parsecidr] returns differ in
    length, [FindCIDR] returns [ErrBadIP] as the value, with a nil error. *)
Theorem FindCIDR_width_mismatch (ParseIP : string -> list Z)
    (ParseCIDR : string -> list Z * list Z * option error)
    t cidr key mask :
  parsecidr ParseIP ParseCIDR cidr = (key, mask, None) ->
  length key <> length mask ->
  FindCIDR ParseIP ParseCIDR t cidr = Done (Err ErrBadIP, None).
Proof.
  intros Hparse Hlen. unfold FindCIDR. rewrite Hparse. simpl.
  by rewrite (find_mismatch _ _ _ Hlen).
Qed.

End Claims.

(** * The examples *)

Local Open Scope string_scope.

Example parse_10_8 :
  parsecidr ParseIP_lit ParseCIDR_lit "10.0.0.0/8"
  = (ip4 10 0 0 0, CIDRMask 104 128, None).
Proof. vm_compute. reflexivity. Qed.

Example parse_root : 
  parsecidr ParseIP_lit ParseCIDR_lit "::/0"
  = (replicate 16 0, CIDRMask 0 128, None).
Proof. vm_compute. reflexivity. Qed.

Example parse_host :
  parsecidr ParseIP_lit ParseCIDR_lit "10.1.2.3"
  = (ip4 10 1 2 3, fullMask, None).
Proof. vm_compute. reflexivity. Qed.

Example parse_bad :
  parsecidr ParseIP_lit ParseCIDR_lit "abc" = ([], fullMask, None).
Proof. vm_compute. reflexivity. Qed.

(** The end-to-end scenario of the specification. *)
Example scenario :
  Add first_tree "10.0.0.0/8" (Val "A") = Done (None, tree_A)
  /\ Add tree_A "10.1.0.0/16" (Val "B") = Done (None, tree_AB)
  /\ Find tree_AB "10.1.2.3" = Done (Val "B", None)
  /\ Find tree_AB "10.2.3.4" = Done (Val "A", None)
  /\ Find tree_AB "11.0.0.0" = Done (Nil, None).
Proof. vm_compute. repeat split; reflexivity. Qed.

Lemma tree_A_reachable : reachable tree_A.
Proof.
  apply (reach_insert first_tree (ip4 10 0 0 0) (CIDRMask 104 128)
           (Val "A") false None).
  - by apply (reach_new 0).
  - vm_compute. reflexivity.
Qed.

Lemma tree_AB_reachable : reachable tree_AB.
Proof.
  apply (reach_insert tree_A (ip4 10 1 0 0) (CIDRMask 112 128)
           (Val "B") false None).
  - apply tree_A_reachable.
  - vm_compute. reflexivity.
Qed.

Lemma first_tree_well_formed : well_formed (first_tree (V:=string)).
Proof. eexists _, _, _. apply first_tree_WF. Qed.

Lemma tree_A_well_formed : well_formed tree_A.
Proof. apply reachable_inv, tree_A_reachable. Qed.

Lemma tree_AB_well_formed : well_formed tree_AB.
Proof. apply reachable_inv, tree_AB_reachable. Qed.

(** ** C1 *)

(** C1, at the failing input. With [10.0.0.0/8 -> A] and
    [10.1.0.0/16 -> B] registered, the lookup of [10.1.2.3] returns [B];
    after [AddCIDR "10.1.2.3" nil], which registers nothing, the same two
    prefixes are registered and cover the address, and the lookup returns
    nil: line 262 copies the value slot of the node at the end of the key
    without the test of line 246. *)
Theorem find_forgets_match_at_end_node :
  Add tree_AB "10.1.2.3" Nil = Done (None, tree_AB_nil)
  /\ Find tree_AB "10.1.2.3" = Done (Val "B", None)
  /\ stored tree_AB_nil (key_prefix (ip4 10 1 0 0) (CIDRMask 112 128))
     = Val "B"
  /\ stored tree_AB_nil (key_prefix (ip4 10 1 2 3) fullMask) = Nil
  /\ Find tree_AB_nil "10.1.2.3" = Done (Nil, None).
Proof. vm_compute. repeat split; reflexivity. Qed.

(** ** C2 *)

Lemma delete_at_root_panics_witness :
  delete (first_tree (V:=string)) (replicate 16 0) (CIDRMask 0 128) true
  = Panic.
Proof.
  apply delete_at_root_panics.
  - apply first_tree_well_formed.
  - reflexivity.
  - discriminate.
  - vm_compute. reflexivity.
  - left. reflexivity.
Defined.

(** The same through the exported methods, on the empty tree and on a tree
    with entries: the call does not return. *)
Example delete_root_prefix :
  DeleteWholeRange first_tree "::/0" = Panic
  /\ Delete first_tree "::/0" = Panic
  /\ DeleteWholeRange tree_AB "::/0" = Panic.
Proof. vm_compute. repeat split; reflexivity. Qed.

(** ** C3 *)

Lemma FindCIDR_width_mismatch_witness :
  Find first_tree "abc" = Done (Err ErrBadIP, None).
Proof.
  apply (FindCIDR_width_mismatch ParseIP_lit ParseCIDR_lit first_tree "abc"
           [] fullMask).
  - vm_compute. reflexivity.
  - vm_compute. discriminate.
Defined.

(** [AddCIDR] and [DeleteCIDR] on the same text return the error. *)
Example bad_address_elsewhere :
  Add first_tree "abc" (Val "A") = Done (Some ErrBadIP, first_tree)
  /\ Delete first_tree "abc" = Done (Some ErrBadIP, first_tree).
Proof. vm_compute. repeat split; reflexivity. Qed.

(** ** C4 *)

Lemma conflict_policy_witness :
  Add tree_A "10.0.0.0/8" (Val "Z") = Done (Some ErrNodeBusy, tree_A)
  /\ exists t',
       SetCIDR ParseIP_lit ParseCIDR_lit tree_A "10.0.0.0/8" (Val "Z")
       = Done (None, t')
       /\ stored t' (key_prefix (ip4 10 0 0 0) (CIDRMask 104 128)) = Val "Z"
       /\ well_formed t'.
Proof.
  apply (conflict_policy ParseIP_lit ParseCIDR_lit tree_A "10.0.0.0/8"
           (ip4 10 0 0 0) (CIDRMask 104 128) (Val "Z")).
  - apply tree_A_well_formed.
  - vm_compute. reflexivity.
  - reflexivity.
  - discriminate.
  - unfold registered. vm_compute. discriminate.
Defined.

(** ** C5 *)

(** C5, as stated, fails. With [10.0.0.0/8 -> A], [10.1.0.0/16 -> B] and
    [10.2.0.0/16 -> C] registered, after the exact delete of [10.0.0.0/8]
    the address [10.2.3.4], which is under [10.0.0.0/8] and outside
    [10.1.0.0/16], still finds [C]. *)
Lemma exact_delete_other_prefix_matches :
  Add tree_AB "10.2.0.0/16" (Val "C") = Done (None, tree_AB_C2)
  /\ Delete tree_AB_C2 "10.0.0.0/8"
     = Done (None, state (Delete tree_AB_C2 "10.0.0.0/8"))
  /\ Find (state (Delete tree_AB_C2 "10.0.0.0/8")) "10.2.3.4"
     = Done (Val "C", None).
Proof. vm_compute. repeat split; reflexivity. Qed.

Lemma exact_delete_keeps_descendants_witness :
  exists t',
    delete tree_AB (ip4 10 0 0 0) (CIDRMask 104 128) false = Done (None, t')
    /\ stored t' (key_prefix (ip4 10 0 0 0) (CIDRMask 104 128)) = Nil
    /\ find t' (ip4 10 1 2 3) fullMask = find tree_AB (ip4 10 1 2 3) fullMask.
Proof.
  destruct (exact_delete_keeps_descendants tree_AB (ip4 10 0 0 0)
              (CIDRMask 104 128)
              (key_prefix (ip4 10 1 0 0) (CIDRMask 112 128)))
    as (t' & Hdel & _ & Hv & _ & Hfind & _).
  - apply tree_AB_well_formed.
  - reflexivity.
  - discriminate.
  - unfold registered. vm_compute. discriminate.
  - unfold registered. vm_compute. discriminate.
  - exists (drop 104 (key_prefix (ip4 10 1 0 0) (CIDRMask 112 128))).
    vm_compute. reflexivity.
  - vm_compute. discriminate.
  - exists t'. split; [exact Hdel|]. split; [exact Hv|].
    apply Hfind; [reflexivity|discriminate|].
    exists (drop 112 (key_prefix (ip4 10 1 2 3) fullMask)).
    vm_compute. reflexivity.
Defined.

(** ** C6 *)

(** C6, as stated, fails. With [10.0.0.0/8 -> A], [10.1.0.0/16 -> B] and
    [10.1.2.0/24 -> C] registered, after the whole-range delete of
    [10.1.0.0/16] the address [10.1.2.3], which is under it, finds [A]. *)
Lemma whole_range_delete_shorter_prefix_matches :
  Add tree_AB "10.1.2.0/24" (Val "C") = Done (None, tree_AB_C24)
  /\ DeleteWholeRange tree_AB_C24 "10.1.0.0/16"
     = Done (None, state (DeleteWholeRange tree_AB_C24 "10.1.0.0/16"))
  /\ Find (state (DeleteWholeRange tree_AB_C24 "10.1.0.0/16")) "10.1.2.3"
     = Done (Val "A", None).
Proof. vm_compute. repeat split; reflexivity. Qed.

Lemma whole_range_delete_witness :
  exists t',
    delete tree_AB (ip4 10 1 0 0) (CIDRMask 112 128) true = Done (None, t')
    /\ node_at t' (key_prefix (ip4 10 1 0 0) (CIDRMask 112 128)) = None
    /\ exists v, find t' (ip4 10 1 2 3) fullMask = Done v
         /\ longest_match tree_AB
              (removelast (key_prefix (ip4 10 1 0 0) (CIDRMask 112 128))) v.
Proof.
  destruct (whole_range_delete tree_AB (ip4 10 1 0 0) (CIDRMask 112 128))
    as (t' & Hdel & _ & Hgone & Hfind).
  - apply tree_AB_well_formed.
  - reflexivity.
  - discriminate.
  - vm_compute. discriminate.
  - vm_compute. discriminate.
  - exists t'. split; [exact Hdel|]. split.
    + apply Hgone. exists []. symmetry. apply app_nil_r.
    + apply Hfind; [reflexivity|discriminate|].
      exists (drop 112 (key_prefix (ip4 10 1 2 3) fullMask)).
      vm_compute. reflexivity.
Defined.

(** ** C7 *)

(** C7, at the failing inputs. The exact delete of [::/0] in the empty
    tree reaches the root, which carries no value, and does not return
    [ErrNotFound]: it dereferences the nil parent of the root.  The exact
    delete of a prefix whose node is a leaf with a nil value succeeds. *)
Theorem exact_delete_of_leaf_without_value :
  stored (first_tree (V:=string)) (key_prefix (replicate 16 0) (CIDRMask 0 128))
  = Nil
  /\ Delete first_tree "::/0" = Panic
  /\ Add first_tree "10.0.0.0/8" Nil = Done (None, tree_nil)
  /\ stored tree_nil (key_prefix (ip4 10 0 0 0) (CIDRMask 104 128)) = Nil
  /\ Delete tree_nil "10.0.0.0/8"
     = Done (None, state (Delete tree_nil "10.0.0.0/8")).
Proof. vm_compute. repeat split; reflexivity. Qed.

(** ** C8 *)

Lemma allocator_contract_witness :
  (exists a t', newnode tree_AB = Done (Some a, t')
                /\ heap t' !! a = Some zero_node)
  /\ exists a t2,
       free (state (DeleteWholeRange tree_AB "10.1.0.0/16")) = Some a
       /\ newnode (state (DeleteWholeRange tree_AB "10.1.0.0/16"))
          = Done (Some a, t2)
       /\ heap t2 !! a = Some zero_node.
Proof.
  destruct (allocator_contract tree_AB tree_AB_well_formed)
    as [(a & t' & Hnew & Hz & _) Hdel].
  split; [exists a, t'; split; [exact Hnew|exact Hz]|].
  destruct (Hdel (ip4 10 1 0 0) (CIDRMask 112 128) true
              (state (DeleteWholeRange tree_AB "10.1.0.0/16")))
    as (a1 & bs & t2 & _ & _ & Hfree & Hnew2 & Hz2).
  - vm_compute. reflexivity.
  - vm_compute. reflexivity.
  - exists a1, t2. split; [exact Hfree|]. split; [exact Hnew2|exact Hz2].
Defined.

(** ** C10 *)

(** With [10.0.0.0/8 -> A] and [10.1.0.0/16 -> B] registered, at the host
    address [10.1.2.3]. *)
Lemma nil_payload_seen_at_key_width_witness :
  exists t' t'',
    insert tree_AB (ip4 10 1 2 3) fullMask Nil false = Done (None, t')
    /\ well_formed t'
    /\ (forall bs, stored t' bs = stored tree_AB bs)
    /\ (exists v, find tree_AB (ip4 10 1 2 3) fullMask = Done v
           /\ longest_match tree_AB (key_prefix (ip4 10 1 2 3) fullMask) v)
    /\ find t' (ip4 10 1 2 3) fullMask = Done Nil
    /\ delete tree_AB (ip4 10 1 2 3) fullMask false
       = Done (Some ErrNotFound, tree_AB)
    /\ delete t' (ip4 10 1 2 3) fullMask false = Done (None, t'').
Proof.
  apply nil_payload_seen_at_key_width.
  - apply tree_AB_well_formed.
  - vm_compute. reflexivity.
  - discriminate.
  - vm_compute. reflexivity.
  - vm_compute. reflexivity.
Defined.

(** The same through the exported methods, on the tree with
    [10.0.0.0/8 -> A].  After [AddCIDR "10.1.2.3" nil] the lookup of
    [10.1.2.3] returns nil where it returned [A] before, and
    [DeleteCIDR "10.1.2.3"] succeeds where it returned [ErrNotFound]
    before: the prefix with the nil value is told apart from one that was
    never inserted. *)
Lemma nil_payload_at_key_width_is_seen :
  Add tree_A "10.1.2.3" Nil = Done (None, tree_A_nil)
  /\ Find tree_A "10.1.2.3" = Done (Val "A", None)
  /\ Find tree_A_nil "10.1.2.3" = Done (Nil, None)
  /\ Delete tree_A "10.1.2.3" = Done (Some ErrNotFound, tree_A)
  /\ Delete tree_A_nil "10.1.2.3"
     = Done (None, state (Delete tree_A_nil "10.1.2.3")).
Proof. vm_compute. repeat split; reflexivity. Qed.

(** A nil payload at [10.1.0.0/16], below the key width: the lookup of
    [10.1.2.3] is what it was, and [10.1.0.0/16] can be added. *)
Lemma nil_payload_below_key_width_witness :
  exists t',
    insert tree_A (ip4 10 1 0 0) (CIDRMask 112 128) Nil false = Done (None, t')
    /\ find t' (ip4 10 1 2 3) fullMask = find tree_A (ip4 10 1 2 3) fullMask
    /\ exists t'',
         insert t' (ip4 10 1 0 0) (CIDRMask 112 128) (Val "B") false
         = Done (None, t'').
Proof.
  destruct (nil_payload_below_key_width tree_A (ip4 10 1 0 0)
              (CIDRMask 112 128) false)
    as (t' & Hins & _ & _ & _ & Hfind & Hadd).
  - apply tree_A_well_formed.
  - reflexivity.
  - discriminate.
  - right. vm_compute. reflexivity.
  - exists t'. split; [exact Hins|]. split.
    + apply Hfind; [vm_compute; reflexivity|reflexivity|discriminate|].
      vm_compute. lia.
    + apply Hadd.
Defined.

(** * More on the operations *)

Local Close Scope string_scope.

Section MoreShapes.
Context {V : Type}.
Local Abbreviation trie := (trie (V:=V)).
Implicit Types (T Td To Tc l r : trie) (b : bool) (bs P Q q : list bool)
  (val v : any V) (full : bool).

Local Open Scope nat_scope.

Lemma prefix_of_cons_inv b b' (bs bs' : list bool) :
  (b :: bs) `prefix_of` (b' :: bs') <-> b = b' /\ bs `prefix_of` bs'.
Proof.
  split.
  - intros [k E]. simpl in E. injection E as -> ->. split; [done|by exists k].
  - intros [-> [k ->]]. by exists k.
Qed.

(** The value that was inserted is what a lookup with the same key and
    mask finds. *)
Lemma tfind_tinsert_same P : forall T full val acc,
  val <> Nil -> tfind (tinsert T P val) P full acc = val.
Proof.
  induction P as [|b P IH]; intros T full val acc Hval.
  - apply is_nil_false in Hval. destruct T; simpl; by rewrite Hval.
  - destruct P as [|b' P].
    + apply is_nil_false in Hval.
      destruct T as [|l v r], b, full; simpl; rewrite ?Hval; simpl; try done;
        try (by destruct r); try (by destruct l).
      * destruct r; simpl; by rewrite Hval.
      * destruct l; simpl; by rewrite Hval.
    + pose proof (IH Leaf full val) as IHl.
      destruct T as [|l v r], b; simpl tinsert; simpl tfind;
        rewrite andb_false_r; first [apply IHl; done | apply IH; done].
Qed.

(** The nodes that the trimming loop recycles, and what hangs off them,
    carry no value. *)
Lemma tprune_leaf_values P : forall T bs,
  tsub T P <> Leaf -> tprune T P = Leaf -> ~ P `prefix_of` bs ->
  tvalue (tsub T bs) = Nil.
Proof.
  induction P as [|b P IH]; intros T bs Hsub Hpr Hnp.
  - exfalso. apply Hnp. by exists bs.
  - pose proof (tsub_not_leaf _ _ Hsub) as HT.
    destruct (trie_side b T HT) as (Td & v & To & -> & _).
    rewrite tsub_tnode in Hsub. rewrite tprune_tnode in Hpr.
    destruct (_ && _) eqn:E in Hpr; [|by destruct b].
    apply andb_true_iff in E as [E Ev]. apply andb_true_iff in E as [E Eo].
    apply is_nil_true in Ev. destruct To; [|done].
    destruct bs as [|b' bs]; [by destruct b|].
    destruct (decide (b' = b)) as [->|Hb].
    + rewrite tsub_tnode. apply IH; [done|by destruct (tprune Td P)|].
      intros H. apply Hnp. by apply prefix_of_cons_inv.
    + destruct b, b'; simpl; try done; by rewrite tsub_Leaf.
Qed.

Lemma tprune_other_values P : forall T bs,
  tsub T P <> Leaf -> ~ P `prefix_of` bs ->
  tvalue (tsub (tprune T P) bs) = tvalue (tsub T bs).
Proof.
  induction P as [|b P IH]; intros T bs Hsub Hnp.
  - exfalso. apply Hnp. by exists bs.
  - pose proof (tsub_not_leaf _ _ Hsub) as HT.
    destruct (trie_side b T HT) as (Td & v & To & -> & _).
    rewrite tprune_tnode.
    destruct (_ && _) eqn:E.
    + rewrite tsub_Leaf. symmetry. apply (tprune_leaf_values (b :: P)); try done.
      by rewrite tprune_tnode, E.
    + rewrite tsub_tnode in Hsub.
      destruct bs as [|b' bs]; [by destruct b|].
      destruct (decide (b' = b)) as [->|Hb].
      * rewrite !tsub_tnode. apply IH; [done|].
        intros H. apply Hnp. by apply prefix_of_cons_inv.
      * by destruct b, b'.
Qed.

Lemma tcut_other_values T P bs :
  tsub T P <> Leaf -> ~ P `prefix_of` bs ->
  tvalue (tsub (tcut T P) bs) = tvalue (tsub T bs).
Proof.
  intros Hsub Hnp. destruct P as [|b P]; [by destruct T|].
  pose proof (tsub_not_leaf _ _ Hsub) as HT.
  destruct (trie_side b T HT) as (Td & v & To & -> & _).
  rewrite tcut_tnode. rewrite tsub_tnode in Hsub.
  destruct bs as [|b' bs]; [by destruct b|].
  destruct (decide (b' = b)) as [->|Hb].
  - rewrite !tsub_tnode. apply tprune_other_values; [done|].
    intros H. apply Hnp. by apply prefix_of_cons_inv.
  - by destruct b, b'.
Qed.

Lemma tcut_under T P bs :
  P <> [] -> tsub T P <> Leaf -> P `prefix_of` bs ->
  tsub (tcut T P) bs = Leaf.
Proof.
  intros HP Hsub [e ->]. rewrite tsub_app, tsub_tcut; [apply tsub_Leaf|done|].
  by eapply tsub_not_leaf.
Qed.

End MoreShapes.

Section MoreOps.
Context {V : Type}.
Local Abbreviation node := (node (V:=V)).
Local Abbreviation Tree := (Tree (V:=V)).
Local Abbreviation trie := (trie (V:=V)).
Implicit Types (h : list node) (t : Tree) (T : trie) (S : gset nat)
  (L R : list nat) (p : ptr) (n : node) (a x c : nat) (b : bool)
  (bs P Q : list bool) (val v : any V) (key mask : list Z).

Local Open Scope nat_scope.

Local Arguments delete_trim : simpl never.
Local Arguments loop_fuel : simpl never.

Lemma is_null_false p : is_null p = false <-> p <> None.
Proof. by destruct p. Qed.

Lemma has_child_test n (l r : trie) :
  is_leaf l = is_null (left n) -> is_leaf r = is_null (right n) ->
  (negb (is_leaf r) || negb (is_leaf l) = true
   <-> left n <> None \/ right n <> None).
Proof.
  intros -> ->. destruct (left n), (right n); simpl; split; intros H;
    try done; try (by left); try (by right); by destruct H.
Qed.

(** ** The node of a prefix, in the store and in the shape *)

Lemma node_at_shape t T S L bs n :
  WF t T S L -> node_at t bs = Some n ->
  exists l r, tsub T bs = Br l (value n) r
    /\ is_leaf l = is_null (left n) /\ is_leaf r = is_null (right n).
Proof.
  intros H Hn. unfold node_at in Hn.
  destruct (walk_repr _ _ _ _ _ bs (wf_repr _ _ _ _ H)) as (pp & S' & Hsub & _).
  destruct (walk (heap t) (root t) bs) as [a|]; [|done].
  apply repr_Some in Hsub as (l & r & n' & Sl & Sr & -> & Ha & _ & Hl & Hr & _).
  assert (n' = n) as -> by congruence.
  exists l, r. split; [done|]. split; eapply repr_is_leaf; eauto.
Qed.

Lemma node_at_Br t T S L bs (l r : trie) v :
  WF t T S L -> tsub T bs = Br l v r ->
  exists n, node_at t bs = Some n /\ value n = v
    /\ is_leaf l = is_null (left n) /\ is_leaf r = is_null (right n).
Proof.
  intros H Hsub. destruct (node_at t bs) as [n|] eqn:E.
  - destruct (node_at_shape _ _ _ _ _ _ H E) as (l' & r' & E' & ? & ?).
    rewrite Hsub in E'. injection E' as -> Hv ->. by exists n.
  - apply (node_at_WF _ _ _ _ _ H) in E. congruence.
Qed.

(** ** insert *)

Lemma insert_Done_WF t T S L key mask val ow :
  WF t T S L -> length key = length mask -> key <> [] ->
  ow = true \/ tvalue (tsub T (key_prefix key mask)) = Nil ->
  exists t' S' L',
    insert t key mask val ow = Done (None, t')
    /\ WF t' (tinsert T (key_prefix key mask) val) S' L'.
Proof.
  intros H Hlen Hkey Hcase.
  destruct (insert_WF t T S L key mask val ow H Hlen Hkey)
    as [(Hov & Hbusy & _)|(_ & t' & S' & L' & E & H' & _)].
  - destruct Hcase; congruence.
  - by exists t', S', L'.
Qed.

(** ** delete *)

(** The exact delete of a prefix that carries a value, from a node that
    is not a childless root.  What is left at the prefix is no node, or a
    node without value that has a child. *)
Lemma exact_delete_WF t T S L key mask :
  WF t T S L -> length key = length mask -> key <> [] ->
  tvalue (tsub T (key_prefix key mask)) <> Nil ->
  key_prefix key mask <> []
  \/ is_leaf (tchild T false) && is_leaf (tchild T true) = false ->
  exists t' T' S' L',
    delete t key mask false = Done (None, t') /\ WF t' T' S' L'
    /\ (forall bs, bs <> key_prefix key mask ->
          tvalue (tsub T' bs) = tvalue (tsub T bs))
    /\ (tsub T' (key_prefix key mask) = Leaf
        \/ exists l r : trie,
             tsub T' (key_prefix key mask) = Br l Nil r
             /\ negb (is_leaf r) || negb (is_leaf l) = true).
Proof.
  intros H Hlen Hkey Hv Hroot.
  pose proof (delete_WF t T S L key mask false H Hlen Hkey) as Hd.
  cbv zeta in Hd. set (P := key_prefix key mask) in *.
  destruct (tsub T P) as [|l v r] eqn:EP; [done|]. simpl in Hv.
  simpl negb in Hd. rewrite andb_true_l in Hd.
  destruct (negb (is_leaf r) || negb (is_leaf l)) eqn:Ech.
  - apply is_nil_false in Hv. rewrite Hv in Hd.
    destruct Hd as (t' & E & H' & _).
    exists t', (tinsert T P Nil), S, L. split; [done|]. split; [done|]. split.
    + intros bs Hbs. by apply tsub_tinsert_other.
    + right. exists l, r. split; [|done]. by apply (tsub_tinsert_node _ _ _ _ v).
  - apply orb_false_iff in Ech as [Er El].
    apply negb_false_iff in Er, El.
    destruct P as [|b P'] eqn:EP'.
    { destruct Hroot as [?|Hroot]; [done|]. simpl in EP. subst T. simpl in Hroot.
      by rewrite El, Er in Hroot. }
    destruct Hd as (t' & S' & R & E & H' & _).
    exists t', (tcut T (b :: P')), S', (R ++ L).
    split; [done|]. split; [done|].
    assert (tsub T (b :: P') <> Leaf) as Hnl by (by rewrite EP).
    split.
    + intros bs Hbs.
      destruct (decide ((b :: P') `prefix_of` bs)) as [Hpre|Hpre].
      * rewrite tcut_under by done. destruct Hpre as [e ->].
        rewrite tsub_app, EP. destruct e as [|b' e].
        { by rewrite app_nil_r in Hbs. }
        destruct l, r; try done. destruct b'; simpl; by rewrite tsub_Leaf.
      * by apply tcut_other_values.
    + left. apply tsub_tcut; [done|]. by eapply tsub_not_leaf.
Qed.

Lemma delete_not_found_WF t T S L key mask wr :
  WF t T S L -> length key = length mask -> key <> [] ->
  tsub T (key_prefix key mask) = Leaf
  \/ (wr = false
      /\ exists l r : trie,
           tsub T (key_prefix key mask) = Br l Nil r
           /\ negb (is_leaf r) || negb (is_leaf l) = true) ->
  delete t key mask wr = Done (Some ErrNotFound, t).
Proof.
  intros H Hlen Hkey Hcase.
  pose proof (delete_WF t T S L key mask wr H Hlen Hkey) as Hd.
  cbv zeta in Hd.
  destruct Hcase as [E|(-> & l & r & E & Ech)]; rewrite E in Hd; [done|].
  simpl negb in Hd. rewrite andb_true_l, Ech in Hd. done.
Qed.

(** The whole-range delete of a prefix below the root that has a node. *)
Lemma whole_range_delete_WF t T S L key mask :
  WF t T S L -> length key = length mask -> key <> [] ->
  key_prefix key mask <> [] ->
  tsub T (key_prefix key mask) <> Leaf ->
  exists t' S' L',
    delete t key mask true = Done (None, t')
    /\ WF t' (tcut T (key_prefix key mask)) S' L'.
Proof.
  intros H Hlen Hkey HP Hsub.
  pose proof (delete_WF t T S L key mask true H Hlen Hkey) as Hd.
  cbv zeta in Hd.
  destruct (tsub T (key_prefix key mask)) as [|l v r]; [done|].
  simpl in Hd. destruct (key_prefix key mask) as [|b P']; [done|].
  destruct Hd as (t' & S' & R & E & H' & _). by exists t', S', (R ++ L).
Qed.

(** ** The links of a tree *)

Lemma walk_app h p bs1 bs2 :
  walk h p (bs1 ++ bs2) = walk h (walk h p bs1) bs2.
Proof.
  revert p. induction bs1 as [|b bs1 IH]; intros p; [done|].
  simpl. destruct p as [a|]; [|by rewrite walk_None].
  destruct (h !! a); [apply IH|by rewrite walk_None].
Qed.

Lemma repr_walk_in h (T : trie) p (pp : ptr) S bs a :
  repr h T p pp S -> walk h p bs = Some a -> a ∈ S.
Proof.
  intros H Hw. destruct (walk_repr _ _ _ _ _ bs H) as (pp' & S' & Hsub & Hincl).
  rewrite Hw in Hsub. apply repr_root_in in Hsub. set_solver.
Qed.

Lemma repr_walk_inj h bs1 : forall (T : trie) p (pp : ptr) S bs2 a,
  repr h T p pp S ->
  walk h p bs1 = Some a -> walk h p bs2 = Some a -> bs1 = bs2.
Proof.
  induction bs1 as [|b1 bs1 IH]; intros T p pp S bs2 a H H1 H2.
  - simpl in H1. subst p. destruct bs2 as [|b2 bs2]; [done|]. exfalso.
    apply repr_Some in H
      as (l & r & n & Sl & Sr & -> & Ha & _ & Hl & Hr & HSl & HSr & _).
    simpl in H2. rewrite Ha in H2.
    pose proof (repr_walk_in _ _ _ _ _ _ _
                  (repr_child _ _ b2 _ _ _ _ _ Hl Hr) H2) as Hin.
    by destruct b2.
  - destruct p as [a0|]; [|done].
    apply repr_Some in H
      as (l & r & n & Sl & Sr & -> & Ha & _ & Hl & Hr & HSl & HSr & Hd & _).
    simpl in H1. rewrite Ha in H1.
    pose proof (repr_walk_in _ _ _ _ _ _ _
                  (repr_child _ _ b1 _ _ _ _ _ Hl Hr) H1) as Hin1.
    destruct bs2 as [|b2 bs2].
    { simpl in H2. injection H2 as <-. by destruct b1. }
    simpl in H2. rewrite Ha in H2.
    pose proof (repr_walk_in _ _ _ _ _ _ _
                  (repr_child _ _ b2 _ _ _ _ _ Hl Hr) H2) as Hin2.
    destruct (decide (b1 = b2)) as [->|Hb].
    + f_equal.
      exact (IH _ _ _ _ _ _ (repr_child _ _ b2 _ _ _ _ _ Hl Hr) H1 H2).
    + exfalso. destruct b1, b2; try done; set_solver.
Qed.

(** ** What delete leaves alone *)

Lemma modify_length h p (f : node -> node) h' :
  modify h p f = Done h' -> length h' = length h.
Proof.
  unfold modify. destruct (load h p) as [n| |]; simpl; [|done..].
  destruct p as [a|]; [|done]. intros [= <-]. apply length_insert.
Qed.

Lemma delete_trim_storage fuel : forall t nd t',
  delete_trim fuel t nd = Done t' ->
  root t' = root t /\ alloc_off t' = alloc_off t
  /\ alloc_len t' = alloc_len t /\ alloc_cap t' = alloc_cap t
  /\ length (heap t') = length (heap t).
Proof.
  induction fuel as [|fuel IH]; intros t nd t'; [done|].
  rewrite delete_trim_S. unfold unlink.
  destruct (load (heap t) nd) as [n| |]; simpl; [|done..].
  destruct (load (heap t) (parent n)) as [pn| |]; simpl; [|done..].
  destruct (if ptr_eqb (right pn) nd then _ else _) as [h1| |] eqn:E1;
    simpl; [|done..].
  destruct (modify h1 nd _) as [h2| |] eqn:E2; simpl; [|done..].
  assert (length h2 = length (heap t)) as Hlen.
  { rewrite (modify_length _ _ _ _ E2).
    destruct (ptr_eqb (right pn) nd); by apply modify_length in E1. }
  destruct (load h2 nd) as [n2| |]; simpl; [|done..].
  unfold check_up. simpl.
  destruct (load h2 (parent n2)) as [n3| |]; simpl; [|done..].
  destruct (_ || _); [by intros [= <-]|].
  destruct (is_null (parent n3)); [by intros [= <-]|].
  intros Ht. apply IH in Ht. simpl in Ht. by rewrite Hlen in Ht.
Qed.

End MoreOps.

Section MoreTheorems.
Context {V : Type}.
Local Abbreviation node := (node (V:=V)).
Local Abbreviation Tree := (Tree (V:=V)).
Local Abbreviation trie := (trie (V:=V)).
Implicit Types (h : list node) (t : Tree) (T : trie) (S : gset nat)
  (L R : list nat) (p : ptr) (n : node) (a x c : nat) (b : bool)
  (bs P Q : list bool) (val v : any V) (key mask : list Z).

Local Open Scope nat_scope.

Local Arguments delete_trim : simpl never.
Local Arguments loop_fuel : simpl never.

(** ** insert *)

(** X1. On a well-formed tree [insert] has four outcomes and no other.
    With a key and a mask of different lengths it returns [ErrBadIP]; with
    both empty it indexes the empty mask and does not return; without
    overwrite on a registered prefix it returns [ErrNodeBusy]; in these
    cases that return, the state is as it was.  Otherwise it succeeds: the
    state is well formed, the node of the prefix holds the value, and
    the value slot of every other prefix is what it was. *)
Theorem insert_outcome t key mask val ow :
  well_formed t ->
  (length key <> length mask
   /\ insert t key mask val ow = Done (Some ErrBadIP, t))
  \/ (key = [] /\ mask = [] /\ insert t key mask val ow = Panic)
  \/ (length key = length mask /\ key <> [] /\ ow = false
      /\ registered t (key_prefix key mask)
      /\ insert t key mask val ow = Done (Some ErrNodeBusy, t))
  \/ (length key = length mask /\ key <> []
      /\ (ow = true \/ ~ registered t (key_prefix key mask))
      /\ exists t',
           insert t key mask val ow = Done (None, t')
           /\ well_formed t'
           /\ stored t' (key_prefix key mask) = val
           /\ forall bs, bs <> key_prefix key mask ->
                stored t' bs = stored t bs).
Proof.
  intros (T & S & L & H).
  destruct (decide (length key = length mask)) as [Hlen|Hlen].
  2:{ left. split; [done|]. unfold insert. by rewrite (length_mismatch _ _ Hlen). }
  right. destruct key as [|k key].
  { left. destruct mask; [|done]. by rewrite insert_empty_key. }
  right. unfold registered. rewrite (stored_WF _ _ _ _ _ H).
  destruct (insert_WF t T S L (k :: key) mask val ow H Hlen)
    as [(Hov & Hbusy & E)|(Hcase & t' & S' & L' & E & H' & _)]; [done|left|right].
  - done.
  - split; [done|]. split; [done|]. split.
    { destruct Hcase as [?|Hnil]; [by left|right]. intros Hx. by apply Hx. }
    exists t'. split; [done|]. split; [by eexists _, _, _|]. split.
    + rewrite (stored_WF _ _ _ _ _ H'). apply tsub_tinsert_same.
    + intros bs Hbs.
      rewrite (stored_WF _ _ _ _ _ H'), (stored_WF _ _ _ _ _ H).
      by apply tsub_tinsert_other.
Qed.

(** X2. What [insert] stored, [find] returns: after a successful insert
    of a value that is not nil, the lookup with the same key and mask
    returns that value. *)
Theorem insert_then_find t key mask val ow t' :
  well_formed t -> length key = length mask -> key <> [] -> val <> Nil ->
  insert t key mask val ow = Done (None, t') ->
  find t' key mask = Done val.
Proof.
  intros (T & S & L & H) Hlen Hkey Hval Hins.
  destruct (insert_WF t T S L key mask val ow H Hlen Hkey)
    as [(_ & _ & E)|(_ & t'' & S' & L' & E & H' & _)]; [congruence|].
  rewrite E in Hins. injection Hins as <-.
  rewrite (find_WF _ _ _ _ _ _ H' Hlen Hkey). f_equal.
  by apply tfind_tinsert_same.
Qed.

(** ** find *)

(** X3. On a well-formed tree [find] has four outcomes and no other.
    With a key and a mask of different lengths it returns the error
    [ErrBadIP] as its value; with both empty it indexes the empty mask and
    does not return; when the mask is full and the node at the end of the
    key has no value it returns nil; otherwise it returns the value of
    the longest registered prefix of the bits that the mask covers, nil
    when there is none. *)
Theorem find_outcome t key mask :
  well_formed t ->
  (length key <> length mask /\ find t key mask = Done (Err ErrBadIP))
  \/ (key = [] /\ mask = [] /\ find t key mask = Panic)
  \/ (length key = length mask /\ key <> []
      /\ full_mask key mask = true
      /\ node_at t (key_prefix key mask) <> None
      /\ stored t (key_prefix key mask) = Nil
      /\ find t key mask = Done Nil)
  \/ (length key = length mask /\ key <> []
      /\ (full_mask key mask = false
          \/ node_at t (key_prefix key mask) = None
          \/ stored t (key_prefix key mask) <> Nil)
      /\ exists v, find t key mask = Done v
                   /\ longest_match t (key_prefix key mask) v).
Proof.
  intros HWF.
  destruct (decide (length key = length mask)) as [Hlen|Hlen].
  2:{ left. split; [done|]. by apply find_mismatch. }
  right. destruct key as [|k key].
  { left. destruct mask; [|done]. pose proof HWF as (T & S & L & H).
    split; [done|]. split; [done|]. unfold find. simpl.
    pose proof (wf_repr _ _ _ _ H) as Hrepr.
    destruct (root t) as [a|] eqn:Er; [|by apply (wf_root _ _ _ _ H) in Er].
    apply repr_Some in Hrepr as (l & r & n & Sl & Sr & _ & Ha & _).
    by rewrite (load_Some _ _ _ Ha). }
  right.
  destruct (full_mask (k :: key) mask) eqn:Ef.
  2:{ right. split; [done|]. split; [done|]. split; [by left|].
      apply find_longest_match; try done. rewrite Ef. done. }
  destruct (node_at t (key_prefix (k :: key) mask)) as [n|] eqn:En.
  2:{ right. split; [done|]. split; [done|]. split; [by right; left|].
      apply find_longest_match; try done. }
  destruct (is_nil (stored t (key_prefix (k :: key) mask))) eqn:Ev.
  - apply is_nil_true in Ev. left. split; [done|]. split; [done|].
    split; [done|]. split; [done|]. split; [done|].
    apply find_end_node_without_value; try done. by rewrite En.
  - apply is_nil_false in Ev. right. split; [done|]. split; [done|].
    split; [by right; right|]. apply find_longest_match; done.
Qed.

(** ** delete *)

(** [delete] on a key that is not empty. *)
Lemma delete_cases_not_found t key mask wr :
  well_formed t -> length key = length mask -> key <> [] ->
  (delete t key mask wr = Done (Some ErrNotFound, t)
   <-> (node_at t (key_prefix key mask) = None
        \/ (wr = false
            /\ exists n, node_at t (key_prefix key mask) = Some n
                 /\ value n = Nil /\ (left n <> None \/ right n <> None))))
  /\ (forall e t', delete t key mask wr = Done (Some e, t') ->
        e = ErrNotFound /\ t' = t).
Proof.
  intros (T & S & L & H) Hlen Hkey.
  pose proof (delete_WF t T S L key mask wr H Hlen Hkey) as Hd.
  cbv zeta in Hd. set (P := key_prefix key mask) in *.
  destruct (tsub T P) as [|l v r] eqn:EP.
  { split; [|intros e t' E; rewrite Hd in E; by injection E as <- <-].
    split; [|done]. intros _. left. by apply (node_at_WF _ _ _ _ _ H). }
  destruct (node_at_Br _ _ _ _ _ _ _ _ H EP) as (n & En & Hv & Hl & Hr).
  pose proof (has_child_test n l r Hl Hr) as Hch.
  assert (node_at t P <> None) as Hsome by (by rewrite En).
  destruct (negb wr && _) eqn:Etest.
  - apply andb_true_iff in Etest as [Ewr Etest]. apply negb_true_iff in Ewr.
    destruct (is_nil v) eqn:Ev.
    + split; [|intros e t' E; rewrite Hd in E; by injection E as <- <-].
      split; [|done]. intros _. right. split; [done|]. exists n.
      split; [done|]. split; [|by apply Hch]. rewrite Hv. by apply is_nil_true.
    + destruct Hd as (t' & E & _). rewrite E. split; [|by intros ? ? [=]].
      split; [done|]. intros [?|(_ & n' & En' & Hv' & _)]; [done|].
      rewrite En in En'. injection En' as <-. apply is_nil_false in Ev.
      congruence.
  - assert (wr = true \/ (left n = None /\ right n = None)) as Hcase.
    { apply andb_false_iff in Etest as [E|E].
      - left. by destruct wr.
      - right. rewrite Hl, Hr in E. by destruct (left n), (right n). }
    assert (~ (node_at t P = None
               \/ (wr = false
                   /\ exists n, node_at t P = Some n /\ value n = Nil
                        /\ (left n <> None \/ right n <> None)))) as Hno.
    { intros [?|(Ewr & n' & En' & _ & Hch')]; [done|].
      rewrite En in En'. injection En' as <-.
      destruct Hcase as [?|[? ?]]; [congruence|]. by destruct Hch'. }
    destruct P as [|b P'].
    + rewrite Hd. split; [|done]. split; [done|]. intros ?. by destruct Hno.
    + destruct Hd as (t' & S' & R & E & _). rewrite E.
      split; [|by intros ? ? [=]]. split; [done|]. intros ?. by destruct Hno.
Qed.

(** X4. With a key and a mask of the same length, [delete] returns an
    error as follows.  When the key and the mask are empty it indexes the
    empty mask and does not return.  When the key is not empty it returns
    [ErrNotFound] in two cases and no other: the tree has no node for the
    prefix; or the delete is exact and the node has a child and no value.
    Whatever the key, it returns no other error, and when it returns an
    error the state is as it was. *)
Theorem delete_not_found t key mask wr :
  well_formed t -> length key = length mask ->
  (key = [] -> delete t key mask wr = Panic)
  /\ (key <> [] ->
      (delete t key mask wr = Done (Some ErrNotFound, t)
       <-> (node_at t (key_prefix key mask) = None
            \/ (wr = false
                /\ exists n, node_at t (key_prefix key mask) = Some n
                     /\ value n = Nil
                     /\ (left n <> None \/ right n <> None)))))
  /\ (forall e t', delete t key mask wr = Done (Some e, t') ->
        e = ErrNotFound /\ t' = t).
Proof.
  intros HWF Hlen.
  assert (key = [] -> delete t key mask wr = Panic) as Hempty.
  { intros ->. destruct mask; [|done]. apply delete_empty_key.
    destruct HWF as (T & S & L & H). apply (wf_root _ _ _ _ H). }
  split; [done|]. split.
  - intros Hkey. by apply delete_cases_not_found.
  - intros e t' E. destruct key as [|k key].
    + by rewrite Hempty in E.
    + by apply (delete_cases_not_found t (k :: key) mask wr).
Qed.

(** X5. The exact delete of a registered prefix, other than at a root
    without children, succeeds; it clears the value of this prefix and of
    no other prefix; and the same delete again returns [ErrNotFound]. *)
Theorem exact_delete_clears_one_prefix t key mask :
  well_formed t -> length key = length mask -> key <> [] ->
  registered t (key_prefix key mask) ->
  key_prefix key mask <> []
  \/ (exists n, node_at t [] = Some n
        /\ (left n <> None \/ right n <> None)) ->
  exists t',
    delete t key mask false = Done (None, t')
    /\ well_formed t'
    /\ stored t' (key_prefix key mask) = Nil
    /\ (forall bs, bs <> key_prefix key mask -> stored t' bs = stored t bs)
    /\ delete t' key mask false = Done (Some ErrNotFound, t').
Proof.
  intros (T & S & L & H) Hlen Hkey Hreg Hroot.
  unfold registered in Hreg. rewrite (stored_WF _ _ _ _ _ H) in Hreg.
  destruct (exact_delete_WF t T S L key mask H Hlen Hkey Hreg)
    as (t' & T' & S' & L' & E & H' & Hframe & Hat).
  { destruct Hroot as [?|(n & En & Hch)]; [by left|right].
    destruct (node_at_shape _ _ _ _ _ _ H En) as (l & r & ET & Hl & Hr).
    simpl in ET. subst T. simpl.
    apply (has_child_test n l r Hl Hr) in Hch.
    apply orb_true_iff in Hch as [E|E]; apply negb_true_iff in E; rewrite E;
      [apply andb_false_r|done]. }
  exists t'. split; [done|]. split; [by eexists _, _, _|]. split; [|split].
  - rewrite (stored_WF _ _ _ _ _ H').
    by destruct Hat as [->|(l & r & -> & _)].
  - intros bs Hbs.
    rewrite (stored_WF _ _ _ _ _ H'), (stored_WF _ _ _ _ _ H). by apply Hframe.
  - apply (delete_not_found_WF t' T' S' L'); try done.
    destruct Hat as [?|?]; [by left|by right].
Qed.

(** X6. The whole-range delete of a prefix below the root that has a
    node succeeds; afterwards no prefix under it carries a value, the
    value slot of every prefix that is not under it is what it was, and
    a delete of the same prefix, exact or not, returns [ErrNotFound]. *)
Theorem whole_range_delete_frame t key mask :
  well_formed t -> length key = length mask -> key <> [] ->
  key_prefix key mask <> [] ->
  node_at t (key_prefix key mask) <> None ->
  exists t',
    delete t key mask true = Done (None, t')
    /\ well_formed t'
    /\ (forall bs, key_prefix key mask `prefix_of` bs -> stored t' bs = Nil)
    /\ (forall bs, ~ key_prefix key mask `prefix_of` bs ->
          stored t' bs = stored t bs)
    /\ (forall wr, delete t' key mask wr = Done (Some ErrNotFound, t')).
Proof.
  intros (T & S & L & H) Hlen Hkey HP Hnode.
  rewrite (node_at_WF _ _ _ _ _ H) in Hnode.
  destruct (whole_range_delete_WF t T S L key mask H Hlen Hkey HP Hnode)
    as (t' & S' & L' & E & H').
  exists t'. split; [done|]. split; [by eexists _, _, _|]. split; [|split].
  - intros bs Hbs. rewrite (stored_WF _ _ _ _ _ H').
    by rewrite tcut_under.
  - intros bs Hbs.
    rewrite (stored_WF _ _ _ _ _ H'), (stored_WF _ _ _ _ _ H).
    by apply tcut_other_values.
  - intros wr.
    apply (delete_not_found_WF t' (tcut T (key_prefix key mask)) S' L');
      try done.
    left. apply tsub_tcut; [done|]. by eapply tsub_not_leaf.
Qed.

(** X7. Insert, then delete: on a prefix below the root that is not
    registered, an insert of a value followed by the exact delete of the
    same prefix both succeed, and every prefix has the value it had
    before the two. *)
Theorem insert_then_delete t key mask val :
  well_formed t -> length key = length mask -> key <> [] ->
  key_prefix key mask <> [] ->
  ~ registered t (key_prefix key mask) -> val <> Nil ->
  exists t1 t2,
    insert t key mask val false = Done (None, t1)
    /\ delete t1 key mask false = Done (None, t2)
    /\ well_formed t2
    /\ forall bs, stored t2 bs = stored t bs.
Proof.
  intros (T & S & L & H) Hlen Hkey HP Hreg Hval.
  unfold registered in Hreg. rewrite (stored_WF _ _ _ _ _ H) in Hreg.
  assert (tvalue (tsub T (key_prefix key mask)) = Nil) as Hnil.
  { apply is_nil_true. destruct (is_nil _) eqn:E; [done|].
    by apply is_nil_false in E. }
  destruct (insert_Done_WF t T S L key mask val false H Hlen Hkey)
    as (t1 & S1 & L1 & E1 & H1); [by right|].
  destruct (exact_delete_WF t1 _ S1 L1 key mask H1 Hlen Hkey)
    as (t2 & T2 & S2 & L2 & E2 & H2 & Hframe & Hat).
  { by rewrite tsub_tinsert_same. }
  { by left. }
  exists t1, t2. split; [done|]. split; [done|].
  split; [by eexists _, _, _|]. intros bs.
  rewrite (stored_WF _ _ _ _ _ H2), (stored_WF _ _ _ _ _ H).
  destruct (decide (bs = key_prefix key mask)) as [->|Hbs].
  - rewrite Hnil. by destruct Hat as [->|(l & r & -> & _)].
  - rewrite Hframe by done. by apply tsub_tinsert_other.
Qed.

(** X8. [delete] takes nothing from the allocator and gives nothing
    back to it: whatever it returns, the root, the arrays and the size
    of the store are what they were. *)
Theorem delete_keeps_storage t key mask wr e t' :
  delete t key mask wr = Done (e, t') ->
  root t' = root t /\ alloc_off t' = alloc_off t
  /\ alloc_len t' = alloc_len t /\ alloc_cap t' = alloc_cap t
  /\ length (heap t') = length (heap t).
Proof.
  unfold delete. destruct (negb _); [by intros [= <- <-]|].
  destruct (delete_descend _ _ _ _ _ _ _) as [nd| |]; simpl; [|done..].
  destruct (is_null nd); [by intros [= <- <-]|].
  destruct (load (heap t) nd) as [n| |]; simpl; [|done..].
  destruct (negb wr && _).
  - destruct (negb (is_nil (value n))); [|by intros [= <- <-]].
    destruct (modify _ _ _) as [h'| |] eqn:Em; simpl; [|done..].
    intros [= <- <-]. simpl. by rewrite (modify_length _ _ _ _ Em).
  - destruct (delete_trim _ _ _) as [t''| |] eqn:Et; simpl; [|done..].
    intros [= <- <-]. by apply delete_trim_storage in Et.
Qed.

(** ** The links of the tree *)

(** X9. In every state that the operations produce, the [parent] field
    of a node of the tree points to the node that it hangs off. *)
Theorem child_parent_link t bs b c :
  reachable t ->
  walk (heap t) (root t) (bs ++ [b]) = Some c ->
  exists a n,
    walk (heap t) (root t) bs = Some a
    /\ heap t !! c = Some n /\ parent n = Some a.
Proof.
  intros Hreach Hw. destruct (reachable_inv _ Hreach) as (_ & T & S & L & H).
  destruct (walk_repr _ _ _ _ _ bs (wf_repr _ _ _ _ H)) as (pp & S' & Hsub & _).
  rewrite walk_app in Hw.
  destruct (walk (heap t) (root t) bs) as [a|]; [|done].
  apply repr_Some in Hsub as (l & r & na & Sl & Sr & _ & Ha & _ & Hl & Hr & _).
  simpl in Hw. rewrite Ha in Hw.
  pose proof (repr_child _ _ b _ _ _ _ _ Hl Hr) as Hc. rewrite Hw in Hc.
  apply repr_Some in Hc as (? & ? & n & ? & ? & _ & Hn & Hp & _).
  by exists a, n.
Qed.

(** X10. In every state that the operations produce, two different
    prefixes have different nodes: no node is shared. *)
Theorem paths_distinct t bs1 bs2 a :
  reachable t ->
  walk (heap t) (root t) bs1 = Some a ->
  walk (heap t) (root t) bs2 = Some a ->
  bs1 = bs2.
Proof.
  intros Hreach H1 H2.
  destruct (reachable_inv _ Hreach) as (_ & T & S & L & H).
  exact (repr_walk_inj _ _ _ _ _ _ _ _ (wf_repr _ _ _ _ H) H1 H2).
Qed.

(** X11. In every state that the operations produce, the free list is
    a chain without repetition of cells that were handed out, no node of
    the tree is on it, and every node of the tree is a cell that was
    handed out, inside the store. *)
Theorem tree_apart_from_free_list t :
  reachable t ->
  exists L,
    flist (heap t) (free t) L /\ NoDup L
    /\ (forall x, x ∈ L -> x < bound t)
    /\ bound t <= length (heap t)
    /\ forall bs a, walk (heap t) (root t) bs = Some a ->
         (a ∉ L) /\ a < bound t.
Proof.
  intros Hreach. destruct (reachable_inv _ Hreach) as (_ & T & S & L & H).
  pose proof (wf_alloc _ _ _ _ H) as [Hfl Hnd Hbd Hlen Hcap _].
  exists L. split; [done|]. split; [done|]. split; [done|]. split.
  { unfold bound. lia. }
  intros bs a Hw. apply (wf_sep _ _ _ _ H). by eapply walk_in.
Qed.

End MoreTheorems.

(** * Trees that hold values only *)

Section ValuedShapes.
Context {V : Type}.
Local Abbreviation trie := (trie (V:=V)).
Implicit Types (T Td To l r : trie) (b : bool) (bs P : list bool)
  (val v : any V).

Local Open Scope nat_scope.

Lemma tinsert_not_leaf T P val : is_leaf (tinsert T P val) = false.
Proof. by destruct P as [|[] P], T. Qed.

Lemma valued_below_Br l v r :
  valued_below (Br l v r) = true
  <-> (is_leaf l = true -> is_leaf r = true -> v <> Nil)
      /\ valued_below l = true /\ valued_below r = true.
Proof.
  simpl. rewrite !andb_true_iff, orb_true_iff, negb_true_iff.
  rewrite andb_false_iff, negb_true_iff, is_nil_false. split.
  - intros [[Hv Hl] Hr]. split; [|done]. intros El Er.
    destruct Hv as [[?|?]|?]; congruence.
  - intros (Hv & Hl & Hr). split; [split; [|done]|done].
    destruct (is_leaf l) eqn:El; [|by left; left].
    destruct (is_leaf r) eqn:Er; [|by left; right]. right. by apply Hv.
Qed.

Lemma valued_below_tinsert P : forall T val,
  val <> Nil -> valued_below T = true ->
  valued_below (tinsert T P val) = true.
Proof.
  induction P as [|b P IH]; intros T val Hval HT.
  - destruct T as [|l v r]; simpl tinsert; apply valued_below_Br.
    + done.
    + apply valued_below_Br in HT as (_ & ? & ?). done.
  - destruct T as [|l v r], b; simpl tinsert; apply valued_below_Br.
    + split; [|split; [done|by apply IH]].
      intros _ E. by rewrite tinsert_not_leaf in E.
    + split; [|split; [by apply IH|done]].
      intros E. by rewrite tinsert_not_leaf in E.
    + apply valued_below_Br in HT as (_ & ? & ?).
      split; [|split; [done|by apply IH]].
      intros _ E. by rewrite tinsert_not_leaf in E.
    + apply valued_below_Br in HT as (_ & ? & ?).
      split; [|split; [by apply IH|done]].
      intros E. by rewrite tinsert_not_leaf in E.
Qed.

Lemma valued_tinsert T P val :
  val <> Nil -> valued T = true -> valued (tinsert T P val) = true.
Proof.
  unfold valued. intros Hval HT. apply andb_true_iff in HT as [Hl Hr].
  destruct P as [|b P].
  - destruct T; simpl in *; by rewrite ?Hl, ?Hr.
  - destruct T as [|l v r], b; simpl in *;
      rewrite ?(valued_below_tinsert P _ val Hval) by done;
      by rewrite ?Hl, ?Hr.
Qed.

(** Clearing the value of a node that has a child. *)
Lemma valued_below_clear P : forall T l v r,
  tsub T P = Br l v r -> negb (is_leaf r) || negb (is_leaf l) = true ->
  valued_below T = true -> valued_below (tinsert T P Nil) = true.
Proof.
  induction P as [|b P IH]; intros T l v r Hsub Hch HT.
  - simpl in Hsub. subst T. simpl tinsert.
    apply valued_below_Br in HT as (_ & ? & ?). apply valued_below_Br.
    split; [|done]. intros El Er. by rewrite El, Er in Hch.
  - destruct T as [|l' v' r']; [by rewrite tsub_Leaf in Hsub|].
    apply valued_below_Br in HT as (Hv & ? & ?).
    destruct b; simpl in Hsub; simpl tinsert; apply valued_below_Br.
    + split; [|split; [done|by eapply IH]].
      intros _ E. by rewrite tinsert_not_leaf in E.
    + split; [|split; [by eapply IH|done]].
      intros E. by rewrite tinsert_not_leaf in E.
Qed.

Lemma valued_clear T P l v r :
  tsub T P = Br l v r -> negb (is_leaf r) || negb (is_leaf l) = true ->
  valued T = true -> valued (tinsert T P Nil) = true.
Proof.
  unfold valued. intros Hsub Hch HT. apply andb_true_iff in HT as [Hl Hr].
  destruct P as [|b P].
  - simpl in Hsub. subst T. simpl in *. by rewrite Hl, Hr.
  - destruct T as [|l' v' r']; [by rewrite tsub_Leaf in Hsub|].
    destruct b; simpl in *;
      rewrite ?(valued_below_clear P _ l v r Hsub Hch) by done;
      by rewrite ?Hl, ?Hr.
Qed.

Lemma valued_below_tprune P : forall T,
  valued_below T = true -> valued_below (tprune T P) = true.
Proof.
  induction P as [|b P IH]; intros T HT; [done|].
  destruct T as [|l v r]; [done|].
  apply valued_below_Br in HT as (_ & Hl & Hr). simpl.
  destruct (_ && _ && _) eqn:E; [done|]. apply valued_below_Br.
  split.
  - intros El Er. rewrite El, Er in E. simpl in E. by apply is_nil_false.
  - destruct b; split; try done; by apply IH.
Qed.

Lemma valued_tcut T P : valued T = true -> valued (tcut T P) = true.
Proof.
  unfold valued. intros HT. apply andb_true_iff in HT as [Hl Hr].
  destruct P as [|b P], T as [|l v r]; simpl in *; try by rewrite ?Hl, ?Hr.
  destruct b; simpl; rewrite ?valued_below_tprune by done;
    by rewrite ?Hl, ?Hr.
Qed.

Lemma valued_below_tsub P : forall T,
  valued_below T = true -> valued_below (tsub T P) = true.
Proof.
  induction P as [|b P IH]; intros T HT; [done|].
  destruct T as [|l v r]; [by rewrite tsub_Leaf|].
  apply valued_below_Br in HT as (_ & Hl & Hr).
  destruct b; simpl; by apply IH.
Qed.

(** Below the root of such a tree, a node without value has a child. *)
Lemma valued_has_child T P l v r :
  valued T = true -> P <> [] -> tsub T P = Br l v r -> v = Nil ->
  negb (is_leaf r) || negb (is_leaf l) = true.
Proof.
  unfold valued. intros HT HP Hsub ->. apply andb_true_iff in HT as [Hl Hr].
  destruct P as [|b P]; [done|]. simpl in Hsub.
  assert (valued_below (tsub (tchild T b) P) = true) as Hb.
  { apply valued_below_tsub. by destruct b. }
  rewrite Hsub in Hb. apply valued_below_Br in Hb as (Hv & _).
  destruct (is_leaf l) eqn:El, (is_leaf r) eqn:Er; try done.
  by destruct Hv.
Qed.

(** ** Depth *)

Lemma depth_tinsert P : forall T val,
  depth (tinsert T P val) <= Nat.max (depth T) (S (length P)).
Proof.
  induction P as [|b P IH]; intros T val.
  - destruct T; simpl; lia.
  - pose proof (IH Leaf val) as IHl. simpl in IHl.
    destruct T as [|l v r], b; simpl tinsert; cbn [depth length].
    + lia.
    + lia.
    + pose proof (IH r val). lia.
    + pose proof (IH l val). lia.
Qed.

Lemma depth_tinsert_in P : forall T val,
  tsub T P <> Leaf -> depth (tinsert T P val) = depth T.
Proof.
  induction P as [|b P IH]; intros T val Hsub.
  - destruct T; [done|]. done.
  - destruct T as [|l v r]; [by rewrite tsub_Leaf in Hsub|].
    destruct b; simpl in *; by rewrite IH.
Qed.

Lemma depth_tprune P : forall T, depth (tprune T P) <= depth T.
Proof.
  induction P as [|b P IH]; intros T; [simpl; lia|].
  destruct T as [|l v r]; [done|]. simpl.
  destruct (_ && _ && _); [simpl; lia|].
  destruct b; simpl.
  - pose proof (IH r). lia.
  - pose proof (IH l). lia.
Qed.

Lemma depth_tcut T P : depth (tcut T P) <= depth T.
Proof.
  destruct P as [|b P], T as [|l v r]; simpl; try lia.
  destruct b; simpl.
  - pose proof (depth_tprune P r). lia.
  - pose proof (depth_tprune P l). lia.
Qed.

Lemma depth_tsub P : forall T, tsub T P <> Leaf -> length P < depth T.
Proof.
  induction P as [|b P IH]; intros T Hsub.
  - destruct T; [done|]. simpl. lia.
  - destruct T as [|l v r]; [by rewrite tsub_Leaf in Hsub|].
    destruct b; simpl in *; apply IH in Hsub; lia.
Qed.

(** A node at the largest depth has no child; so it carries a value. *)
Lemma valued_end T P :
  valued T = true -> P <> [] -> depth T <= S (length P) ->
  tvalue (tsub T P) = Nil -> tsub T P = Leaf.
Proof.
  intros HT HP Hd Hv. destruct (tsub T P) as [|l v r] eqn:E; [done|].
  simpl in Hv. pose proof (valued_has_child _ _ _ _ _ HT HP E Hv) as Hch.
  exfalso. apply orb_true_iff in Hch as [Hc|Hc]; apply negb_true_iff in Hc.
  - assert (tsub T (P ++ [true]) <> Leaf) as Hn.
    { rewrite tsub_app, E. simpl. by destruct r. }
    apply depth_tsub in Hn. rewrite length_app in Hn. simpl in Hn. lia.
  - assert (tsub T (P ++ [false]) <> Leaf) as Hn.
    { rewrite tsub_app, E. simpl. by destruct l. }
    apply depth_tsub in Hn. rewrite length_app in Hn. simpl in Hn. lia.
Qed.

End ValuedShapes.

Section BuiltTrees.
Context {V : Type}.
Local Abbreviation node := (node (V:=V)).
Local Abbreviation Tree := (Tree (V:=V)).
Local Abbreviation trie := (trie (V:=V)).
Implicit Types (h : list node) (t : Tree) (T : trie) (S : gset nat)
  (L R : list nat) (p : ptr) (n : node) (a x c : nat) (b : bool)
  (bs P Q : list bool) (val v : any V) (key mask : list Z) (w : nat).

Local Open Scope nat_scope.

Lemma built_inv w t :
  built w t ->
  exists T S L, WF t T S L /\ valued T = true /\ depth T <= Datatypes.S (8 * w).
Proof.
  induction 1 as [p t Hnew|t key mask val ow e t' _ IH Hw Hval Hins
                 |t key mask wr e t' _ IH Hdel].
  - rewrite NewTree_eq in Hnew. injection Hnew as <-.
    eexists _, _, _. split; [apply first_tree_WF|]. split; [done|simpl; lia].
  - destruct IH as (T & S & L & HWF & HT & Hd).
    destruct (decide (length key = length mask)) as [Hlen|Hlen].
    2:{ unfold insert in Hins. rewrite (length_mismatch _ _ Hlen) in Hins.
        injection Hins as <- <-. by exists T, S, L. }
    destruct key as [|k key].
    { destruct mask; [|done]. by rewrite insert_empty_key in Hins. }
    destruct (insert_WF t T S L (k :: key) mask val ow HWF Hlen)
      as [(_ & _ & E)|(_ & t'' & S' & L' & E & HWF' & _)]; [done| |].
    + rewrite E in Hins. injection Hins as <- <-. by exists T, S, L.
    + rewrite E in Hins. injection Hins as <- <-.
      eexists _, S', L'. split; [done|]. split; [by apply valued_tinsert|].
      pose proof (depth_tinsert (key_prefix (k :: key) mask) T val).
      pose proof (prefix_length (k :: key) mask). lia.
  - destruct IH as (T & S & L & HWF & HT & Hd).
    destruct (decide (length key = length mask)) as [Hlen|Hlen].
    2:{ unfold delete in Hdel. rewrite (length_mismatch _ _ Hlen) in Hdel.
        injection Hdel as <- <-. by exists T, S, L. }
    destruct key as [|k key].
    { destruct mask; [|done].
      rewrite delete_empty_key in Hdel; [done|]. apply (wf_root _ _ _ _ HWF). }
    pose proof (delete_WF t T S L (k :: key) mask wr HWF Hlen) as Hdw.
    cbv zeta in Hdw.
    destruct (tsub T (key_prefix (k :: key) mask)) as [|l v r] eqn:EP.
    { rewrite Hdw in Hdel by done. injection Hdel as <- <-. by exists T, S, L. }
    destruct (negb wr && _) eqn:Etest.
    + destruct (is_nil v).
      * rewrite Hdw in Hdel by done. injection Hdel as <- <-.
        by exists T, S, L.
      * destruct Hdw as (t'' & E & HWF' & _); [done|].
        rewrite E in Hdel. injection Hdel as <- <-.
        apply andb_true_iff in Etest as [_ Etest].
        eexists _, S, L. split; [done|].
        split; [by eapply valued_clear|].
        rewrite depth_tinsert_in; [done|]. by rewrite EP.
    + destruct (key_prefix (k :: key) mask) as [|b P'].
      * rewrite Hdw in Hdel by done. done.
      * destruct Hdw as (t'' & S' & R & E & HWF' & _); [done|].
        rewrite E in Hdel. injection Hdel as <- <-.
        eexists _, S', (R ++ L). split; [done|].
        split; [by apply valued_tcut|].
        pose proof (depth_tcut T (b :: P')). lia.
Qed.

(** X12. In a tree built from keys of [w] bytes and payloads that are
    values, no node lies deeper than [8 * w] bits, and below the root
    every node without children carries a value: the trimming loop of
    [delete] leaves no dead branch. *)
Theorem built_shape w t bs n :
  built w t -> node_at t bs = Some n ->
  length bs <= 8 * w
  /\ (bs <> [] -> left n = None -> right n = None -> value n <> Nil).
Proof.
  intros Hb Hn. destruct (built_inv _ _ Hb) as (T & S & L & H & HT & Hd).
  destruct (node_at_shape _ _ _ _ _ _ H Hn) as (l & r & E & Hl & Hr).
  split.
  - assert (tsub T bs <> Leaf) as Hne by (by rewrite E).
    apply depth_tsub in Hne. lia.
  - intros Hbs El Er Hv.
    pose proof (valued_has_child _ _ _ _ _ HT Hbs E Hv) as Hch.
    rewrite Hl, Hr, El, Er in Hch. done.
Qed.

(** X13. In a tree built from keys of [w] bytes and payloads that are
    values, [find] on a key of [w] bytes returns the value of the longest
    registered prefix of the bits that the mask covers, nil when there is
    none. *)
Theorem find_on_built_tree w t key mask :
  built w t -> length key = w -> length mask = w -> w <> 0 ->
  exists v, find t key mask = Done v
            /\ longest_match t (key_prefix key mask) v.
Proof.
  intros Hb Hk Hm Hw. destruct (built_inv _ _ Hb) as (T & S & L & H & HT & Hd).
  assert (key <> []) as Hkey by (intros ->; done).
  apply find_longest_match; [by exists T, S, L|congruence|done|].
  intros Hfull Hv. apply (node_at_WF _ _ _ _ _ H).
  rewrite (stored_WF _ _ _ _ _ H) in Hv.
  unfold full_mask in Hfull. apply Nat.eqb_eq in Hfull.
  apply valued_end; [done| |lia|done].
  intros E. rewrite E in Hfull. simpl in Hfull. lia.
Qed.

(** X14. In a tree built from payloads that are values, the exact
    delete of a prefix below the root returns [ErrNotFound] when the
    prefix is not registered, and succeeds when it is. *)
Theorem exact_delete_on_built_tree w t key mask :
  built w t -> length key = length mask -> key <> [] ->
  key_prefix key mask <> [] ->
  (~ registered t (key_prefix key mask) ->
   delete t key mask false = Done (Some ErrNotFound, t))
  /\ (registered t (key_prefix key mask) ->
      exists t', delete t key mask false = Done (None, t')
                 /\ built w t'
                 /\ ~ registered t' (key_prefix key mask)).
Proof.
  intros Hb Hlen Hkey HP.
  destruct (built_inv _ _ Hb) as (T & S & L & H & HT & Hd).
  unfold registered. rewrite (stored_WF _ _ _ _ _ H). split.
  - intros Hreg. apply (delete_not_found_WF t T S L); try done.
    destruct (tsub T (key_prefix key mask)) as [|l v r] eqn:E; [by left|].
    right. split; [done|]. simpl in Hreg.
    assert (v = Nil) as ->.
    { apply is_nil_true. destruct (is_nil v) eqn:Ev; [done|].
      by apply is_nil_false in Ev. }
    exists l, r. split; [done|]. by eapply valued_has_child.
  - intros Hreg.
    destruct (exact_delete_WF t T S L key mask H Hlen Hkey Hreg)
      as (t' & T' & S' & L' & E & H' & _ & Hat); [by left|].
    exists t'. split; [done|]. split; [by eapply built_delete|].
    rewrite (stored_WF _ _ _ _ _ H'). intros Hx. apply Hx.
    by destruct Hat as [->|(l & r & -> & _)].
Qed.

End BuiltTrees.

(** * The allocator and the tree *)

Section MoreAlloc.
Context {V : Type}.
Local Abbreviation node := (node (V:=V)).
Local Abbreviation Tree := (Tree (V:=V)).
Local Abbreviation trie := (trie (V:=V)).
Implicit Types (h : list node) (t : Tree) (T : trie) (S : gset nat)
  (L : list nat) (p : ptr) (n : node) (a x : nat) (bs : list bool).

Local Open Scope nat_scope.

Lemma walk_frame h h' bs : forall T p (pp : ptr) S,
  repr h T p pp S -> (forall x, x ∈ S -> h' !! x = h !! x) ->
  walk h' p bs = walk h p bs.
Proof.
  induction bs as [|b bs IH]; intros T p pp S H Hfr; [done|].
  destruct p as [a|]; [|done].
  pose proof (repr_root_in _ _ _ _ _ H) as Ha.
  apply repr_Some in H
    as (l & r & n & Sl & Sr & -> & Hn & _ & Hl & Hr & _ & _ & _ & ->).
  simpl. rewrite (Hfr a Ha), Hn.
  apply (IH _ _ _ _ (repr_child _ _ b _ _ _ _ _ Hl Hr)).
  intros x Hx. apply Hfr. destruct b; set_solver.
Qed.

(** X19. On a well-formed tree [newnode] returns a cell that is no
    node of the tree, and it leaves the tree as it is: every prefix has
    the node it had, with the fields it had, and the state stays well
    formed. *)
Theorem newnode_keeps_tree t :
  well_formed t ->
  exists a t',
    newnode t = Done (Some a, t')
    /\ well_formed t'
    /\ (forall bs, walk (heap t) (root t) bs <> Some a)
    /\ (forall bs, walk (heap t') (root t') bs = walk (heap t) (root t) bs)
    /\ (forall bs, node_at t' bs = node_at t bs).
Proof.
  intros (T & S & L & H).
  destruct (newnode_spec _ _ (wf_alloc _ _ _ _ H))
    as (a & t' & L' & E & Hz & Hroot & Hal & Hav & Hlt & Hle & Hav' & Hfr & _).
  assert (forall x, x ∈ S -> ~ avail t L x) as Hsep.
  { intros x Hx [HL|Hb]; destruct (wf_sep _ _ _ _ H x Hx) as [? ?];
      [done|lia]. }
  assert (forall x, x ∈ S -> heap t' !! x = heap t !! x) as HfrS.
  { intros x Hx. by apply Hfr, Hsep. }
  assert (forall bs, walk (heap t') (root t') bs = walk (heap t) (root t) bs)
    as Hwalk.
  { intros bs. rewrite Hroot.
    exact (walk_frame _ _ bs _ _ _ _ (wf_repr _ _ _ _ H) HfrS). }
  exists a, t'. split; [done|]. split; [|split; [|split; [done|]]].
  - exists T, S, L'. split.
    + rewrite Hroot. eapply repr_frame; [apply (wf_repr _ _ _ _ H)|].
      intros x Hx. by apply HfrS.
    + rewrite Hroot. apply (wf_root _ _ _ _ H).
    + done.
    + intros x Hx. destruct (wf_sep _ _ _ _ H x Hx) as [HxL Hxb]. split; [|lia].
      intros HxL'. destruct (Hav' x) as [Hx' _]; [by left|].
      by apply (Hsep x Hx).
  - intros bs Hw. apply (Hsep a); [|done]. by eapply walk_in.
  - intros bs. unfold node_at. rewrite Hwalk.
    destruct (walk (heap t) (root t) bs) as [x|] eqn:Ew; [|done].
    apply HfrS. by eapply walk_in.
Qed.

End MoreAlloc.

(** * parsecidr *)

Section MoreParse.
Context {V : Type}.
Local Abbreviation Tree := (Tree (V:=V)).
Variable ParseIP : string -> list Z.
Variable ParseCIDR : string -> list Z * list Z * option error.

Lemma Size_CIDRMask_32 n : 0 <= n <= 32 -> Size (CIDRMask n 32) = (n, 32).
Proof.
  intros Hn. assert (exists k : nat, n = Z.of_nat k /\ (k <= 32)%nat) as (k & -> & Hk).
  { exists (Z.to_nat n). lia. }
  do 33 (destruct k as [|k]; [vm_compute; reflexivity|]). lia.
Qed.

Lemma bits_CIDRMask_128 (k : nat) :
  (k <= 128)%nat ->
  bits (CIDRMask (Z.of_nat k) 128)
  = replicate k true ++ replicate (128 - k) false.
Proof.
  intros Hk.
  do 129 (destruct k as [|k]; [vm_compute; reflexivity|]). lia.
Qed.

Lemma prefix_bits_ones (k j : nat) : forall kb : list bool,
  (k <= length kb)%nat ->
  length (prefix_bits kb (replicate k true ++ replicate j false)) = k.
Proof.
  induction k as [|k IH]; intros kb Hk.
  - destruct kb, j; done.
  - destruct kb as [|b kb]; [simpl in Hk; lia|]. simpl. f_equal.
    apply IH. simpl in Hk. lia.
Qed.

Lemma key_prefix_CIDRMask key n :
  length key = 16%nat -> 0 <= n <= 128 ->
  length (key_prefix key (CIDRMask n 128)) = Z.to_nat n.
Proof.
  intros Hkey Hn. unfold key_prefix.
  replace n with (Z.of_nat (Z.to_nat n)) at 1 by lia.
  rewrite bits_CIDRMask_128 by lia. apply prefix_bits_ones.
  rewrite bits_length. lia.
Qed.

Lemma To16_16 ip : length ip = 16%nat -> To16 ip = ip.
Proof. intros H. unfold To16. by rewrite H. Qed.

(** X20. An IPv4 prefix lands 96 bits down.  When the text has a slash
    and a dot, and [net.ParseCIDR] reads it as a 16-byte address with a
    4-byte mask of [n] ones, [parsecidr] returns the address with the
    16-byte mask of [n + 96] ones, and the walks of [insert] and [delete]
    follow [n + 96] bits of the address. *)
Theorem parsecidr_ipv4_depth cidr ip n :
  IndexByte cidr "/"%char <> -1 -> 0 < IndexByte cidr "."%char ->
  ParseCIDR cidr = (ip, CIDRMask n 32, None) ->
  length ip = 16%nat -> 0 <= n <= 32 ->
  parsecidr ParseIP ParseCIDR cidr = (ip, CIDRMask (n + 96) 128, None)
  /\ length (CIDRMask (n + 96) 128) = 16%nat
  /\ length (key_prefix ip (CIDRMask (n + 96) 128)) = Z.to_nat (n + 96).
Proof.
  intros Hslash Hdot Hparse Hip Hn. split; [|split].
  - unfold parsecidr. apply Z.eqb_neq in Hslash. rewrite Hslash, Hparse.
    simpl is_Some_b. cbv iota. rewrite Size_CIDRMask_32 by done.
    apply Z.ltb_lt in Hdot. rewrite Hdot. simpl fst. by rewrite To16_16.
  - pose proof (bits_length (CIDRMask (n + 96) 128)) as Hl.
    replace (n + 96) with (Z.of_nat (Z.to_nat (n + 96))) in Hl by lia.
    rewrite bits_CIDRMask_128 in Hl by lia.
    rewrite length_app, !length_replicate in Hl.
    replace (Z.of_nat (Z.to_nat (n + 96))) with (n + 96) in Hl by lia. lia.
  - apply key_prefix_CIDRMask; [done|lia].
Qed.

(** X21. The test of line 307 looks for a dot in the text.  When the
    text has a slash and a dot, and [net.ParseCIDR] reads it as a 16-byte
    address with a mask of more than 32 ones, as it does for an IPv6
    prefix written with a dotted tail, [parsecidr] adds 96 to the length,
    the mask it returns is nil, and every method returns [ErrBadIP],
    [FindCIDR] as its value. *)
Theorem parsecidr_dotted_ipv6 cidr ip m (t : Tree) val :
  IndexByte cidr "/"%char <> -1 -> 0 < IndexByte cidr "."%char ->
  ParseCIDR cidr = (ip, m, None) ->
  length ip = 16%nat -> 32 < fst (Size m) ->
  parsecidr ParseIP ParseCIDR cidr = (ip, [], None)
  /\ AddCIDR ParseIP ParseCIDR t cidr val = Done (Some ErrBadIP, t)
  /\ SetCIDR ParseIP ParseCIDR t cidr val = Done (Some ErrBadIP, t)
  /\ DeleteCIDR ParseIP ParseCIDR t cidr = Done (Some ErrBadIP, t)
  /\ DeleteWholeRangeCIDR ParseIP ParseCIDR t cidr = Done (Some ErrBadIP, t)
  /\ FindCIDR ParseIP ParseCIDR t cidr = Done (Err ErrBadIP, None).
Proof.
  intros Hslash Hdot Hparse Hip Hn.
  assert (parsecidr ParseIP ParseCIDR cidr = (ip, [], None)) as E.
  { unfold parsecidr. apply Z.eqb_neq in Hslash. rewrite Hslash, Hparse.
    simpl is_Some_b. cbv iota. apply Z.ltb_lt in Hdot. rewrite Hdot.
    rewrite To16_16 by done. f_equal. f_equal. unfold CIDRMask. simpl negb.
    simpl andb. cbv iota.
    replace (128 <? fst (Size m) + 96) with true
      by (symmetry; apply Z.ltb_lt; lia).
    by rewrite orb_true_r. }
  assert (length ip <> length (@nil Z)) as Hne by (rewrite Hip; done).
  split; [done|].
  unfold AddCIDR, SetCIDR, DeleteCIDR, DeleteWholeRangeCIDR, FindCIDR.
  rewrite E. simpl is_Some_b. cbv iota.
  unfold insert, delete. rewrite (find_mismatch _ _ _ Hne).
  by rewrite (length_mismatch _ _ Hne).
Qed.

End MoreParse.

(** * The bits of the key that count *)

Section HostBits.
Context {V : Type}.
Local Abbreviation Tree := (Tree (V:=V)).
Implicit Types (t : Tree) (val : any V) (key mask : list Z).

Local Arguments loop_fuel : simpl never.

(** X25. The operations read the key through the bits in front of the
    first zero bit of the mask, and through no other bit: with two keys
    that have these bits in common, [insert], [delete] and [find] do the
    same and return the same. *)
Theorem host_bits_ignored t key key' mask val ow wr :
  root t <> None ->
  length key = length mask -> length key' = length mask -> key <> [] ->
  key_prefix key mask = key_prefix key' mask ->
  insert t key mask val ow = insert t key' mask val ow
  /\ delete t key mask wr = delete t key' mask wr
  /\ find t key mask = find t key' mask.
Proof.
  intros Hroot Hlen Hlen' Hkey Hpre.
  assert (key' <> []) as Hkey'.
  { intros ->. destruct key; [done|]. by destruct mask. }
  assert (loop_fuel key = loop_fuel key') as Hfuel.
  { unfold loop_fuel. congruence. }
  split; [|split].
  - rewrite (insert_insert_p _ _ _ _ _ Hlen Hkey Hroot).
    rewrite (insert_insert_p _ _ _ _ _ Hlen' Hkey' Hroot). by rewrite Hpre.
  - unfold delete. rewrite !length_match by done. cbv iota.
    rewrite (delete_descend_prefix _ _ _ Hlen Hkey).
    rewrite (delete_descend_prefix _ _ _ Hlen' Hkey').
    by rewrite Hpre, Hfuel.
  - rewrite (find_find_p _ _ _ Hlen Hkey), (find_find_p _ _ _ Hlen' Hkey').
    unfold full_mask. rewrite Hpre. do 3 f_equal. congruence.
Qed.

End HostBits.

(** * What becomes of the nodes that delete takes out of the tree *)

Section Recycle.
Context {V : Type}.
Local Abbreviation node := (node (V:=V)).
Local Abbreviation Tree := (Tree (V:=V)).
Local Abbreviation trie := (trie (V:=V)).
Implicit Types (h : list node) (t : Tree) (T Td To Tc : trie)
  (S Sd So Sc : gset nat)
  (L R : list nat) (p : ptr) (n : node) (a x c q par : nat) (b : bool)
  (bs : list bool) (val v : any V) (key mask : list Z).

Local Open Scope nat_scope.

Local Arguments delete_trim : simpl never.
Local Arguments loop_fuel : simpl never.

(** The trimming loop once more, with the account of the nodes: a node of
    the tree of [c] is still in it, or it went to the free list, or it
    hangs below the node [a] at which the loop started. *)
Lemma trim_sub_all bs : forall t c par b0 pn Tc Sc L a f,
  repr (heap t) Tc (Some c) (Some par) Sc ->
  walk (heap t) (Some c) bs = Some a ->
  heap t !! par = Some pn -> child pn b0 = Some c ->
  child pn (negb b0) <> Some c ->
  par ∉ Sc ->
  flist (heap t) (free t) L -> (forall x, x ∈ Sc -> x ∉ L) -> par ∉ L ->
  (tprune Tc bs <> Leaf /\ exists t' Sc' R,
      delete_trim (length bs + 1 + f) t (Some a) = Done t'
      /\ repr (heap t') (tprune Tc bs) (Some c) (Some par) Sc'
      /\ heap t' !! par = Some pn
      /\ shrinks t t' L R Sc Sc' par
      /\ (forall x, x ∈ Sc ->
            x ∈ Sc' \/ x ∈ R
            \/ exists e, e <> [] /\ walk (heap t) (Some a) e = Some x))
  \/ (tprune Tc bs = Leaf /\ exists t' R,
      delete_trim (length bs + 1 + f) t (Some a) = check_up f t' (Some par)
      /\ heap t' !! par = Some (set_child pn b0 None)
      /\ shrinks t t' L R Sc ∅ par
      /\ (forall x, x ∈ Sc ->
            x ∈ R \/ exists e, e <> [] /\ walk (heap t) (Some a) e = Some x)).
Proof.
  induction bs as [|b bs IH];
    intros t c par b0 pn Tc Sc L a f Hrepr Hwalk Hpar Hch Hoth HparS Hfl Hsep HparL.
  - (* the node to unlink is [c] *)
    simpl in Hwalk. injection Hwalk as <-. right. split; [done|].
    pose proof (repr_root_in _ _ _ _ _ Hrepr) as HcS.
    assert (c <> par) as Hne by (intros ->; done).
    pose proof Hrepr as Hrepr0.
    apply repr_Some in Hrepr as (l & r & nc & Sl & Sr & -> & Hc & Hp & _).
    change (length [] + 1 + f) with (S f). rewrite delete_trim_S.
    rewrite (unlink_spec _ _ _ _ _ _ Hc Hp Hpar Hch Hoth Hne). simpl bind.
    eexists _, [c]. split; [done|]. simpl. split.
    { rewrite lookup_update_ne by done. by eapply lookup_update_eq. }
    split; [split; simpl; try done|].
    + by rewrite !length_insert.
    + split; [done|]. exists (set_right nc (free t)). split.
      * eapply lookup_update_eq. by rewrite lookup_update_ne.
      * simpl. eapply flist_frame; [done|]. intros x Hx.
        rewrite !lookup_update_ne; [done|by intros ->|].
        intros ->. by apply (Hsep c).
    + apply NoDup_singleton.
    + intros x Hx. apply list_elem_of_singleton in Hx as ->. done.
    + intros x Hx HxS. rewrite !lookup_update_ne; [done|done|].
      by intros ->.
    + intros x Hx.
      destruct (repr_reach _ _ _ _ _ x Hrepr0 Hx) as [[|b' e] He].
      * simpl in He. injection He as <-. left. apply list_elem_of_singleton. done.
      * right. by exists (b' :: e).
  - (* the path goes on below [c] *)
    pose proof (repr_root_in _ _ _ _ _ Hrepr) as HcS.
    assert (c <> par) as Hne by (intros ->; done).
    apply (repr_side b) in Hrepr
      as (nc & Td & To & Sd & So & -> & Hc & Hp & Hd & Ho & HcSd & HcSo & Hdis & ->).
    simpl in Hwalk. rewrite Hc in Hwalk.
    destruct (child nc b) as [d|] eqn:Ed; [|by rewrite walk_None in Hwalk].
    pose proof (repr_root_in _ _ _ _ _ Hd) as HdS.
    assert (child nc (negb b) <> Some d) as Hoth'.
    { intros E. rewrite E in Ho. apply repr_root_in in Ho. set_solver. }
    rewrite tprune_tnode.
    replace (length (b :: bs) + 1 + f) with (length bs + 1 + S f)
      by (simpl; lia).
    destruct (IH t d c b nc Td Sd L a (S f) Hd Hwalk Hc Ed Hoth' HcSd Hfl)
      as [(Hnl & t' & Sd' & R & Htrim & Hrepr' & Hc' & Sh & Hcov)
         |(Hl & t' & R & Htrim & Hc' & Sh & Hcov)].
    { intros x Hx. apply Hsep. set_solver. }
    { apply Hsep. set_solver. }
    + (* the loop stopped below [c] *)
      left. destruct (tprune Td bs) as [|l' v' r'] eqn:Etp; [done|].
      simpl is_leaf. simpl andb. cbv iota.
      split; [apply tnode_not_leaf|].
      destruct Sh as [S1 S2 S3 S4 S5 S6 S7 S8 S9 S10 S11].
      exists t', ({[c]} ∪ Sd' ∪ So), R. split; [done|]. split.
      { apply repr_tnode; try done.
        - by rewrite Ed.
        - eapply repr_frame; [exact Ho|]. intros x Hx. apply S11; set_solver.
        - intros Hx. apply S10 in Hx. set_solver.
        - intros x Hx1 Hx2. apply S10 in Hx1. set_solver. }
      split.
      { rewrite S11; [done|set_solver|done]. }
      split; [split; try done|].
      * intros x Hx. apply S9 in Hx. set_solver.
      * intros x Hx. split; [|].
        -- destruct (decide (x ∈ Sd')) as [H'|H']; [apply S10 in H'|]; set_solver.
        -- intros HxR. pose proof (S9 _ HxR) as HxSd.
           destruct (decide (x ∈ Sd')) as [H'|H']; [by apply S10 in H' as [_ ?]|].
           set_solver.
      * intros x Hx Hxp. apply S11; [set_solver|]. set_solver.
      * intros x Hx. destruct (decide (x ∈ Sd)) as [HxSd|HxSd].
        -- destruct (Hcov x HxSd) as [?|[?|?]];
             [left; set_solver|by right; left|by right; right].
        -- left. set_solver.
    + (* [d] was recycled: the loop tests [c] *)
      rewrite Hl. simpl is_leaf. simpl andb.
      destruct Sh as [S1 S2 S3 S4 S5 S6 S7 S8 S9 S10 S11].
      assert (heap t' !! par = Some pn) as Hpar'.
      { rewrite S11; [done|set_solver|done]. }
      assert (repr (heap t') To (child nc (negb b)) (Some c) So) as Ho'.
      { eapply repr_frame; [exact Ho|]. intros x Hx. apply S11; set_solver. }
      rewrite Htrim. unfold check_up. rewrite (load_Some _ _ _ Hc'). simpl bind.
      rewrite (right_left_child _ b), child_set_child, child_set_child_other,
        value_set_child, parent_set_child, Hp.
      simpl is_null. simpl negb. simpl orb.
      rewrite <- (repr_is_leaf _ _ _ _ _ Ho).
      destruct (is_leaf To && is_nil (value nc)) eqn:Etest.
      * (* [c] has nothing left: it is recycled too *)
        right. split; [done|].
        apply andb_true_iff in Etest as [E1 E2]. rewrite E1, E2. simpl.
        rewrite delete_trim_S.
        rewrite (unlink_spec t' c _ par pn b0 Hc'); try done.
        2:{ by rewrite parent_set_child. }
        simpl bind. eexists _, (c :: R). split; [done|]. simpl. split.
        { rewrite lookup_update_ne by done. by eapply lookup_update_eq. }
        split; [split; simpl; try done|].
        -- by rewrite !length_insert.
        -- split; [done|]. eexists. split.
           ++ eapply lookup_update_eq. by rewrite lookup_update_ne.
           ++ simpl. eapply flist_frame; [done|]. intros x Hx.
              rewrite !lookup_update_ne; [done| |].
              ** intros ->. apply elem_of_app in Hx as [Hx|Hx].
                 --- apply S9 in Hx. set_solver.
                 --- done.
              ** intros ->. apply elem_of_app in Hx as [Hx|Hx].
                 --- apply S9 in Hx. set_solver.
                 --- apply (Hsep c); [set_solver|done].
        -- apply NoDup_cons. split; [|done]. intros Hx. apply S9 in Hx. set_solver.
        -- intros x Hx. apply elem_of_cons in Hx as [->|Hx]; [set_solver|].
           apply S9 in Hx. set_solver.
        -- intros x Hx HxS. rewrite !lookup_update_ne; [|done|set_solver].
           apply S11; set_solver.
        -- intros x Hx.
           assert (So = ∅) as HSo.
           { destruct To; [by destruct Ho|done]. }
           destruct (decide (x ∈ Sd)) as [HxSd|HxSd].
           ++ destruct (Hcov x HxSd) as [?|?]; [|by right].
              left. apply elem_of_cons. by right.
           ++ left. apply elem_of_cons. left. set_solver.
      * (* [c] stays *)
        left. split; [apply tnode_not_leaf|].
        assert (negb (is_leaf To) || negb (is_nil (value nc)) = true) as ->.
        { apply andb_false_iff in Etest as [->| ->]; [done|apply orb_true_r]. }
        exists t', ({[c]} ∪ ∅ ∪ So), R. split; [done|]. split.
        { rewrite <- (value_set_child nc b None).
          apply repr_tnode; try done.
          - by rewrite parent_set_child.
          - by rewrite child_set_child.
          - by rewrite child_set_child_other. }
        split; [done|]. split; [split; try done|].
        -- intros x Hx. apply S9 in Hx. set_solver.
        -- intros x Hx. split; [set_solver|]. intros HxR. apply S9 in HxR.
           set_solver.
        -- intros x Hx Hxp. apply S11; set_solver.
        -- intros x Hx. destruct (decide (x ∈ Sd)) as [HxSd|HxSd].
           ++ destruct (Hcov x HxSd) as [?|?]; [by right; left|by right; right].
           ++ left. set_solver.
Qed.

(** The same on a well-formed tree, from a node below the root. *)
Lemma trim_root_all t T S L b bs a f :
  WF t T S L ->
  walk (heap t) (root t) (b :: bs) = Some a ->
  exists t' S' R,
    delete_trim (length (b :: bs) + f) t (Some a) = Done t'
    /\ WF t' (tcut T (b :: bs)) S' (R ++ L)
    /\ root t' = root t
    /\ R <> [] /\ (forall x, x ∈ R -> x ∈ S /\ (x ∉ S'))
    /\ (forall x, x ∈ S ->
          x ∈ S' \/ x ∈ R
          \/ exists e, e <> [] /\ walk (heap t) (Some a) e = Some x).
Proof.
  intros [Hrepr Hroot [Hfl Hnd Hbd Hlen Hcap Hzero] Hsep] Hwalk.
  destruct (root t) as [r|] eqn:Er; [|done].
  pose proof (repr_root_in _ _ _ _ _ Hrepr) as HrS.
  apply (repr_side b) in Hrepr
    as (nr & Td & To & Sd & So & -> & Hr & Hp & Hd & Ho & HrSd & HrSo & Hdis & ->).
  simpl in Hwalk. rewrite Hr in Hwalk.
  destruct (child nr b) as [d|] eqn:Ed; [|by rewrite walk_None in Hwalk].
  pose proof (repr_root_in _ _ _ _ _ Hd) as HdS.
  assert (child nr (negb b) <> Some d) as Hoth.
  { intros E. rewrite E in Ho. apply repr_root_in in Ho. set_solver. }
  rewrite tcut_tnode.
  replace (length (b :: bs) + f) with (length bs + 1 + f) by (simpl; lia).
  assert (exists t' Sd' R,
    delete_trim (length bs + 1 + f) t (Some a) = Done t'
    /\ repr (heap t') (tnode b (tprune Td bs) (value nr) To) (Some r) None
             ({[r]} ∪ Sd' ∪ So)
    /\ shrinks t t' L R Sd Sd' r
    /\ (forall x, x ∈ Sd ->
          x ∈ Sd' \/ x ∈ R
          \/ exists e, e <> [] /\ walk (heap t) (Some a) e = Some x))
    as (t' & Sd' & R & Htrim & Hrepr' & Sh & Hcov).
  { destruct (trim_sub_all bs t d r b nr Td Sd L a f Hd Hwalk Hr Ed Hoth HrSd Hfl)
      as [(Hnl & t' & Sd' & R & Htrim & Hrepr' & Hr' & Sh & Hcov)
         |(Hl & t' & R & Htrim & Hr' & Sh & Hcov)].
    { intros x Hx. apply Hsep. set_solver. }
    { apply Hsep. set_solver. }
    - exists t', Sd', R. split; [done|]. split; [|by split].
      destruct Sh as [S1 S2 S3 S4 S5 S6 S7 S8 S9 S10 S11].
      apply repr_tnode; try done.
      + by rewrite Ed.
      + eapply repr_frame; [exact Ho|]. intros x Hx. apply S11; set_solver.
      + intros Hx. apply S10 in Hx. set_solver.
      + intros x Hx1 Hx2. apply S10 in Hx1. set_solver.
    - exists t', ∅, R. split; [|split; [|split; [done|]]].
      + rewrite Htrim. unfold check_up. rewrite (load_Some _ _ _ Hr').
        simpl bind. rewrite parent_set_child, Hp. simpl is_null.
        by destruct (_ || _).
      + destruct Sh as [S1 S2 S3 S4 S5 S6 S7 S8 S9 S10 S11].
        rewrite Hl. rewrite <- (value_set_child nr b None).
        apply repr_tnode; try done.
        * by rewrite parent_set_child.
        * by rewrite child_set_child.
        * rewrite child_set_child_other.
          eapply repr_frame; [exact Ho|]. intros x Hx. apply S11; set_solver.
      + intros x Hx. right. by apply Hcov. }
  destruct Sh as [S1 S2 S3 S4 S5 S6 S7 S8 S9 S10 S11].
  assert (bound t' = bound t) as Eb by (unfold bound; congruence).
  exists t', ({[r]} ∪ Sd' ∪ So), R. split; [done|].
  split; [|split; [congruence|split; [done|split]]].
  - split.
    + by rewrite S1, Er.
    + by rewrite S1, Er.
    + split.
      * done.
      * apply NoDup_app. split; [done|]. split; [|done].
        intros x Hx. apply S9 in Hx. apply Hsep. set_solver.
      * intros x Hx. rewrite Eb. apply elem_of_app in Hx as [Hx|Hx]; [|by apply Hbd].
        apply S9 in Hx. apply Hsep. set_solver.
      * congruence.
      * congruence.
      * intros x H1 H2. rewrite Eb in H1. rewrite S5 in H2.
        rewrite S11; [by apply Hzero| |].
        -- intros Hx. assert (x < bound t); [apply Hsep; set_solver|lia].
        -- intros ->. assert (r < bound t); [apply Hsep; set_solver|lia].
    + intros x Hx. rewrite Eb.
      assert (x ∈ {[r]} ∪ Sd ∪ So /\ (x ∉ R)) as [HxS HxR].
      { destruct (decide (x ∈ Sd')) as [H'|H'].
        - apply S10 in H' as [? ?]. split; [set_solver|done].
        - split; [set_solver|]. intros HxR. apply S9 in HxR. set_solver. }
      destruct (Hsep x HxS) as [? ?]. split; [|done].
      intros H'. apply elem_of_app in H' as [?|?]; done.
  - intros x Hx. pose proof (S9 _ Hx) as HxSd. split; [set_solver|].
    intros H'. destruct (decide (x ∈ Sd')) as [H''|H''].
    + by apply S10 in H'' as [_ ?].
    + set_solver.
  - intros x Hx. destruct (decide (x ∈ Sd)) as [HxSd|HxSd].
    + destruct (Hcov x HxSd) as [?|[?|?]];
        [left; set_solver|by right; left|by right; right].
    + left. set_solver.
Qed.

Lemma delete_covers t T S L key mask wr t' :
  WF t T S L -> length key = length mask -> key <> [] ->
  delete t key mask wr = Done (None, t') ->
  exists T' S' L',
    WF t' T' S' L'
    /\ forall x, x ∈ S ->
         x ∈ S' \/ x ∈ L'
         \/ (wr = true
             /\ exists a e,
                  walk (heap t) (root t) (key_prefix key mask) = Some a
                  /\ e <> [] /\ walk (heap t) (Some a) e = Some x).
Proof.
  intros HWF Hlen Hkey. unfold delete.
  rewrite (length_match _ _ Hlen). cbv iota.
  rewrite (delete_descend_prefix _ _ _ Hlen Hkey).
  pose proof (prefix_length key mask) as Hle.
  set (P := key_prefix key mask) in *.
  pose proof (wf_repr _ _ _ _ HWF) as Hrepr.
  rewrite (walk_o_repr _ _ _ _ _ P Hrepr). simpl bind.
  destruct (walk_repr _ _ _ _ _ P Hrepr) as (pp & S' & Hsub & Hincl).
  destruct (walk (heap t) (root t) P) as [a|] eqn:Hwalk.
  2:{ apply repr_None in Hsub as [_ _]. done. }
  apply repr_Some in Hsub
    as (l & r & n & Sl & Sr & Esub & Ha & Hp & Hl & Hr & _).
  simpl is_null. cbv iota. rewrite (load_Some _ _ _ Ha). simpl bind.
  destruct (negb wr && _) eqn:Etest.
  - destruct (is_nil (value n)) eqn:Ev; simpl negb; cbv iota; [done|].
    rewrite (modify_Some _ _ _ _ Ha). simpl bind. intros [= <-].
    exists (tinsert T P Nil), S, L. split; [by apply set_value_WF|].
    intros x Hx. by left.
  - destruct P as [|b bs] eqn:EP.
    + (* the node is the root: [node.parent] is nil *)
      simpl in Hwalk. unfold loop_fuel. rewrite delete_trim_S. unfold unlink.
      rewrite (load_Some _ _ _ Ha). simpl bind.
      rewrite Hwalk in Hrepr.
      apply repr_Some in Hrepr as (? & ? & n' & ? & ? & _ & Ha' & Hp' & _).
      assert (n' = n) as -> by congruence. by rewrite Hp'.
    + destruct (trim_root_all t T S L b bs a
                  (loop_fuel key - length (b :: bs)) HWF Hwalk)
        as (t'' & S'' & R & Htrim & HWF' & Hroot' & HR & HRS & Hcov).
      replace (length (b :: bs) + (loop_fuel key - length (b :: bs)))
        with (loop_fuel key) in Htrim by (unfold loop_fuel; lia).
      rewrite Htrim. simpl bind. intros [= <-].
      exists (tcut T (b :: bs)), S'', (R ++ L). split; [done|].
      intros x Hx. destruct (Hcov x Hx) as [?|[?|(e & He & Hw)]].
      * by left.
      * right. left. apply elem_of_app. by left.
      * right. right. split; [|by exists a, e].
        destruct wr; [done|]. exfalso. simpl in Etest.
        apply orb_false_iff in Etest as [Er El].
        apply negb_false_iff in Er, El.
        destruct e as [|b' e]; [done|]. simpl in Hw. rewrite Ha in Hw.
        destruct b'; simpl in Hw.
        -- destruct (right n); [done|]. by rewrite walk_None in Hw.
        -- destruct (left n); [done|]. by rewrite walk_None in Hw.
Qed.

(** X23. No node is lost by an exact delete, and a whole-range delete
    loses none but those that hang below the node of its prefix: after a
    successful [delete], every node that was in the tree is still in the
    tree, or it is on the free list, or the delete was one of a whole
    range and the node was strictly below the node of the prefix. *)
Theorem delete_recycles t key mask wr t' :
  well_formed t -> delete t key mask wr = Done (None, t') ->
  exists L',
    flist (heap t') (free t') L'
    /\ forall bs x, walk (heap t) (root t) bs = Some x ->
         (exists bs', walk (heap t') (root t') bs' = Some x)
         \/ x ∈ L'
         \/ (wr = true
             /\ exists e, e <> [] /\ bs = key_prefix key mask ++ e).
Proof.
  intros (T & S & L & H) Hdel.
  destruct (decide (length key = length mask)) as [Hlen|Hlen].
  2:{ unfold delete in Hdel. by rewrite (length_mismatch _ _ Hlen) in Hdel. }
  assert (key <> []) as Hkey.
  { intros ->. destruct mask; [|done].
    rewrite delete_empty_key in Hdel; [done|]. apply (wf_root _ _ _ _ H). }
  destruct (delete_covers _ _ _ _ _ _ _ _ H Hlen Hkey Hdel)
    as (T' & S' & L' & H' & Hcov).
  exists L'. split; [apply (wf_alloc _ _ _ _ H')|].
  intros bs x Hw. pose proof (walk_in _ _ _ _ _ _ H Hw) as Hx.
  destruct (Hcov x Hx) as [HxS'|[?|(Hwr & a & e & Ha & He & Hwe)]].
  - left. exact (repr_reach _ _ _ _ _ x (wf_repr _ _ _ _ H') HxS').
  - by right; left.
  - right. right. split; [done|]. exists e. split; [done|].
    apply (repr_walk_inj (heap t) bs T (root t) None S _ x
             (wf_repr _ _ _ _ H) Hw).
    by rewrite walk_app, Ha.
Qed.

End Recycle.

(** * The byte parsers of the benchmarks *)

Section Bench.
Implicit Types (s ds rest : list Z) (ip oct num acc c n : Z).

Lemma uint32_small z : 0 <= z < 4294967296 -> uint32 z = z.
Proof. intros H. unfold uint32. by apply Z.mod_small. Qed.

Lemma uint8_small z : 0 <= z < 256 -> uint8 z = z.
Proof. intros H. unfold uint8. by apply Z.mod_small. Qed.

Lemma shl32_8 ip : 0 <= ip < 16777216 -> shl32 ip 8 = ip * 256.
Proof.
  intros H. unfold shl32. change (32 <=? 8) with false. cbv iota.
  rewrite Z.shiftl_mul_pow2 by lia.
  change (2 ^ 8) with 256. apply uint32_small. lia.
Qed.

Lemma digits_value_cons d ds acc :
  digits_value (d :: ds) acc = digits_value ds (acc * 10 + (d - 48)).
Proof. done. Qed.

Lemma digits_value_ge ds : forall acc,
  Forall is_digit ds -> 0 <= acc -> acc <= digits_value ds acc.
Proof.
  induction ds as [|d ds IH]; intros acc Hds Hacc; [by simpl; lia|].
  apply Forall_cons in Hds as [Hd Hds]. unfold is_digit in Hd.
  rewrite digits_value_cons.
  pose proof (IH (acc * 10 + (d - 48)) Hds). lia.
Qed.

Lemma digit_step acc d :
  is_digit d -> 0 <= acc -> acc * 10 + (d - 48) < 4294967296 ->
  uint32 (uint32 (acc * 10) + uint32 (uint8 (d - 48))) = acc * 10 + (d - 48).
Proof.
  unfold is_digit. intros Hd Hacc Hlt.
  rewrite (uint8_small (d - 48)) by lia.
  rewrite (uint32_small (d - 48)) by lia.
  rewrite (uint32_small (acc * 10)) by lia.
  apply uint32_small. lia.
Qed.

(** The loop over a run of digits. *)
Lemma loadip4_digits ds : forall rest ip acc num,
  Forall is_digit ds -> 0 <= acc -> digits_value ds acc <= 255 ->
  loadip4_loop (ds ++ rest) ip acc num
  = loadip4_loop rest ip (digits_value ds acc) num.
Proof.
  induction ds as [|d ds IH]; intros rest ip acc num Hds Hacc Hle; [done|].
  apply Forall_cons in Hds as [Hd Hds]. rewrite digits_value_cons in *.
  pose proof (digits_value_ge ds (acc * 10 + (d - 48)) Hds) as Hge.
  pose proof Hd as Hd'. unfold is_digit in Hd'.
  simpl app. cbn [loadip4_loop].
  replace (d =? 46) with false by (symmetry; apply Z.eqb_neq; lia).
  replace ((48 <=? d) && (d <=? 57)) with true
    by (symmetry; apply andb_true_iff; split; apply Z.leb_le; lia).
  rewrite (digit_step acc d) by (done || lia).
  replace (255 <? acc * 10 + (d - 48)) with false
    by (symmetry; apply Z.ltb_ge; lia).
  apply IH; [done|lia|done].
Qed.

(** The loop at a dot. *)
Lemma loadip4_dot rest ip oct num :
  0 <= ip < 16777216 -> 0 <= oct <= 255 -> 0 <= num < 255 ->
  loadip4_loop (46 :: rest) ip oct num
  = loadip4_loop rest (ip * 256 + oct) 0 (num + 1).
Proof.
  intros Hip Hoct Hnum. cbn [loadip4_loop]. rewrite Z.eqb_refl.
  rewrite (uint32_small (0xffffffff - ip)) by lia.
  replace (4294967295 - ip <? oct) with false
    by (symmetry; apply Z.ltb_ge; lia).
  rewrite shl32_8 by done. rewrite (uint32_small (ip * 256 + oct)) by lia.
  by rewrite (uint8_small (num + 1)) by lia.
Qed.

Lemma loadip4_end ip oct :
  0 <= ip < 16777216 -> 0 <= oct <= 255 ->
  loadip4_loop [] ip oct 3 = (ip * 256 + oct, None).
Proof.
  intros Hip Hoct. cbn [loadip4_loop]. simpl negb. cbv iota.
  rewrite (uint32_small (0xffffffff - ip)) by lia.
  replace (4294967295 - ip <? oct) with false
    by (symmetry; apply Z.ltb_ge; lia).
  rewrite shl32_8 by done. by rewrite (uint32_small (ip * 256 + oct)) by lia.
Qed.

Lemma digits_value_nonneg ds :
  Forall is_digit ds -> 0 <= digits_value ds 0.
Proof. intros H. by apply (digits_value_ge ds 0). Qed.

(** X15. [loadip4] reads four runs of decimal digits, each of a value
    up to 255, that three dots separate, as the address that has these
    values as its bytes, the first one in the highest byte. *)
Theorem loadip4_dotted_quad ds1 ds2 ds3 ds4 :
  Forall is_digit ds1 -> Forall is_digit ds2 ->
  Forall is_digit ds3 -> Forall is_digit ds4 ->
  digits_value ds1 0 <= 255 -> digits_value ds2 0 <= 255 ->
  digits_value ds3 0 <= 255 -> digits_value ds4 0 <= 255 ->
  loadip4 (ds1 ++ 46 :: ds2 ++ 46 :: ds3 ++ 46 :: ds4)
  = (digits_value ds1 0 * 16777216 + digits_value ds2 0 * 65536
     + digits_value ds3 0 * 256 + digits_value ds4 0, None).
Proof.
  intros H1 H2 H3 H4 L1 L2 L3 L4.
  pose proof (digits_value_nonneg _ H1). pose proof (digits_value_nonneg _ H2).
  pose proof (digits_value_nonneg _ H3). pose proof (digits_value_nonneg _ H4).
  unfold loadip4.
  rewrite loadip4_digits by (done || lia). rewrite loadip4_dot by lia.
  rewrite loadip4_digits by (done || lia). rewrite loadip4_dot by lia.
  rewrite loadip4_digits by (done || lia). rewrite loadip4_dot by lia.
  rewrite <- (app_nil_r ds4). rewrite loadip4_digits by (done || lia).
  change (0 + 1 + 1 + 1) with 3. rewrite loadip4_end by lia.
  rewrite app_nil_r. f_equal. lia.
Qed.

Lemma loadip4_loop_accepts s : forall ip oct num r,
  0 <= num < 256 ->
  loadip4_loop s ip oct num = (r, None) ->
  Forall (fun c => c = 46 \/ is_digit c) s
  /\ (num + Z.of_nat (count_occ Z.eq_dec s 46)) mod 256 = 3.
Proof.
  induction s as [|c s IH]; intros ip oct num r Hnum.
  - cbn [loadip4_loop]. destruct (num =? 3) eqn:E; simpl negb; cbv iota; [|done].
    intros _. split; [done|]. apply Z.eqb_eq in E. subst num. done.
  - cbn [loadip4_loop]. destruct (c =? 46) eqn:Ec.
    + apply Z.eqb_eq in Ec. subst c.
      destruct (_ <? oct); [done|]. intros Hl.
      apply IH in Hl as [Hall Hcnt].
      2:{ unfold uint8. apply Z.mod_pos_bound. lia. }
      split; [apply Forall_cons; split; [by left|done]|].
      rewrite count_occ_cons_eq by done.
      unfold uint8 in Hcnt. rewrite Zplus_mod_idemp_l in Hcnt.
      rewrite <- Hcnt. f_equal. lia.
    + destruct ((48 <=? c) && (c <=? 57)) eqn:Ed; [|done].
      destruct (255 <? _); [done|]. intros Hl.
      apply IH in Hl as [Hall Hcnt]; [|done].
      apply andb_true_iff in Ed as [E1 E2].
      apply Z.leb_le in E1, E2. apply Z.eqb_neq in Ec.
      split; [apply Forall_cons; split; [right; unfold is_digit; lia|done]|].
      by rewrite count_occ_cons_neq by done.
Qed.

Lemma loadip4_loop_error s : forall ip oct num r e,
  loadip4_loop s ip oct num = (r, Some e) -> r = 0 /\ e = ErrBadIP.
Proof.
  induction s as [|c s IH]; intros ip oct num r e; cbn [loadip4_loop].
  - destruct (negb _); [by intros [= <- <-]|].
    destruct (_ <? _); [by intros [= <- <-]|done].
  - destruct (c =? 46).
    + destruct (_ <? oct); [by intros [= <- <-]|]. apply IH.
    + destruct (_ && _); [|by intros [= <- <-]].
      destruct (255 <? _); [by intros [= <- <-]|]. apply IH.
Qed.

(** X16. What [loadip4] accepts is made of dots and decimal digits,
    with a number of dots that is 3 modulo 256; the only error that it
    returns is [ErrBadIP], with the address 0. *)
Theorem loadip4_accepts s :
  match loadip4 s with
  | (r, None) =>
      Forall (fun c => c = 46 \/ is_digit c) s
      /\ Z.of_nat (count_occ Z.eq_dec s 46) mod 256 = 3
  | (r, Some e) => r = 0 /\ e = ErrBadIP
  end.
Proof.
  destruct (loadip4 s) as [r [e|]] eqn:E.
  - by apply loadip4_loop_error in E.
  - by apply loadip4_loop_accepts in E.
Qed.

Lemma loadip4_loop_dots k : forall num,
  0 <= num < 256 ->
  loadip4_loop (replicate k 46) 0 0 num
  = if (num + Z.of_nat k) mod 256 =? 3 then (0, None)
    else (0, Some ErrBadIP).
Proof.
  induction k as [|k IH]; intros num Hnum.
  - cbn [replicate loadip4_loop].
    replace (num + Z.of_nat 0) with num by lia. rewrite Z.mod_small by lia.
    destruct (num =? 3); reflexivity.
  - cbn [replicate loadip4_loop]. rewrite Z.eqb_refl.
    change (uint32 (4294967295 - 0) <? 0) with false. cbv iota.
    change (uint32 (shl32 0 8 + 0)) with 0.
    rewrite IH by (unfold uint8; apply Z.mod_pos_bound; lia).
    unfold uint8. rewrite Zplus_mod_idemp_l.
    by replace (num + 1 + Z.of_nat k) with (num + Z.of_nat (S k)) by lia.
Qed.

(** X17. The count of dots of [loadip4] is a byte: a text of
    [3 + 256 * k] dots passes the test on the count, and is read as the
    address 0. *)
Theorem loadip4_dot_count_wraps (k : nat) :
  loadip4 (replicate (3 + 256 * k) 46) = (0, None).
Proof.
  unfold loadip4. rewrite loadip4_loop_dots by lia.
  replace (0 + Z.of_nat (3 + 256 * k)) with (3 + Z.of_nat k * 256) by lia.
  by rewrite Z.mod_add by lia.
Qed.

(** ** parsecidr4 *)

Lemma IndexByte_bytes_from_app s : forall ds i,
  47 ∉ s ->
  IndexByte_bytes_from (s ++ 47 :: ds) 47 i = i + Z.of_nat (length s).
Proof.
  induction s as [|c s IH]; intros ds i Hs.
  - simpl. lia.
  - apply not_elem_of_cons in Hs as [Hc Hs]. simpl.
    replace (c =? 47) with false by (symmetry; apply Z.eqb_neq; congruence).
    rewrite IH by done. lia.
Qed.

Lemma uint32_idemp z : uint32 (uint32 z) = uint32 z.
Proof. unfold uint32. by rewrite Z.mod_mod. Qed.

Lemma uint32_range z : 0 <= uint32 z < 4294967296.
Proof. unfold uint32. apply Z.mod_pos_bound. lia. Qed.

(** One turn of the loop on the mask, with the wrap-around. *)
Lemma mask_step a d :
  is_digit d ->
  uint32 (uint32 (uint32 a * 10) + uint32 (uint8 (d - 48)))
  = uint32 (a * 10 + (d - 48)).
Proof.
  unfold is_digit. intros Hd.
  rewrite (uint8_small (d - 48)) by lia. unfold uint32.
  rewrite Z.mul_mod_idemp_l by lia.
  rewrite Z.add_mod_idemp_l, Z.add_mod_idemp_r by lia. done.
Qed.

Lemma parsecidr4_mask_digits ds : forall a,
  Forall is_digit ds ->
  parsecidr4_mask ds (uint32 a) = Some (uint32 (digits_value ds a)).
Proof.
  induction ds as [|d ds IH]; intros a Hds; [done|].
  apply Forall_cons in Hds as [Hd Hds]. rewrite digits_value_cons.
  pose proof Hd as Hd'. unfold is_digit in Hd'. cbn [parsecidr4_mask].
  replace ((d <? 48) || (57 <? d)) with false
    by (symmetry; apply orb_false_iff; split; apply Z.ltb_ge; lia).
  rewrite (mask_step a d Hd). by apply IH.
Qed.

Lemma shl32_ones n :
  0 <= n < 4294967296 ->
  shl32 0xffffffff (uint32 (32 - n))
  = if n <=? 32 then 4294967296 - 2 ^ (32 - n) else 0.
Proof.
  intros Hn. unfold shl32. destruct (n <=? 32) eqn:E.
  - apply Z.leb_le in E. rewrite (uint32_small (32 - n)) by lia.
    destruct (32 <=? 32 - n) eqn:E0.
    { apply Z.leb_le in E0. by replace n with 0 by lia. }
    rewrite Z.shiftl_mul_pow2 by lia. unfold uint32.
    assert (0 < 2 ^ (32 - n)) as Hpos by (apply Z.pow_pos_nonneg; lia).
    assert (2 ^ (32 - n) * 2 ^ n = 4294967296) as Hsplit.
    { rewrite <- Z.pow_add_r by lia. by replace (32 - n + n) with 32 by lia. }
    replace (4294967295 * 2 ^ (32 - n))
      with ((4294967296 - 2 ^ (32 - n)) + (2 ^ (32 - n) - 1) * 4294967296)
      by lia.
    rewrite Z.mod_add by lia. apply Z.mod_small.
    assert (0 < 2 ^ n) by (apply Z.pow_pos_nonneg; lia). nia.
  - apply Z.leb_gt in E.
    replace (uint32 (32 - n)) with (4294967328 - n).
    2:{ unfold uint32. replace (32 - n) with (4294967328 - n + -1 * 4294967296)
          by lia. rewrite Z.mod_add by lia. rewrite Z.mod_small; lia. }
    replace (32 <=? 4294967328 - n) with true
      by (symmetry; apply Z.leb_le; lia).
    done.
Qed.

(** X18. [parsecidr4] on an address text that is not empty and has no
    slash, a slash and a run of decimal digits.  The prefix length [n]
    is the value of the digits modulo 2^32, as the loop computes it in a
    [uint32].  The address is what [loadip4] reads; the mask has its [n]
    highest bits set when [n] is at most 32, and no bit set when [n] is
    above 32.  An error of [loadip4] is returned with address and
    mask 0. *)
Theorem parsecidr4_prefix_length s ds :
  s <> [] -> 47 ∉ s -> Forall is_digit ds ->
  parsecidr4 (s ++ 47 :: ds)
  = match loadip4 s with
    | (ip, None) =>
        (ip,
         if uint32 (digits_value ds 0) <=? 32
         then 4294967296 - 2 ^ (32 - uint32 (digits_value ds 0)) else 0,
         None)
    | (_, Some e) => (0, 0, Some e)
    end.
Proof.
  intros Hne Hs Hds. unfold parsecidr4, IndexByte_bytes.
  rewrite IndexByte_bytes_from_app by done. rewrite Z.add_0_l.
  assert (0 < Z.of_nat (length s)) as Hpos by (destruct s; [done|simpl; lia]).
  replace (0 <? Z.of_nat (length s)) with true
    by (symmetry; by apply Z.ltb_lt).
  replace (Z.to_nat (Z.of_nat (length s) + 1)) with (length s + 1)%nat by lia.
  rewrite Nat2Z.id.
  rewrite take_app_length.
  replace (drop (length s + 1) (s ++ 47 :: ds)) with ds.
  2:{ rewrite drop_app_add'; done. }
  change 0 with (uint32 0) at 1.
  rewrite parsecidr4_mask_digits by done.
  rewrite shl32_ones by apply uint32_range.
  by destruct (loadip4 s) as [ip [e|]].
Qed.

End Bench.

(** ** The parsecidr of the benchmarks *)

(** X24. The [parsecidr] of the benchmarks is not the one of the
    package.  When the text has a slash and [net.ParseCIDR] reads it as
    a 16-byte address with a 4-byte mask of [n] ones, it returns the
    16-byte mask of [n] ones: the prefix covers [n] bits of the address,
    where the [parsecidr] of the package, on a text with a dot, covers
    [n + 96]. *)
Theorem bench_parsecidr_ipv4_depth (ParseIP : string -> list Z)
    (ParseCIDR : string -> list Z * list Z * option error) cidr ip n :
  IndexByte cidr "/"%char <> -1 ->
  ParseCIDR cidr = (ip, CIDRMask n 32, None) ->
  length ip = 16%nat -> 0 <= n <= 32 ->
  bench.parsecidr ParseIP ParseCIDR cidr = (ip, CIDRMask n 128, None)
  /\ length (key_prefix ip (CIDRMask n 128)) = Z.to_nat n
  /\ (0 < IndexByte cidr "."%char ->
      parsecidr ParseIP ParseCIDR cidr = (ip, CIDRMask (n + 96) 128, None)
      /\ length (key_prefix ip (CIDRMask (n + 96) 128)) = Z.to_nat (n + 96)).
Proof.
  intros Hslash Hparse Hip Hn. split; [|split].
  - unfold bench.parsecidr. apply Z.eqb_neq in Hslash.
    rewrite Hslash, Hparse. simpl is_Some_b. cbv iota.
    rewrite Size_CIDRMask_32 by done. rewrite Hip. simpl fst.
    by rewrite To16_16.
  - apply key_prefix_CIDRMask; [done|lia].
  - intros Hdot. split; [|apply key_prefix_CIDRMask; [done|lia]].
    unfold parsecidr. apply Z.eqb_neq in Hslash. rewrite Hslash, Hparse.
    simpl is_Some_b. cbv iota. rewrite Size_CIDRMask_32 by done.
    apply Z.ltb_lt in Hdot. rewrite Hdot. simpl fst. by rewrite To16_16.
Qed.

(** * More examples *)

Local Open Scope string_scope.

Lemma tree_A_built : built 16 tree_A.
Proof.
  apply (built_insert 16 first_tree (ip4 10 0 0 0) (CIDRMask 104 128)
           (Val "A") false None).
  - by apply (built_new 16 0).
  - reflexivity.
  - discriminate.
  - vm_compute. reflexivity.
Qed.

Lemma tree_AB_built : built 16 tree_AB.
Proof.
  apply (built_insert 16 tree_A (ip4 10 1 0 0) (CIDRMask 112 128)
           (Val "B") false None).
  - apply tree_A_built.
  - reflexivity.
  - discriminate.
  - vm_compute. reflexivity.
Qed.

Lemma insert_outcome_witness :
  (length (ip4 10 0 0 0) <> length (CIDRMask 104 128)
   /\ insert tree_A (ip4 10 0 0 0) (CIDRMask 104 128) (Val "Z") false
      = Done (Some ErrBadIP, tree_A))
  \/ (ip4 10 0 0 0 = [] /\ CIDRMask 104 128 = []
      /\ insert tree_A (ip4 10 0 0 0) (CIDRMask 104 128) (Val "Z") false
         = Panic)
  \/ (length (ip4 10 0 0 0) = length (CIDRMask 104 128)
      /\ ip4 10 0 0 0 <> [] /\ false = false
      /\ registered tree_A (key_prefix (ip4 10 0 0 0) (CIDRMask 104 128))
      /\ insert tree_A (ip4 10 0 0 0) (CIDRMask 104 128) (Val "Z") false
         = Done (Some ErrNodeBusy, tree_A))
  \/ (length (ip4 10 0 0 0) = length (CIDRMask 104 128)
      /\ ip4 10 0 0 0 <> []
      /\ (false = true
          \/ ~ registered tree_A
                 (key_prefix (ip4 10 0 0 0) (CIDRMask 104 128)))
      /\ exists t',
           insert tree_A (ip4 10 0 0 0) (CIDRMask 104 128) (Val "Z") false
           = Done (None, t')
           /\ well_formed t'
           /\ stored t' (key_prefix (ip4 10 0 0 0) (CIDRMask 104 128))
              = Val "Z"
           /\ forall bs,
                bs <> key_prefix (ip4 10 0 0 0) (CIDRMask 104 128) ->
                stored t' bs = stored tree_A bs).
Proof. apply insert_outcome. apply tree_A_well_formed. Defined.

Lemma insert_then_find_witness :
  find tree_A (ip4 10 0 0 0) (CIDRMask 104 128) = Done (Val "A").
Proof.
  apply (insert_then_find first_tree (ip4 10 0 0 0) (CIDRMask 104 128)
           (Val "A") false tree_A).
  - apply first_tree_well_formed.
  - reflexivity.
  - discriminate.
  - discriminate.
  - vm_compute. reflexivity.
Defined.

Lemma find_outcome_witness :
  (length (ip4 10 1 2 3) <> length fullMask
   /\ find tree_AB (ip4 10 1 2 3) fullMask = Done (Err ErrBadIP))
  \/ (ip4 10 1 2 3 = [] /\ fullMask = []
      /\ find tree_AB (ip4 10 1 2 3) fullMask = Panic)
  \/ (length (ip4 10 1 2 3) = length fullMask /\ ip4 10 1 2 3 <> []
      /\ full_mask (ip4 10 1 2 3) fullMask = true
      /\ node_at tree_AB (key_prefix (ip4 10 1 2 3) fullMask) <> None
      /\ stored tree_AB (key_prefix (ip4 10 1 2 3) fullMask) = Nil
      /\ find tree_AB (ip4 10 1 2 3) fullMask = Done Nil)
  \/ (length (ip4 10 1 2 3) = length fullMask /\ ip4 10 1 2 3 <> []
      /\ (full_mask (ip4 10 1 2 3) fullMask = false
          \/ node_at tree_AB (key_prefix (ip4 10 1 2 3) fullMask) = None
          \/ stored tree_AB (key_prefix (ip4 10 1 2 3) fullMask) <> Nil)
      /\ exists v, find tree_AB (ip4 10 1 2 3) fullMask = Done v
           /\ longest_match tree_AB (key_prefix (ip4 10 1 2 3) fullMask) v).
Proof. apply find_outcome. apply tree_AB_well_formed. Defined.

Lemma delete_not_found_witness :
  (ip4 11 0 0 0 = [] ->
   delete tree_A (ip4 11 0 0 0) (CIDRMask 104 128) false = Panic)
  /\ (ip4 11 0 0 0 <> [] ->
      (delete tree_A (ip4 11 0 0 0) (CIDRMask 104 128) false
       = Done (Some ErrNotFound, tree_A)
       <-> (node_at tree_A (key_prefix (ip4 11 0 0 0) (CIDRMask 104 128))
            = None
            \/ (false = false
                /\ exists n,
                     node_at tree_A
                       (key_prefix (ip4 11 0 0 0) (CIDRMask 104 128))
                     = Some n
                     /\ value n = Nil
                     /\ (left n <> None \/ right n <> None)))))
  /\ (forall e t',
        delete tree_A (ip4 11 0 0 0) (CIDRMask 104 128) false
        = Done (Some e, t') ->
        e = ErrNotFound /\ t' = tree_A).
Proof.
  apply delete_not_found.
  - apply tree_A_well_formed.
  - reflexivity.
Defined.

Lemma exact_delete_clears_one_prefix_witness :
  exists t',
    delete tree_A (ip4 10 0 0 0) (CIDRMask 104 128) false = Done (None, t')
    /\ well_formed t'
    /\ stored t' (key_prefix (ip4 10 0 0 0) (CIDRMask 104 128)) = Nil
    /\ (forall bs, bs <> key_prefix (ip4 10 0 0 0) (CIDRMask 104 128) ->
          stored t' bs = stored tree_A bs)
    /\ delete t' (ip4 10 0 0 0) (CIDRMask 104 128) false
       = Done (Some ErrNotFound, t').
Proof.
  apply exact_delete_clears_one_prefix.
  - apply tree_A_well_formed.
  - reflexivity.
  - discriminate.
  - unfold registered. vm_compute. discriminate.
  - left. vm_compute. discriminate.
Defined.

Lemma whole_range_delete_frame_witness :
  exists t',
    delete tree_AB (ip4 10 0 0 0) (CIDRMask 104 128) true = Done (None, t')
    /\ well_formed t'
    /\ (forall bs,
          key_prefix (ip4 10 0 0 0) (CIDRMask 104 128) `prefix_of` bs ->
          stored t' bs = Nil)
    /\ (forall bs,
          ~ key_prefix (ip4 10 0 0 0) (CIDRMask 104 128) `prefix_of` bs ->
          stored t' bs = stored tree_AB bs)
    /\ (forall wr,
          delete t' (ip4 10 0 0 0) (CIDRMask 104 128) wr
          = Done (Some ErrNotFound, t')).
Proof.
  apply whole_range_delete_frame.
  - apply tree_AB_well_formed.
  - reflexivity.
  - discriminate.
  - vm_compute. discriminate.
  - vm_compute. discriminate.
Defined.

Lemma insert_then_delete_witness :
  exists t1 t2,
    insert first_tree (ip4 10 0 0 0) (CIDRMask 104 128) (Val "A") false
    = Done (None, t1)
    /\ delete t1 (ip4 10 0 0 0) (CIDRMask 104 128) false = Done (None, t2)
    /\ well_formed t2
    /\ forall bs, stored t2 bs = stored first_tree bs.
Proof.
  apply insert_then_delete.
  - apply first_tree_well_formed.
  - reflexivity.
  - discriminate.
  - vm_compute. discriminate.
  - unfold registered. vm_compute. intros H. apply H. reflexivity.
  - discriminate.
Defined.

Lemma delete_keeps_storage_witness :
  root (state (Delete tree_A "10.0.0.0/8")) = root tree_A
  /\ alloc_off (state (Delete tree_A "10.0.0.0/8")) = alloc_off tree_A
  /\ alloc_len (state (Delete tree_A "10.0.0.0/8")) = alloc_len tree_A
  /\ alloc_cap (state (Delete tree_A "10.0.0.0/8")) = alloc_cap tree_A
  /\ length (heap (state (Delete tree_A "10.0.0.0/8")))
     = length (heap tree_A).
Proof.
  apply (delete_keeps_storage tree_A (ip4 10 0 0 0) (CIDRMask 104 128)
           false None).
  vm_compute. reflexivity.
Defined.

Lemma child_parent_link_witness :
  exists a n,
    walk (heap tree_A) (root tree_A) [] = Some a
    /\ heap tree_A !! 1%nat = Some n /\ parent n = Some a.
Proof.
  apply (child_parent_link tree_A [] false 1%nat).
  - apply tree_A_reachable.
  - vm_compute. reflexivity.
Defined.

Lemma paths_distinct_witness : [false] = [false].
Proof.
  apply (paths_distinct tree_A [false] [false] 1%nat).
  - apply tree_A_reachable.
  - vm_compute. reflexivity.
  - vm_compute. reflexivity.
Defined.

Lemma tree_apart_from_free_list_witness :
  exists L,
    flist (heap tree_A) (free tree_A) L /\ NoDup L
    /\ (forall x, x ∈ L -> (x < bound tree_A)%nat)
    /\ (bound tree_A <= length (heap tree_A))%nat
    /\ forall bs a, walk (heap tree_A) (root tree_A) bs = Some a ->
         (a ∉ L) /\ (a < bound tree_A)%nat.
Proof. apply tree_apart_from_free_list. apply tree_A_reachable. Defined.

Lemma root_invariant_witness :
  root tree_A = Some 0%nat
  /\ (exists n, heap tree_A !! 0%nat = Some n /\ parent n = None)
  /\ (exists L, flist (heap tree_A) (free tree_A) L /\ 0%nat ∉ L).
Proof. apply root_invariant. apply tree_A_reachable. Defined.

(** The tree with [10.0.0.0/8 -> A] and [10.1.0.0/16 -> B] after
    [DeleteCIDR "10.1.0.0/16"]: the loop has trimmed the eight nodes below
    the node of [10.0.0.0/8], which is left without children, 104 bits
    down, with its value. *)
Lemma tree_AB_delete_B_built :
  built 16 (state (Delete tree_AB "10.1.0.0/16")).
Proof.
  apply (built_delete 16 tree_AB (ip4 10 1 0 0) (CIDRMask 112 128)
           false None).
  - apply tree_AB_built.
  - vm_compute. reflexivity.
Qed.

Lemma built_shape_witness :
  (length (key_prefix (ip4 10 0 0 0) (CIDRMask 104 128)) <= 8 * 16)%nat
  /\ value (Node (V:=string) None None (Some 103%nat) (Val "A")) <> Nil.
Proof.
  destruct (built_shape 16 (state (Delete tree_AB "10.1.0.0/16"))
              (key_prefix (ip4 10 0 0 0) (CIDRMask 104 128))
              (Node None None (Some 103%nat) (Val "A")))
    as [Hdepth Hleaf].
  - apply tree_AB_delete_B_built.
  - vm_compute. reflexivity.
  - split; [exact Hdepth|]. apply Hleaf.
    + vm_compute. discriminate.
    + reflexivity.
    + reflexivity.
Defined.

Lemma find_on_built_tree_witness :
  exists v, find tree_AB (ip4 10 1 2 3) fullMask = Done v
            /\ longest_match tree_AB (key_prefix (ip4 10 1 2 3) fullMask) v.
Proof.
  apply (find_on_built_tree 16).
  - apply tree_AB_built.
  - reflexivity.
  - vm_compute. reflexivity.
  - discriminate.
Defined.

Lemma exact_delete_on_built_tree_witness :
  (~ registered tree_A (key_prefix (ip4 11 0 0 0) (CIDRMask 104 128)) ->
   delete tree_A (ip4 11 0 0 0) (CIDRMask 104 128) false
   = Done (Some ErrNotFound, tree_A))
  /\ (registered tree_A (key_prefix (ip4 11 0 0 0) (CIDRMask 104 128)) ->
      exists t',
        delete tree_A (ip4 11 0 0 0) (CIDRMask 104 128) false
        = Done (None, t')
        /\ built 16 t'
        /\ ~ registered t' (key_prefix (ip4 11 0 0 0) (CIDRMask 104 128))).
Proof.
  apply exact_delete_on_built_tree.
  - apply tree_A_built.
  - reflexivity.
  - discriminate.
  - vm_compute. discriminate.
Defined.

Lemma newnode_keeps_tree_witness :
  exists a t',
    newnode tree_A = Done (Some a, t')
    /\ well_formed t'
    /\ (forall bs, walk (heap tree_A) (root tree_A) bs <> Some a)
    /\ (forall bs,
          walk (heap t') (root t') bs = walk (heap tree_A) (root tree_A) bs)
    /\ (forall bs, node_at t' bs = node_at tree_A bs).
Proof. apply newnode_keeps_tree. apply tree_A_well_formed. Defined.

(** [10.1.2.3] *)
Lemma loadip4_dotted_quad_witness :
  loadip4 ([49; 48] ++ 46 :: [49] ++ 46 :: [50] ++ 46 :: [51])
  = (digits_value [49; 48] 0 * 16777216 + digits_value [49] 0 * 65536
     + digits_value [50] 0 * 256 + digits_value [51] 0, None).
Proof.
  apply loadip4_dotted_quad;
    try (repeat (constructor; [unfold is_digit; lia|]); constructor);
    vm_compute; discriminate.
Defined.

(** [10.0.0.0/8] *)
Lemma parsecidr4_prefix_length_witness :
  parsecidr4 ([49; 48; 46; 48; 46; 48; 46; 48] ++ 47 :: [56])
  = match loadip4 [49; 48; 46; 48; 46; 48; 46; 48] with
    | (ip, None) =>
        (ip,
         if (uint32 (digits_value [56] 0) <=? 32)%Z
         then 4294967296 - 2 ^ (32 - uint32 (digits_value [56] 0)) else 0,
         None)
    | (_, Some e) => (0, 0, Some e)
    end.
Proof.
  apply parsecidr4_prefix_length.
  - discriminate.
  - intros H. repeat (apply elem_of_cons in H as [H|H]; [discriminate|]).
    by apply elem_of_nil in H.
  - repeat (constructor; [unfold is_digit; lia|]). constructor.
Defined.

(** The prefix length is a [uint32]: [10.0.0.0/8] has the mask of 8
    ones, [10.0.0.0/33] the mask 0, and [10.0.0.0/4294967297], whose
    length wraps around to 1, the mask of one bit. *)
Example parsecidr4_lengths :
  parsecidr4 [49; 48; 46; 48; 46; 48; 46; 48; 47; 56]
  = (167772160, 4278190080, None)
  /\ parsecidr4 [49; 48; 46; 48; 46; 48; 46; 48; 47; 51; 51]
     = (167772160, 0, None)
  /\ parsecidr4 [49; 48; 46; 48; 46; 48; 46; 48; 47;
                 52; 50; 57; 52; 57; 54; 55; 50; 57; 55]
     = (167772160, 2147483648, None).
Proof. vm_compute. repeat split; reflexivity. Qed.

Lemma parsecidr_ipv4_depth_witness :
  parsecidr ParseIP_lit ParseCIDR_lit "10.0.0.0/8"
  = (ip4 10 0 0 0, CIDRMask (8 + 96) 128, None)
  /\ length (CIDRMask (8 + 96) 128) = 16%nat
  /\ length (key_prefix (ip4 10 0 0 0) (CIDRMask (8 + 96) 128))
     = Z.to_nat (8 + 96).
Proof.
  apply parsecidr_ipv4_depth.
  - vm_compute. discriminate.
  - vm_compute. reflexivity.
  - vm_compute. reflexivity.
  - reflexivity.
  - lia.
Defined.

(** [::ffff:10.0.0.0/120], which [net.ParseCIDR] reads as a 16-byte
    address and a 16-byte mask of 120 ones. *)
Lemma parsecidr_dotted_ipv6_witness :
  parsecidr ParseIP_lit (fun _ => (ip4 10 0 0 0, CIDRMask 120 128, None))
    "::ffff:10.0.0.0/120"
  = (ip4 10 0 0 0, [], None)
  /\ AddCIDR ParseIP_lit (fun _ => (ip4 10 0 0 0, CIDRMask 120 128, None))
       tree_A "::ffff:10.0.0.0/120" (Val "Z")
     = Done (Some ErrBadIP, tree_A)
  /\ SetCIDR ParseIP_lit (fun _ => (ip4 10 0 0 0, CIDRMask 120 128, None))
       tree_A "::ffff:10.0.0.0/120" (Val "Z")
     = Done (Some ErrBadIP, tree_A)
  /\ DeleteCIDR ParseIP_lit (fun _ => (ip4 10 0 0 0, CIDRMask 120 128, None))
       tree_A "::ffff:10.0.0.0/120"
     = Done (Some ErrBadIP, tree_A)
  /\ DeleteWholeRangeCIDR ParseIP_lit
       (fun _ => (ip4 10 0 0 0, CIDRMask 120 128, None))
       tree_A "::ffff:10.0.0.0/120"
     = Done (Some ErrBadIP, tree_A)
  /\ FindCIDR ParseIP_lit (fun _ => (ip4 10 0 0 0, CIDRMask 120 128, None))
       tree_A "::ffff:10.0.0.0/120"
     = Done (Err ErrBadIP, None).
Proof.
  apply (parsecidr_dotted_ipv6 ParseIP_lit
           (fun _ => (ip4 10 0 0 0, CIDRMask 120 128, None))
           "::ffff:10.0.0.0/120" (ip4 10 0 0 0) (CIDRMask 120 128)).
  - vm_compute. discriminate.
  - vm_compute. reflexivity.
  - reflexivity.
  - reflexivity.
  - vm_compute. reflexivity.
Defined.

Lemma delete_recycles_witness :
  exists L',
    flist (heap (state (Delete tree_A "10.0.0.0/8")))
          (free (state (Delete tree_A "10.0.0.0/8"))) L'
    /\ forall bs x, walk (heap tree_A) (root tree_A) bs = Some x ->
         (exists bs',
            walk (heap (state (Delete tree_A "10.0.0.0/8")))
                 (root (state (Delete tree_A "10.0.0.0/8"))) bs' = Some x)
         \/ x ∈ L'
         \/ (false = true
             /\ exists e, e <> []
                  /\ bs = (key_prefix (ip4 10 0 0 0) (CIDRMask 104 128)
                           ++ e)%list).
Proof.
  apply (delete_recycles tree_A (ip4 10 0 0 0) (CIDRMask 104 128) false).
  - apply tree_A_well_formed.
  - vm_compute. reflexivity.
Defined.

(** [10.1.2.3/8] and [10.0.0.0/8] *)
Lemma host_bits_ignored_witness :
  insert tree_A (ip4 10 1 2 3) (CIDRMask 104 128) (Val "Z") false
  = insert tree_A (ip4 10 0 0 0) (CIDRMask 104 128) (Val "Z") false
  /\ delete tree_A (ip4 10 1 2 3) (CIDRMask 104 128) false
     = delete tree_A (ip4 10 0 0 0) (CIDRMask 104 128) false
  /\ find tree_A (ip4 10 1 2 3) (CIDRMask 104 128)
     = find tree_A (ip4 10 0 0 0) (CIDRMask 104 128).
Proof.
  apply host_bits_ignored.
  - vm_compute. discriminate.
  - reflexivity.
  - reflexivity.
  - discriminate.
  - vm_compute. reflexivity.
Defined.

Lemma bench_parsecidr_ipv4_depth_witness :
  bench.parsecidr ParseIP_lit ParseCIDR_lit "10.0.0.0/8"
  = (ip4 10 0 0 0, CIDRMask 8 128, None)
  /\ length (key_prefix (ip4 10 0 0 0) (CIDRMask 8 128)) = Z.to_nat 8
  /\ (0 < IndexByte "10.0.0.0/8" "."%char ->
      parsecidr ParseIP_lit ParseCIDR_lit "10.0.0.0/8"
      = (ip4 10 0 0 0, CIDRMask (8 + 96) 128, None)
      /\ length (key_prefix (ip4 10 0 0 0) (CIDRMask (8 + 96) 128))
         = Z.to_nat (8 + 96)).
Proof.
  apply bench_parsecidr_ipv4_depth.
  - vm_compute. discriminate.
  - vm_compute. reflexivity.
  - reflexivity.
  - lia.
Defined.
